(** * format: a value-to-text formatter for Go values

    A shallow embedding of [format.go] (the current revision of the file:
    [Formatter], [state], [deeper], [print], [printSameDepth], [printSlice],
    [printMap], [printStruct], the layout functions [pr], [after], [between],
    [checkWidth], [write], and the ordering [compareValues]) together with the
    properties of the traversal, the layout engine and the ordering.

    Conventions of the model.
    - A [reflect.Value] is a term of [value]; the memory it points into is a
      [Heap] that does not change during a formatting call.
    - Go's [int] is modelled by [Z].  The two counters of [state], [depth] and
      [col], count active [deeper] frames and bytes written on the current
      line; both stay far below [2^63], so no wrap-around is written for them.
    - The traversal is recursive along heap references; its functions take a
      [fuel] argument and return [OutOfFuel] when it is exhausted.  A Go panic
      is the outcome [Panic]; a deferred function runs when its function
      returns and when a panic leaves it ([deferred]).
    - The packages [fmt] and [strconv] are outside the repository: the verbs
      [%v] and [%q] are the fields of the class [Fmt].  [io.Writer] is the
      class [Writer].
    - [fmt.Sprint], which [compareValues] calls on keys it cannot order
      otherwise, does not return on a key that contains itself without
      passing a pointer.  [fmt_v] is the text of the call when it returns,
      and the statements that a formatting call returns are made for heaps
      on which it does ([keysPrintable], [pointerCyclesOnly]). *)

From Stdlib Require Import ZArith String Ascii List Bool Lia.
From Stdlib Require Import Floats.SpecFloat Numbers.DecimalString.
From stdpp Require Import base tactics option list gmap sets strings finite countable.
From stdpp Require sorting.

Set Warnings "-register-all".
Open Scope string_scope.
Open Scope Z_scope.

(** ** Run-time types and values *)

(** [reflect.Kind]. *)
Inductive Kind :=
| Invalid | Bool
| Int | Int8 | Int16 | Int32 | Int64
| Uint | Uint8 | Uint16 | Uint32 | Uint64 | Uintptr
| Float32 | Float64 | Complex64 | Complex128
| Array | Chan | Func | Interface | Map | Pointer | Slice
| String_ | Struct | UnsafePointer.

Inductive IntKind := I0 | I8 | I16 | I32 | I64.
Inductive UintKind := U0 | U8 | U16 | U32 | U64 | Uptr.
Inductive FloatKind := F32 | F64.
Inductive ComplexKind := C64 | C128.

Definition IntKind_Kind (k : IntKind) : Kind :=
  match k with I0 => Int | I8 => Int8 | I16 => Int16 | I32 => Int32 | I64 => Int64 end.
Definition UintKind_Kind (k : UintKind) : Kind :=
  match k with
  | U0 => Uint | U8 => Uint8 | U16 => Uint16 | U32 => Uint32 | U64 => Uint64
  | Uptr => Uintptr
  end.
Definition FloatKind_Kind (k : FloatKind) : Kind :=
  match k with F32 => Float32 | F64 => Float64 end.
Definition ComplexKind_Kind (k : ComplexKind) : Kind :=
  match k with C64 => Complex64 | C128 => Complex128 end.

(** The name part of a type descriptor: the import path tells apart two types
    whose [String()] is the same. *)
Record TypeName := { pkgPath : string; typeString : string }.

(** [reflect.Type]: two descriptors are the same type iff they are equal. *)
Record rtype := { rkind : Kind; rname : TypeName }.

(** Heap addresses. *)
Abbreviation addr := N (only parsing).

(** [reflect.StructField], as far as [printStruct] reads it. *)
Record StructField := { Name : string; IsExported : bool }.

(** [reflect.Value].  Pointers, slices and maps refer to the heap; a pointer,
    slice or map whose address is not allocated is nil. *)
Inductive value :=
| Zero                                             (* the zero Value: not valid *)
| VBool (t : TypeName) (b : bool)
| VInt (t : TypeName) (k : IntKind) (n : Z)
| VUint (t : TypeName) (k : UintKind) (n : Z)
| VFloat (t : TypeName) (k : FloatKind) (x : spec_float)
| VComplex (t : TypeName) (k : ComplexKind) (re im : spec_float)
| VString (t : TypeName) (str : string)
| VUnsafePointer (t : TypeName) (a : addr)
| VInterface (t : TypeName) (e : value)        (* e = Zero: a nil interface *)
| VPointer (t : TypeName) (a : addr)
| VArray (t : TypeName) (es : list value)
| VSlice (t : TypeName) (a : addr)
| VMap (t : TypeName) (a : addr)
| VStruct (t : TypeName) (fs : list (StructField * value))
| VFunc (t : TypeName) (a : addr)
| VChan (t : TypeName) (a : addr).

Record Heap := {
  cells : gmap addr value;                    (* what a pointer points to *)
  arrays : gmap addr (list value);            (* the elements of a slice *)
  maps : gmap addr (list (value * value))     (* the entries of a map, in the
                                                 order MapKeys returns them *)
}.

Definition KindOf (v : value) : Kind :=
  match v with
  | Zero => Invalid
  | VBool _ _ => Bool
  | VInt _ k _ => IntKind_Kind k
  | VUint _ k _ => UintKind_Kind k
  | VFloat _ k _ => FloatKind_Kind k
  | VComplex _ k _ _ => ComplexKind_Kind k
  | VString _ _ => String_
  | VUnsafePointer _ _ => UnsafePointer
  | VInterface _ _ => Interface
  | VPointer _ _ => Pointer
  | VArray _ _ => Array
  | VSlice _ _ => Slice
  | VMap _ _ => Map
  | VStruct _ _ => Struct
  | VFunc _ _ => Func
  | VChan _ _ => Chan
  end.

Definition IsValid (v : value) : bool :=
  match v with Zero => false | _ => true end.

Definition nameOf (v : value) : option TypeName :=
  match v with
  | Zero => None
  | VBool t _ | VInt t _ _ | VUint t _ _ | VFloat t _ _ | VComplex t _ _ _
  | VString t _ | VUnsafePointer t _ | VInterface t _ | VPointer t _
  | VArray t _ | VSlice t _ | VMap t _ | VStruct t _ | VFunc t _ | VChan t _ => Some t
  end.

(** [v.Type()]; [None] is the panic on the zero Value. *)
Definition TypeOf (v : value) : option rtype :=
  match nameOf v with
  | Some t => Some {| rkind := KindOf v; rname := t |}
  | None => None
  end.

(** [t.String()]. *)
Definition String_of (t : rtype) : string := typeString (rname t).

(** ** Decidable equality and countability of type descriptors *)

#[global] Instance Kind_eq_dec : EqDecision Kind.
Proof. solve_decision. Defined.

Definition Kind_enum : list Kind :=
  [Invalid; Bool; Int; Int8; Int16; Int32; Int64;
   Uint; Uint8; Uint16; Uint32; Uint64; Uintptr;
   Float32; Float64; Complex64; Complex128;
   Array; Chan; Func; Interface; Map; Pointer; Slice;
   String_; Struct; UnsafePointer].

#[global] Instance Kind_finite : Finite Kind.
Proof.
  refine {| enum := Kind_enum |}.
  - apply (bool_decide_unpack _). vm_compute. exact I.
  - intros k. apply list_elem_of_In. destruct k; simpl; tauto.
Defined.

#[global] Instance TypeName_eq_dec : EqDecision TypeName.
Proof. solve_decision. Defined.

#[global] Instance TypeName_countable : Countable TypeName.
Proof.
  apply (inj_countable' (fun t => (pkgPath t, typeString t))
                        (fun p => {| pkgPath := p.1; typeString := p.2 |})).
  intros []. reflexivity.
Defined.

#[global] Instance rtype_eq_dec : EqDecision rtype.
Proof. solve_decision. Defined.

#[global] Instance rtype_countable : Countable rtype.
Proof.
  apply (inj_countable' (fun t => (rkind t, rname t))
                        (fun p => {| rkind := p.1; rname := p.2 |})).
  intros []. reflexivity.
Defined.

(** The key under which a pointer is recorded in [state.seen]: the interface
    value [v.Interface()], that is the dynamic type and the address. *)
Abbreviation ident := (rtype * N)%type (only parsing).

(** ** Strings *)

Definition len (str : string) : Z := Z.of_nat (String.length str).

Fixpoint lastIndexFrom (c : ascii) (str : string) (i acc : Z) : Z :=
  match str with
  | EmptyString => acc
  | String x rest => lastIndexFrom c rest (i + 1) (if Ascii.eqb x c then i else acc)
  end.

(** [strings.LastIndex(str, c)] for a one-byte separator; -1 when absent. *)
Definition LastIndex (str : string) (c : ascii) : Z := lastIndexFrom c str 0 (-1).

Definition nl : string := String (ascii_of_nat 10) EmptyString.
Definition nl_byte : ascii := ascii_of_nat 10.

(** [%d] of an int. *)
Definition itoa (n : Z) : string := NilZero.string_of_int (Z.to_int n).

(** ** The formatter and the traversal state *)

Definition error := string.

(** [io.Writer], through [io.WriteString]: the writer after the call and the
    error it returned. *)
Class Writer (W : Type) := WriteString : W -> string -> W * option error.

(** The verbs of package fmt that the formatter uses on scalar values:
    [fmt_v] is [%v] (and [fmt.Sprint] of one operand), [fmt_q] is [%q].
    [fmt_v] is the text of the call when the call returns.  [fmt.Sprint]
    follows slices, maps, arrays, structs and interfaces, and a pointer that
    is its operand, so it does not return on an operand that contains itself
    without passing a pointer (the TODO at the end of [compareValues]); the
    statements that a call of the formatter returns are therefore made for
    the heaps of [keysPrintable] below. *)
Class Fmt := { fmt_v : value -> string; fmt_q : value -> string }.

Record Formatter := {
  ShowZero : bool;
  MaxWidth : Z;
  Compact : bool;
  Indent : string;
  MaxDepth : Z;
  MaxElements : Z;
  OmitPackage : bool;
  ignoreFields : gmap rtype (list string)
}.

Record state (W : Type) := {
  fmtr : Formatter;
  w : W;
  seen : gset ident;
  depth : Z;
  col : Z;
  err : option error
}.
Arguments fmtr {W} _.
Arguments w {W} _.
Arguments seen {W} _.
Arguments depth {W} _.
Arguments col {W} _.
Arguments err {W} _.

Section Setters.
  Context {W : Type}.

Definition set_seen (f : gset ident -> gset ident) (s : state W) : state W :=
    {| fmtr := fmtr s; w := w s; seen := f (seen s); depth := depth s;
       col := col s; err := err s |}.

Definition set_depth (d : Z) (s : state W) : state W :=
    {| fmtr := fmtr s; w := w s; seen := seen s; depth := d;
       col := col s; err := err s |}.
End Setters.

(** ** The layout engine *)

Section Layout.
  Context {W : Type} `{Writer W}.

Definition write (str : string) (s : state W) : state W :=
    match err s with
    | Some _ => s
    | None =>
        let '(w', e) := WriteString (w s) str in
        let i := LastIndex str nl_byte in
        {| fmtr := fmtr s; w := w'; seen := seen s; depth := depth s;
           col := if 0 <=? i then len str - i - 1 else col s + len str;
           err := e |}
    end.

  (** Observe MaxWidth. *)
Definition checkWidth (str : string) (s : state W) : state W :=
    if (0 <? MaxWidth (fmtr s)) && (MaxWidth (fmtr s) <=? col s + len str)
    then write nl s
    else s.

  (** [for range s.depth { s.write(s.Indent) }] *)
Definition indent (s : state W) : state W :=
    Nat.iter (Z.to_nat (depth s)) (write (Indent (fmtr s))) s.

Definition pr (str : string) (s : state W) : state W :=
    match err s with
    | Some _ => s
    | None =>
        let s1 := checkWidth str s in
        let s2 := if negb (Compact (fmtr s1)) && (col s1 =? 0) then indent s1 else s1 in
        write str s2
    end.

Definition after (str : string) (s : state W) : state W :=
    let s1 := checkWidth EmptyString (write str s) in
    if col s1 =? 0 then s1
    else if Compact (fmtr s1) then write " " s1 else write nl s1.

Definition between (str : string) (s : state W) : state W :=
    let s1 := checkWidth EmptyString (write str s) in
    if col s1 =? 0 then s1 else write " " s1.
End Layout.

(** ** Reading values through reflection *)

Section Reflect.
  Variable h : Heap.

  (** [v.Elem()] of an interface or pointer; the zero Value for nil. *)
Definition Elem (v : value) : value :=
    match v with
    | VInterface _ e => e
    | VPointer _ a => default Zero (cells h !! a)
    | _ => Zero
    end.

  (** The elements [v.Index(0)], ..., [v.Index(v.Len()-1)] of an array or slice. *)
Definition elems (v : value) : list value :=
    match v with
    | VArray _ es => es
    | VSlice _ a => default [] (arrays h !! a)
    | _ => []
    end.

  (** [v.Len()] *)
Definition Len (v : value) : Z := Z.of_nat (length (elems v)).

  (** The keys [v.MapKeys()], each with the value [v.MapIndex(key)]. *)
Definition entries (v : value) : list (value * value) :=
    match v with
    | VMap _ a => default [] (maps h !! a)
    | _ => []
    end.

Definition fields (v : value) : list (StructField * value) :=
    match v with
    | VStruct _ fs => fs
    | _ => []
    end.

Definition IsNil (v : value) : bool :=
    match v with
    | VInterface _ e => negb (IsValid e)
    | VPointer _ a => bool_decide (cells h !! a = None)
    | VSlice _ a => bool_decide (arrays h !! a = None)
    | VMap _ a => bool_decide (maps h !! a = None)
    | VUnsafePointer _ a | VFunc _ a | VChan _ a => (a =? 0)%N
    | _ => false
    end.

  (** [v.IsZero()] (Go 1.22: negative zero is zero, blank fields are skipped).
      [printStruct] calls it on fields only, which are valid Values. *)
Fixpoint IsZero (v : value) : bool :=
    match v with
    | Zero => true
    | VBool _ b => negb b
    | VInt _ _ n | VUint _ _ n => n =? 0
    | VFloat _ _ x => SFeqb x (S754_zero false)
    | VComplex _ _ re im => SFeqb re (S754_zero false) && SFeqb im (S754_zero false)
    | VString _ str => len str =? 0
    | VArray _ es => forallb IsZero es
    | VStruct _ fs =>
        forallb (fun fv => IsZero (snd fv) || String.eqb (Name (fst fv)) "_") fs
    | _ => IsNil v
    end.
End Reflect.

(** ** The ordering rule *)

Definition isNaN (x : spec_float) : bool := negb (SFeqb x x).

(** [cmp.Compare], for a type with order [lt] and NaN test [nan]. *)
Definition Compare {T : Type} (lt : T -> T -> bool) (nan : T -> bool) (x y : T) : Z :=
  if nan x then (if nan y then 0 else -1)
  else if nan y then 1
  else if lt x y then -1
  else if lt y x then 1
  else 0.

Definition Compare_int : Z -> Z -> Z := Compare Z.ltb (fun _ => false).
Definition Compare_string : string -> string -> Z := Compare String.ltb (fun _ => false).
Definition Compare_float : spec_float -> spec_float -> Z := Compare SFltb isNaN.

Definition CanInt (v : value) : bool :=
  match v with VInt _ _ _ => true | _ => false end.
Definition CanUint (v : value) : bool :=
  match v with VUint _ _ _ => true | _ => false end.
Definition CanFloat (v : value) : bool :=
  match v with VFloat _ _ _ => true | _ => false end.

(** [v.Int()], [v.Uint()], [v.Float()]: [None] is the panic on another kind. *)
Definition Int_of (v : value) : option Z :=
  match v with VInt _ _ n => Some n | _ => None end.
Definition Uint_of (v : value) : option Z :=
  match v with VUint _ _ n => Some n | _ => None end.
Definition Float_of (v : value) : option spec_float :=
  match v with VFloat _ _ x => Some x | _ => None end.

(** [if v.Kind() == reflect.Interface { v = v.Elem() }] *)
Definition unwrap (v : value) : value :=
  match KindOf v with
  | Interface => match v with VInterface _ e => e | _ => v end
  | _ => v
  end.

(** [compareValues]; [None] is a panic.  The last line gives the result of
    the comparison when both calls of [fmt.Sprint] return. *)
Definition compareValues `{Fmt} (v1 v2 : value) : option Z :=
  if negb (IsValid v1) && negb (IsValid v2) then Some 0
  else if negb (IsValid v1) then Some (-1)
  else if negb (IsValid v2) then Some 1
  else
    let v1 := unwrap v1 in
    let v2 := unwrap v2 in
    t1 ← TypeOf v1;
    t2 ← TypeOf v2;
    if bool_decide (t1 ≠ t2) then Some (Compare_string (String_of t1) (String_of t2))
    else if CanInt v1 then x ← Int_of v1; y ← Int_of v2; Some (Compare_int x y)
    else if CanUint v1 then x ← Uint_of v1; y ← Uint_of v2; Some (Compare_int x y)
    else if CanFloat v1 then x ← Float_of v1; y ← Float_of v2; Some (Compare_float x y)
    else Some (Compare_string (fmt_v v1) (fmt_v v2)).

(** [slices.SortFunc], as the insertion sort that package slices runs on a
    slice of at most 12 elements: element [i] moves left while it compares
    less than its left neighbour.  The sorted prefix is held last element
    first.  A panic of the comparison ends the sort. *)
Section Sort.
  Context {A : Type} (cmp : A -> A -> option Z).

Fixpoint insertLeft (x : A) (prefix : list A) : option (list A) :=
    match prefix with
    | [] => Some [x]
    | y :: rest =>
        c ← cmp x y;
        if c <? 0 then r ← insertLeft x rest; Some (y :: r)
        else Some (x :: prefix)
    end.

Fixpoint insertionSort (prefix l : list A) : option (list A) :=
    match l with
    | [] => Some (rev prefix)
    | x :: rest => p ← insertLeft x prefix; insertionSort p rest
    end.

Definition SortFunc (l : list A) : option (list A) := insertionSort [] l.
End Sort.

(** ** The traversal *)

(** How a call ends: it returns, it panics, or the model runs out of fuel.
    The last two carry the state at the point where the call stopped. *)
Inductive result (W : Type) :=
| Done (s : state W)
| Panic (s : state W)
| OutOfFuel (s : state W).
Arguments Done {W} s.
Arguments Panic {W} s.
Arguments OutOfFuel {W} s.

Definition andThen {W : Type} (r : result W) (k : state W -> result W) : result W :=
  match r with
  | Done s => k s
  | Panic s => Panic s
  | OutOfFuel s => OutOfFuel s
  end.

(** [defer g()]: [g] runs when the function returns and when it panics. *)
Definition deferred {W : Type} (r : result W) (g : state W -> state W) : result W :=
  match r with
  | Done s => Done (g s)
  | Panic s => Panic (g s)
  | OutOfFuel s => OutOfFuel s
  end.

Definition stateOf {W : Type} (r : result W) : state W :=
  match r with Done s | Panic s | OutOfFuel s => s end.

(** [Kind.String()] for the kind no case of the switch covers. *)
Definition Kind_String (k : Kind) : string :=
  match k with Invalid => "invalid" | _ => EmptyString end.

Section Traversal.
  Context {W : Type} `{Writer W} `{Fmt}.
  Variable h : Heap.

Definition typeName (t : rtype) (s : state W) : string :=
    let n := String_of t in
    if negb (OmitPackage (fmtr s)) then n
    else
      let i := LastIndex n "."%char in
      if 0 <? i then substring (Z.to_nat (i + 1)) (String.length n - Z.to_nat (i + 1)) n
      else n.

Definition deeper (f : state W -> result W) (s : state W) : result W :=
    let s1 := set_depth (depth s + 1) s in
    if MaxDepth (fmtr s1) <? depth s1
    then let s2 := pr "<maxdepth>" s1 in Done (set_depth (depth s2 - 1) s2)
    else deferred (f s1) (fun s2 => set_depth (depth s2 - 1) s2).

  (** The placeholder [printSlice] writes in place of the elements beyond
      MaxElements. *)
Definition sliceEllipsis (s : state W) : state W :=
    if Compact (fmtr s) then pr "..." s
    else
      let s1 := set_depth (depth s + 1) s in
      let s2 := pr ("..." +:+ nl) s1 in
      set_depth (depth s2 - 1) s2.

  (** What [printSlice] and [printMap] write before the first element. *)
Definition sliceOpen (v : value) (s : state W) : state W :=
    let s1 := match KindOf v with
              | Array => pr ("[" +:+ itoa (Len h v) +:+ "]{") s
              | _ => pr "[]{" s
              end in
    if negb (Compact (fmtr s1)) then pr nl s1 else s1.

Definition mapOpen (s : state W) : state W :=
    let s1 := pr "{" s in
    if negb (Compact (fmtr s1)) then pr nl s1 else s1.

  Section Loops.
    (** [s.print], at the fuel the enclosing call has left. *)
    Variable print : value -> state W -> result W.

    (** The body of the loop of [printSlice] from index [i] on; [n] is
        [v.Len()]. *)
Fixpoint sliceLoop (n i : Z) (es : list value) (s : state W) : result W :=
      match es with
      | [] => Done s
      | e :: rest =>
          if (0 <? MaxElements (fmtr s)) && (MaxElements (fmtr s) <=? i)
          then Done (sliceEllipsis s)
          else
            andThen (print e s) (fun s1 =>
              let s2 := if negb (Compact (fmtr s1)) || negb (i =? n - 1)
                        then after "," s1 else s1 in
              sliceLoop n (i + 1) rest s2)
      end.

Definition printSlice (v : value) (s : state W) : result W :=
      andThen (sliceLoop (Len h v) 0 (elems h v) (sliceOpen v s))
              (fun s3 => Done (pr "}" s3)).

Fixpoint mapLoop (n i : Z) (kvs : list (value * value)) (s : state W) : result W :=
      match kvs with
      | [] => Done s
      | (key, val) :: rest =>
          if (0 <? MaxElements (fmtr s)) && (MaxElements (fmtr s) <=? i)
          then Done (pr "..." s)
          else
            andThen (print key s) (fun s1 =>
            andThen (print val (between ":" s1)) (fun s2 =>
              let s3 := if negb (Compact (fmtr s2)) || negb (i =? n - 1)
                        then after "," s2 else s2 in
              mapLoop n (i + 1) rest s3))
      end.

    (** The keys are sorted together with the values [MapIndex] finds for
        them. *)
Definition printMap (v : value) (s : state W) : result W :=
      match SortFunc (fun kv1 kv2 => compareValues (fst kv1) (fst kv2)) (entries h v) with
      | None => Panic s
      | Some keys =>
          andThen (mapLoop (Z.of_nat (length keys)) 0 keys (mapOpen s))
                  (fun s3 => Done (pr "}" s3))
      end.

Fixpoint structLoop (ignore : list string) (first : bool)
        (fs : list (StructField * value)) (s : state W) : result W :=
      match fs with
      | [] => Done s
      | (sf, val) :: rest =>
          if existsb (String.eqb (Name sf)) ignore then structLoop ignore first rest s
          else if negb (IsExported sf) then structLoop ignore first rest s
          else if negb (ShowZero (fmtr s)) && IsZero h val then structLoop ignore first rest s
          else
            let s1 := if negb first && Compact (fmtr s) then pr ", " s else s in
            andThen (deeper (fun s' => Done (pr (Name sf) s')) s1) (fun s2 =>
            andThen (print val (between ":" s2)) (fun s3 =>
              let s4 := if negb (Compact (fmtr s3)) then pr nl s3 else s3 in
              structLoop ignore false rest s4))
      end.

Definition printStruct (v : value) (s : state W) : result W :=
      match TypeOf v with
      | None => Panic s
      | Some t =>
          let ignore := default [] (ignoreFields (fmtr s) !! t) in
          let s1 := pr (typeName t s +:+ "{") s in
          let s2 := if negb (Compact (fmtr s1)) then pr nl s1 else s1 in
          andThen (structLoop ignore true (fields v) s2) (fun s3 => Done (pr "}" s3))
      end.
  End Loops.

  (** [value := v.Interface()], the key of [s.seen]. *)
Definition key (v : value) : ident :=
    match v with
    | VPointer t a | VUnsafePointer t a => ({| rkind := KindOf v; rname := t |}, a)
    | _ => ({| rkind := KindOf v;
               rname := {| pkgPath := EmptyString; typeString := EmptyString |} |}, 0%N)
    end.

Definition isPointerKind (k : Kind) : bool :=
    match k with Pointer | UnsafePointer => true | _ => false end.

  (** The body of [printSameDepth] is given in three parts, for a recursive
      call [self] of [printSameDepth] and the call [s.print] built from it:
      the [switch] on the kind, the cycle check around it, and the test for
      the zero Value before both. *)
  Section Body.
    Variable self : value -> state W -> result W.

Definition switch (v : value) (s : state W) : result W :=
      match KindOf v with
      | Int | Int8 | Int16 | Int32 | Int64
      | Uint | Uint8 | Uint16 | Uint32 | Uint64
      | Uintptr | UnsafePointer
      | Float32 | Float64
      | Complex64 | Complex128
      | Bool => Done (pr (fmt_v v) s)
      | String_ => Done (pr (fmt_q v) s)
      | Interface => self (Elem h v) s
      | Pointer => self (Elem h v) (pr "&" s)
      | Array | Slice => printSlice (fun x => deeper (self x)) v s
      | Map => printMap (fun x => deeper (self x)) v s
      | Struct => printStruct (fun x => deeper (self x)) v s
      | Func | Chan =>
          match TypeOf v with
          | None => Panic s
          | Some t => Done (pr (typeName t s +:+ "(" +:+ typeName t s +:+ ")") s)
          end
      | Invalid =>
          Done (pr ("<unknown reflect kind:" +:+ Kind_String (KindOf v) +:+ ">") s)
      end.

    (** [if s.seen[value] { s.prf("<cycle>"); return }
         else { s.seen[value] = true; defer delete(s.seen, value) }] *)
Definition cycleCheck (v : value) (body : state W -> result W) (s : state W) : result W :=
      if isPointerKind (KindOf v) then
        if bool_decide (key v ∈ seen s) then Done (pr "<cycle>" s)
        else
          deferred (body (set_seen (fun m => {[key v]} ∪ m) s))
                   (set_seen (fun m => m ∖ {[key v]}))
      else body s.

Definition printSameDepthBody (v : value) (s : state W) : result W :=
      if negb (IsValid v) then Done (pr "nil" s)
      else cycleCheck v (switch v) s.
  End Body.

Fixpoint printSameDepth (fuel : nat) (v : value) (s : state W) {struct fuel} : result W :=
    match fuel with
    | O => OutOfFuel s
    | S fuel' => printSameDepthBody (printSameDepth fuel') v s
    end.

Definition print (fuel : nat) (v : value) (s : state W) : result W :=
    deeper (printSameDepth fuel v) s.
End Traversal.

(** ** The entry points *)

(** What a call of [Fprint] does: it returns an error (or nil) and leaves the
    writer in some state, or it panics; [NoFuel] is the model running out of
    fuel. *)
Inductive outcome (W : Type) :=
| Returned (e : option error) (w : W)
| Panicked
| NoFuel.
Arguments Returned {W} e w.
Arguments Panicked {W}.
Arguments NoFuel {W}.

Definition withDefaults (f : Formatter) : Formatter :=
  {| ShowZero := ShowZero f;
     MaxWidth := MaxWidth f;
     Compact := Compact f;
     Indent := if String.eqb (Indent f) EmptyString then "    " else Indent f;
     MaxDepth := if MaxDepth f <=? 0 then 100 else MaxDepth f;
     MaxElements := MaxElements f;
     OmitPackage := OmitPackage f;
     ignoreFields := ignoreFields f |}.

Section Entry.
  Context {W : Type} `{Writer W} `{Fmt}.
  Variable h : Heap.

Definition initial (f : Formatter) (w0 : W) : state W :=
    {| fmtr := withDefaults f; w := w0; seen := ∅; depth := -1; col := 0; err := None |}.

  (** [Formatter.Fprint]; [x] is [reflect.ValueOf(x)]. *)
Definition Fprint (fuel : nat) (f : Formatter) (w0 : W) (x : value) : outcome W :=
    match print h fuel x (initial f w0) with
    | Done s =>
        match err s with
        | Some e => Returned (Some e) (w s)
        | None =>
            if negb (col s =? 0) && negb (Compact (fmtr s))
            then let '(w', e) := WriteString (w s) nl in Returned e w'
            else Returned None (w s)
        end
    | Panic _ => Panicked
    | OutOfFuel _ => NoFuel
    end.
End Entry.

(** [bytes.Buffer]: every write is appended and succeeds. *)
#[global] Instance Buffer : Writer string := fun buf str => (buf +:+ str, None).

(** [Formatter.Sprint]: the text, when the call returns. *)
Definition Sprint `{Fmt} (h : Heap) (fuel : nat) (f : Formatter) (x : value) : option string :=
  match Fprint h fuel f EmptyString x with
  | Returned _ buf => Some buf
  | _ => None
  end.

(** The zero Formatter, [Formatter{}]. *)
Definition zeroFormatter : Formatter :=
  {| ShowZero := false; MaxWidth := 0; Compact := false; Indent := EmptyString;
     MaxDepth := 0; MaxElements := 0; OmitPackage := false; ignoreFields := ∅ |}.

Definition withCompact (b : bool) (f : Formatter) : Formatter :=
  {| ShowZero := ShowZero f; MaxWidth := MaxWidth f; Compact := b; Indent := Indent f;
     MaxDepth := MaxDepth f; MaxElements := MaxElements f; OmitPackage := OmitPackage f;
     ignoreFields := ignoreFields f |}.
Definition withMaxElements (n : Z) (f : Formatter) : Formatter :=
  {| ShowZero := ShowZero f; MaxWidth := MaxWidth f; Compact := Compact f; Indent := Indent f;
     MaxDepth := MaxDepth f; MaxElements := n; OmitPackage := OmitPackage f;
     ignoreFields := ignoreFields f |}.
Definition withMaxDepth (n : Z) (f : Formatter) : Formatter :=
  {| ShowZero := ShowZero f; MaxWidth := MaxWidth f; Compact := Compact f; Indent := Indent f;
     MaxDepth := n; MaxElements := MaxElements f; OmitPackage := OmitPackage f;
     ignoreFields := ignoreFields f |}.
Definition withMaxWidth (n : Z) (f : Formatter) : Formatter :=
  {| ShowZero := ShowZero f; MaxWidth := n; Compact := Compact f; Indent := Indent f;
     MaxDepth := MaxDepth f; MaxElements := MaxElements f; OmitPackage := OmitPackage f;
     ignoreFields := ignoreFields f |}.

(** ** The fmt verbs on values of builtin types

    What [%v] and [%q] print for the builtin integer, boolean and string
    types, which have no methods: decimal digits, [true]/[false], and the
    text between double quotes (for a string without characters that need
    escaping).  Other values are not printed by this instance. *)
Definition builtin_v (v : value) : string :=
  match v with
  | VInt _ _ n | VUint _ _ n => itoa n
  | VBool _ b => if b then "true" else "false"
  | VString _ str => str
  | _ => EmptyString
  end.

Definition dquote : string := String (ascii_of_nat 34) EmptyString.

Definition builtin_q (v : value) : string :=
  match v with
  | VString _ str => dquote +:+ str +:+ dquote
  | _ => EmptyString
  end.

Definition builtinFmt : Fmt := {| fmt_v := builtin_v; fmt_q := builtin_q |}.

(** ** Sample values *)

Definition builtin (n : string) : TypeName := {| pkgPath := EmptyString; typeString := n |}.
Definition int (n : Z) : value := VInt (builtin "int") I0 n.
Definition str (x : string) : value := VString (builtin "string") x.
Definition any (v : value) : value := VInterface (builtin "interface {}") v.

Definition emptyHeap : Heap := {| cells := ∅; arrays := ∅; maps := ∅ |}.

(** [[]int{2, 3, 4}] *)
Definition heap234 : Heap :=
  {| cells := ∅; arrays := {[ 1%N := [int 2; int 3; int 4] ]}; maps := ∅ |}.
Definition slice234 : value := VSlice (builtin "[]int") 1%N.

(** [s := []any{1, nil}; s[1] = &s]: the variable [s] lives at address 2, its
    elements at address 1. *)
Definition sliceCycle : value := VSlice (builtin "[]interface {}") 1%N.
Definition heapCycle : Heap :=
  {| cells := {[ 2%N := sliceCycle ]};
     arrays := {[ 1%N := [any (int 1); any (VPointer (builtin "*[]interface {}") 2%N)] ]};
     maps := ∅ |}.

(** [&s], the second element of the slice in [heapCycle]. *)
Definition backPointer : value := VPointer (builtin "*[]interface {}") 2%N.

(** [s := []any{1, nil}; s[1] = s] *)
Definition heapSelf : Heap :=
  {| cells := ∅;
     arrays := {[ 1%N := [any (int 1); any sliceCycle] ]};
     maps := ∅ |}.

(** [map[string]int{"b": 2, "a": 1}] *)
Definition heapMap : Heap :=
  {| cells := ∅; arrays := ∅;
     maps := {[ 1%N := [(str "b", int 2); (str "a", int 1)] ]} |}.
Definition mapBA : value := VMap (builtin "map[string]int") 1%N.

Definition compact : Formatter := withCompact true zeroFormatter.


(** ** Notions used to state the properties *)

(** What the layout functions never change: the formatter, the depth and the
    visited set. *)
Definition sameFrame {W : Type} (s s' : state W) : Prop :=
  fmtr s' = fmtr s /\ depth s' = depth s /\ seen s' = seen s.

(** A call is framed when, whenever it returns, it has left the formatter,
    the depth and the visited set as they were. *)
Definition framed {W : Type} (f : state W -> result W) : Prop :=
  forall s s', f s = Done s' -> sameFrame s s'.

(** The same of a call that panics: its deferred functions have restored the
    depth and the visited set when the panic leaves it. *)
Definition unwound {W : Type} (f : state W -> result W) : Prop :=
  forall s s', f s = Panic s' -> sameFrame s s'.

(** The width limit is set and a fragment of length [n] would reach it. *)
Definition reachesWidth {W : Type} (s : state W) (n : Z) : bool :=
  (0 <? MaxWidth (fmtr s)) && (MaxWidth (fmtr s) <=? col s + n).

(** [if !s.Compact && s.col == 0 { for range s.depth { s.write(s.Indent) } }] *)
Definition observeIndent {W : Type} `{Writer W} (s : state W) : state W :=
  if negb (Compact (fmtr s)) && (col s =? 0) then indent s else s.

(** [map[int]int{1: 2}] and [[]int{1, 2}] *)
Definition heap12 : Heap :=
  {| cells := ∅;
     arrays := {[ 1%N := [int 1; int 2] ]};
     maps := {[ 1%N := [(int 1, int 2)] ]} |}.
Definition map12 : value := VMap (builtin "map[int]int") 1%N.
Definition slice12 : value := VSlice (builtin "[]int") 1%N.

(** The state of a traversal that writes to a buffer, has written [buf] and
    stands at column [c]. *)
Definition bufferState (f : Formatter) (buf : string) (c d : Z) : state string :=
  {| fmtr := f; w := buf; seen := ∅; depth := d; col := c; err := None |}.

(** An interface value that wraps nil: valid, of kind Interface, and its
    [Elem()] is the zero Value. *)
Definition isNilInterface (v : value) : bool :=
  match v with
  | VInterface _ e => negb (IsValid e)
  | _ => false
  end.

(** The rendering of a pointer if the referent were printed one level
    deeper than the pointer, through [print]: the marker, then [deeper]
    around the referent.  [printSameDepth] is compared with it. *)
Definition pointerOneDeeper {W : Type} `{Writer W} `{Fmt} (h : Heap)
    (fuel : nat) (v : value) (s : state W) : result W :=
  cycleCheck v (fun s0 => print h fuel (Elem h v) (pr "&" s0)) s.

(** [[]*int{p}] with [*p = 5], and [&[]int{2, 3, 4}]. *)
Definition heapPtr : Heap :=
  {| cells := {[ 1%N := int 5; 3%N := VSlice (builtin "[]int") 4%N ]};
     arrays := {[ 2%N := [VPointer (builtin "*int") 1%N];
                  4%N := [int 2; int 3; int 4] ]};
     maps := ∅ |}.
Definition ptr5 : value := VPointer (builtin "*int") 1%N.
Definition slicePtr5 : value := VSlice (builtin "[]*int") 2%N.
Definition ptrSlice : value := VPointer (builtin "*[]int") 3%N.

(** ** Measures for termination *)

(** The nesting of a value that is stored in the value itself (not behind a
    heap address). *)
Fixpoint height (v : value) : nat :=
  match v with
  | VInterface _ e => S (height e)
  | VArray _ es => S (list_max (map height es))
  | VStruct _ fs => S (list_max (map (fun fv => height (snd fv)) fs))
  | _ => 0
  end.

(** The keys of the pointers stored in a value itself. *)
Fixpoint ptrKeys (v : value) : gset ident :=
  match v with
  | VPointer _ _ | VUnsafePointer _ _ => {[ key v ]}
  | VInterface _ e => ptrKeys e
  | VArray _ es => ⋃ (map ptrKeys es)
  | VStruct _ fs => ⋃ (map (fun fv => ptrKeys (snd fv)) fs)
  | _ => ∅
  end.

(** The values the traversal may step to from [v]. *)
Definition children (h : Heap) (v : value) : list value :=
  (Elem h v :: elems h v ++ (entries h v).*1 ++ (entries h v).*2 ++ (fields v).*2)%list.

(** Every value stored in the heap. *)
Definition heapValues (h : Heap) : list value :=
  ((map_to_list (cells h)).*2
   ++ mjoin (map_to_list (arrays h)).*2
   ++ (mjoin (map_to_list (maps h)).*2).*1
   ++ (mjoin (map_to_list (maps h)).*2).*2)%list.

Definition heapHeight (h : Heap) : nat := list_max (map height (heapValues h)).
Definition heapKeys (h : Heap) : gset ident := ⋃ (map ptrKeys (heapValues h)).

(** A value within the bounds [H] on heights and [K] on pointer keys. *)
Definition bounded (H : nat) (K : gset ident) (v : value) : Prop :=
  (height v <= H)%nat /\ ptrKeys v ⊆ K.

(** The levels left before the depth guard fires, and the pointer keys not
    yet on the path. *)
Definition levelsLeft {W : Type} (s : state W) : nat :=
  Z.to_nat (MaxDepth (fmtr s) - depth s).
Definition unseen {W : Type} (K : gset ident) (s : state W) : nat :=
  size (K ∖ seen s).

(** The fuel a call of [printSameDepth] on [v] in state [s] needs at most. *)
Definition potential {W : Type} (H : nat) (K : gset ident) (s : state W) (v : value) : nat :=
  ((H + 1) * (levelsLeft s + unseen K s) + height v)%nat.

(** Every map of the heap has keys that [compareValues] accepts in the
    order the sort compares them. *)
Definition sortable `{Fmt} (h : Heap) : Prop :=
  forall a kvs, maps h !! a = Some kvs ->
    is_Some (SortFunc (fun kv1 kv2 => compareValues (fst kv1) (fst kv2)) kvs).

Definition terminates {W : Type} (r : result W) : Prop :=
  match r with OutOfFuel _ => False | _ => True end.
Definition returns {W : Type} (r : result W) : Prop :=
  match r with Done _ => True | _ => False end.

(** The fuel that is enough for [Fprint] on [x]. *)
Definition enoughFuel (h : Heap) (f : Formatter) (x : value) : nat :=
  let H := Nat.max (height x) (heapHeight h) in
  let K := ptrKeys x ∪ heapKeys h in
  ((H + 1) * (Z.to_nat (MaxDepth (withDefaults f)) + size K) + height x + 1)%nat.

(** The values stored in [v] that [printSlice], [printMap] and [printStruct]
    hand to [s.print]. *)
Definition nested (h : Heap) (v : value) : list value :=
  (elems h v ++ (entries h v).*1 ++ (entries h v).*2 ++ (fields v).*2)%list.

(** [callable h v s e s']: the call of [printSameDepth] on [v] in state
    [s] may call [printSameDepth] on [e] in state [s'].  For the values
    stored in a container, [s'] is any state that is one level deeper than
    a state with the frame of [s]. *)
Inductive callable {W : Type} `{Writer W} (h : Heap) (v : value) (s : state W) :
    value -> state W -> Prop :=
| call_interface :
    KindOf v = Interface -> callable h v s (Elem h v) s
| call_pointer :
    KindOf v = Pointer -> key v ∉ seen s ->
    callable h v s (Elem h v) (pr "&" (set_seen (fun m => {[key v]} ∪ m) s))
| call_nested e s' :
    isPointerKind (KindOf v) = false -> e ∈ nested h v -> sameFrame s s' ->
    depth s' + 1 <= MaxDepth (fmtr s') ->
    callable h v s e (set_depth (depth s' + 1) s').

(** ** Writers that keep records *)

(** A writer together with the record of the calls made to it: the string
    of each call of [WriteString] and the error it returned. *)
Record Logged (W : Type) := { inner : W; calls : list (string * option error) }.
Arguments inner {W} _.
Arguments calls {W} _.

#[global] Instance LoggedWriter {W : Type} `{Writer W} : Writer (Logged W) :=
  fun lw str =>
    ({| inner := fst (WriteString (inner lw) str);
        calls := calls lw ++ [(str, snd (WriteString (inner lw) str))] |},
     snd (WriteString (inner lw) str)).

Definition succeeded (c : string * option error) : Prop := snd c = None.

(** At most one call failed, the last one, and [e] is its error. *)
Definition failedOnceAtEnd (e : option error) (cs : list (string * option error)) : Prop :=
  match e with
  | None => Forall succeeded cs
  | Some x => exists oks str, cs = (oks ++ [(str, Some x)])%list /\ Forall succeeded oks
  end.

(** The writer a list of calls leaves behind. *)
Definition replay {W : Type} `{Writer W} (w0 : W) (cs : list (string * option error)) : W :=
  foldl (fun w c => fst (WriteString w (fst c))) w0 cs.

(** What the traversal is seen to do at an entry of [printSameDepth]: the
    pointers whose referent the enclosing calls are rendering (the pointer
    values themselves, the innermost first), the visited set, and the value
    entered. *)
Record event := { onPath : list value; visited : gset ident; entered : value }.

(** A writer together with the observations of a monitored traversal, the
    latest first. *)
Record Monitored (W : Type) := { sink : W; trace : list event }.
Arguments sink {W} _.
Arguments trace {W} _.

#[global] Instance MonitoredWriter {W : Type} `{Writer W} : Writer (Monitored W) :=
  fun mw str =>
    ({| sink := fst (WriteString (sink mw) str); trace := trace mw |},
     snd (WriteString (sink mw) str)).

Definition observe {W : Type} (path : list value) (v : value)
    (s : state (Monitored W)) : state (Monitored W) :=
  {| fmtr := fmtr s;
     w := {| sink := sink (w s);
             trace := {| onPath := path; visited := seen s; entered := v |} :: trace (w s) |};
     seen := seen s; depth := depth s; col := col s; err := err s |}.

(** [printSameDepth] with a monitor: the same body, after the entry is
    observed; [path] lists the pointers whose referent the enclosing calls
    are rendering.  The monitor does not read the visited set to build the
    path: a pointer is put on the path when the call on it starts. *)
Fixpoint printSameDepthM {W : Type} `{Writer W} `{Fmt} (h : Heap) (fuel : nat)
    (path : list value) (v : value) (s : state (Monitored W)) {struct fuel}
    : result (Monitored W) :=
  match fuel with
  | O => OutOfFuel s
  | S fuel' =>
      printSameDepthBody h
        (printSameDepthM h fuel' (if isPointerKind (KindOf v) then v :: path else path))
        v (observe path v s)
  end.

Definition printM {W : Type} `{Writer W} `{Fmt} (h : Heap) (fuel : nat)
    (v : value) (s : state (Monitored W)) : result (Monitored W) :=
  deeper (printSameDepthM h fuel [] v) s.

(** An observation agrees with the path: the visited set holds exactly the
    keys of the pointers on the path, and the path holds pointers only, each
    once. *)
Definition onPathOnly (ev : event) : Prop :=
  visited ev = list_to_set (key <$> onPath ev) /\
  NoDup (onPath ev) /\
  Forall (fun p => isPointerKind (KindOf p) = true) (onPath ev).

(** The same of a state and the path that leads to it. *)
Definition pathPre {W : Type} (path : list value) (s : state W) : Prop :=
  seen s = list_to_set (key <$> path) /\ NoDup path /\
  Forall (fun p => isPointerKind (KindOf p) = true) path.

(** The value entered is a pointer whose referent an enclosing call is
    rendering. *)
Definition reentered (ev : event) : Prop :=
  isPointerKind (KindOf (entered ev)) = true /\ entered ev ∈ onPath ev.

(** The entry was reported as a cycle. *)
Definition reportedCycle (ev : event) : Prop :=
  IsValid (entered ev) = true /\ isPointerKind (KindOf (entered ev)) = true /\
  key (entered ev) ∈ visited ev.

(** ** Forgetting the records of a writer *)

Section Erase.
  Context {W1 W2 : Type}.
  Variable proj : W1 -> W2.

Definition erase (s : state W1) : state W2 :=
    {| fmtr := fmtr s; w := proj (w s); seen := seen s; depth := depth s;
       col := col s; err := err s |}.

Definition eraseR (r : result W1) : result W2 :=
    match r with
    | Done s => Done (erase s)
    | Panic s => Panic (erase s)
    | OutOfFuel s => OutOfFuel (erase s)
    end.

Definition eraseO (o : outcome W1) : outcome W2 :=
    match o with
    | Returned e w1 => Returned e (proj w1)
    | Panicked => Panicked
    | NoFuel => NoFuel
    end.
End Erase.

(** A sink with room for a number of bytes: a write that does not fit
    writes what fits and fails. *)
Record Limited := { room : nat; content : string }.

Definition shortWrite : error := "short write".

#[global] Instance LimitedWriter : Writer Limited :=
  fun lw str =>
    if (String.length str <=? room lw)%nat
    then ({| room := room lw - String.length str; content := content lw +:+ str |}, None)
    else ({| room := 0; content := content lw +:+ substring 0 (room lw) str |},
          Some shortWrite).

(** What the invariant of a logged traversal says of its state. *)
Definition sinkInv {W : Type} `{Writer W} (w0 : W) (s : state (Logged W)) : Prop :=
  failedOnceAtEnd (err s) (calls (w s)) /\ inner (w s) = replay w0 (calls (w s)).

(** ** The sink does not steer the traversal *)

(** Two states, over any two writers, that agree on the formatter, the
    depth and the visited set. *)
Definition sameControl {W1 W2 : Type} (s1 : state W1) (s2 : state W2) : Prop :=
  fmtr s1 = fmtr s2 /\ depth s1 = depth s2 /\ seen s1 = seen s2.

(** Two results that end the same way, in states that agree when both
    return. *)
Definition sameEnd {W1 W2 : Type} (r1 : result W1) (r2 : result W2) : Prop :=
  match r1, r2 with
  | Done s1, Done s2 => sameControl s1 s2
  | Panic _, Panic _ => True
  | OutOfFuel _, OutOfFuel _ => True
  | _, _ => False
  end.

(** [s := []any{nil, nil}; s[0] = &s; s[1] = &s]: two pointers back to the
    enclosing slice. *)
Definition heapTwoBack : Heap :=
  {| cells := {[ 2%N := sliceCycle ]};
     arrays := {[ 1%N := [any (VPointer (builtin "*[]interface {}") 2%N);
                          any (VPointer (builtin "*[]interface {}") 2%N)] ]};
     maps := ∅ |}.

(** [p := ptr(5); []*int{p, p}]: a pointer reached twice, not a cycle. *)
Definition heapShared : Heap :=
  {| cells := {[ 1%N := int 5 ]};
     arrays := {[ 2%N := [ptr5; ptr5] ]};
     maps := ∅ |}.
Definition sliceShared : value := VSlice (builtin "[]*int") 2%N.

(** [map[any]int{nil: 1, 2: 3}]: a key that is an interface wrapping nil. *)
Definition heapNilKey : Heap :=
  {| cells := ∅; arrays := ∅;
     maps := {[ 1%N := [(any Zero, int 1); (any (int 2), int 3)] ]} |}.
Definition mapNilKey : value := VMap (builtin "map[interface {}]int") 1%N.

(** The number of entries of a monitored traversal that were reported as a
    cycle. *)
Definition isCycleReport (ev : event) : bool :=
  IsValid (entered ev) && isPointerKind (KindOf (entered ev))
  && bool_decide (key (entered ev) ∈ visited ev).

Definition cycleReports {W : Type} (r : result (Monitored W)) : nat :=
  length (filter (fun ev => isCycleReport ev = true) (trace (w (stateOf r)))).

(** ** Plain output to a buffer *)

(** A state of a compact traversal with no width limit and no element cap,
    writing to a buffer that has not failed. *)
Definition plain (s : state string) : Prop :=
  Compact (fmtr s) = true /\ MaxWidth (fmtr s) <= 0 /\ MaxElements (fmtr s) <= 0 /\
  err s = None /\ 0 <= col s.

(** The state after [text], which holds no newline, is appended. *)
Definition emit (text : string) (s : state string) : state string :=
  {| fmtr := fmtr s; w := w s +:+ text; seen := seen s; depth := depth s;
     col := col s + len text; err := None |}.

(** What is printed for [s := []any{1, nil}; s[1] = s] when [k] levels are
    left before the depth guard fires. *)
Fixpoint selfRendering (k : nat) : string :=
  match k with
  | O => "[]{<maxdepth>, <maxdepth>}"
  | S k' => "[]{1, " +:+ selfRendering k' +:+ "}"
  end.

(** ** Counting placeholders in the output *)

(** The number of positions of [text] at which [pat] starts. *)
Fixpoint occurrences (pat text : string) : nat :=
  match text with
  | EmptyString => 0
  | String _ rest =>
      ((if String.prefix pat text then 1 else 0) + occurrences pat rest)%nat
  end.

(** ** The ordering as an order *)

(** [a] sorts before [b]; [a] and [b] sort together. *)
Definition less `{Fmt} (a b : value) : Prop :=
  exists z, compareValues a b = Some z /\ z < 0.
Definition equivalent `{Fmt} (a b : value) : Prop := compareValues a b = Some 0.

(** The types of [a] and [b], once unwrapped, are the same type whenever
    [String()] gives the same text for them.  [reflect.Type.String] does not
    promise it: the text holds the last element of the import path only. *)
Definition typeNamesDistinct (a b : value) : bool :=
  match TypeOf (unwrap a), TypeOf (unwrap b) with
  | Some ta, Some tb =>
      implb (String.eqb (String_of ta) (String_of tb)) (bool_decide (ta = tb))
  | _, _ => true
  end.

(** [type T int] declared in two packages named [x], with import paths
    [a/x] and [b/x]: both types print as [x.T]. *)
Definition ax_T : TypeName := {| pkgPath := "a/x"; typeString := "x.T" |}.
Definition bx_T : TypeName := {| pkgPath := "b/x"; typeString := "x.T" |}.
Definition ax1 : value := VInt ax_T I0 1.
Definition ax9 : value := VInt ax_T I0 9.
Definition bx5 : value := VInt bx_T I0 5.

(** One map, [map[any]int{ax.T(1): 0, ax.T(9): 0, bx.T(5): 0}], with its keys
    as [MapKeys] may return them on two calls. *)
Definition mapAnyInt : value := VMap (builtin "map[interface {}]int") 1%N.
Definition heapKeys951 : Heap :=
  {| cells := ∅; arrays := ∅;
     maps := {[ 1%N := [(any ax9, int 0); (any bx5, int 0); (any ax1, int 0)] ]} |}.
Definition heapKeys195 : Heap :=
  {| cells := ∅; arrays := ∅;
     maps := {[ 1%N := [(any ax1, int 0); (any ax9, int 0); (any bx5, int 0)] ]} |}.

(** ** Sorted keys *)

(** [a] does not sort after [b] under the three-way comparison [cmp]. *)
Definition notAfter {A : Type} (cmp : A -> A -> option Z) (a b : A) : Prop :=
  exists z, cmp a b = Some z /\ z <= 0.

(** The comparison [printMap] hands to [slices.SortFunc]. *)
Definition byKey `{Fmt} (kv1 kv2 : value * value) : option Z :=
  compareValues (fst kv1) (fst kv2).

(** The names of their types tell the keys of [kvs] apart, pairwise. *)
Definition namesTellApart (kvs : list (value * value)) : bool :=
  forallb (fun kv1 => forallb (fun kv2 => typeNamesDistinct (fst kv1) (fst kv2)) kvs) kvs.

(** Every key is a valid Value, as the keys [MapKeys] returns are. *)
Definition keysValid (kvs : list (value * value)) : bool :=
  forallb (fun kv => IsValid (fst kv)) kvs.

(** Some key is an interface that wraps nil. *)
Definition hasNilKey (kvs : list (value * value)) : bool :=
  existsb (fun kv => isNilInterface (fst kv)) kvs.

(** ** Columns *)

(** The column reached from column [c] once [text] is written, one column
    per byte, a newline leading back to column 0. *)
Fixpoint colAfter (c : Z) (text : string) : Z :=
  match text with
  | EmptyString => c
  | String x rest => colAfter (if Ascii.eqb x nl_byte then 0 else c + 1) rest
  end.

(** ** Struct fields *)

(** The field passes the three tests of [printStruct]: its name is not in the
    ignore list, it is exported, and it is not zero unless ShowZero is set. *)
Definition fieldShown (h : Heap) (ignore : list string) (showZero : bool)
    (fv : StructField * value) : bool :=
  negb (existsb (String.eqb (Name (fst fv))) ignore)
  && IsExported (fst fv)
  && (showZero || negb (IsZero h (snd fv))).

(** ** Type names *)

(** The byte [c] does not occur in [text]. *)
Definition absent (c : ascii) (text : string) : bool :=
  forallb (fun x => negb (Ascii.eqb x c)) (list_ascii_of_string text).

(** ** Configuring the ignored fields *)

Definition withIgnoreFields (m : gmap rtype (list string)) (f : Formatter) : Formatter :=
  {| ShowZero := ShowZero f; MaxWidth := MaxWidth f; Compact := Compact f; Indent := Indent f;
     MaxDepth := MaxDepth f; MaxElements := MaxElements f; OmitPackage := OmitPackage f;
     ignoreFields := m |}.

(** [Formatter.IgnoreFields]; [structval] is [reflect.ValueOf(structval)] and
    [elemOf] is [reflect.Type.Elem] on pointer types.  [None] is a panic: the
    explicit one on a type that is not a struct, and the one of
    [t.Kind()] when [reflect.TypeOf] returns nil. *)
Definition IgnoreFields (elemOf : rtype -> rtype) (f : Formatter) (structval : value)
    (names : list string) : option Formatter :=
  match TypeOf structval with
  | None => None
  | Some t0 =>
      let t := if bool_decide (rkind t0 = Pointer) then elemOf t0 else t0 in
      if bool_decide (rkind t <> Struct) then None
      else
        Some (withIgnoreFields
                (<[t := (default [] (ignoreFields f !! t) ++ names)%list]> (ignoreFields f)) f)
  end.

#[global] Instance IntKind_eq_dec : EqDecision IntKind.
Proof. solve_decision. Defined.

(** Every key of [kvs] is an integer of the type [tn] of kind [k], bare or
    held in an interface. *)
Definition intKeys (tn : TypeName) (k : IntKind) (kvs : list (value * value)) : bool :=
  forallb (fun kv => match unwrap (fst kv) with
                     | VInt tn' k' _ => bool_decide (tn' = tn /\ k' = k)
                     | _ => false
                     end) kvs.

(** The integer a key holds; 0 when it holds none. *)
Definition keyInt (kv : value * value) : Z := default 0 (Int_of (unwrap (fst kv))).

(** ** The order of the keys in memory *)

(** Two heaps that hold the same cells, the same slices and the same maps,
    the entries of a map possibly in another order: what two calls of
    [MapKeys] on one map may return. *)
Definition sameUpToKeyOrder (h1 h2 : Heap) : Prop :=
  cells h1 = cells h2 /\ arrays h1 = arrays h2 /\
  forall a, match maps h1 !! a, maps h2 !! a with
            | Some l1, Some l2 => l1 ≡ₚ l2
            | None, None => True
            | _, _ => False
            end.

(** Every map of the heap has at most 12 keys, all valid, whose types are
    told apart by their names and no two of which sort together. *)
Definition keysSeparated `{Fmt} (h : Heap) : Prop :=
  forall a kvs, maps h !! a = Some kvs ->
    (length kvs <= 12)%nat /\ keysValid kvs = true /\ namesTellApart kvs = true /\
    forall kv1 kv2, kv1 ∈ kvs -> kv2 ∈ kvs -> byKey kv1 kv2 = Some 0 -> kv1 = kv2.

(** The map of [heapMap] with its keys in the other order. *)
Definition heapMapAB : Heap :=
  {| cells := ∅; arrays := ∅;
     maps := {[ 1%N := [(str "a", int 1); (str "b", int 2)] ]} |}.

(** ** The indent unit *)

Definition withIndent (ind : string) (f : Formatter) : Formatter :=
  {| ShowZero := ShowZero f; MaxWidth := MaxWidth f; Compact := Compact f; Indent := ind;
     MaxDepth := MaxDepth f; MaxElements := MaxElements f; OmitPackage := OmitPackage f;
     ignoreFields := ignoreFields f |}.

(** The state of a traversal run with another indent unit. *)
Definition setIndent {W : Type} (ind : string) (s : state W) : state W :=
  {| fmtr := withIndent ind (fmtr s); w := w s; seen := seen s; depth := depth s;
     col := col s; err := err s |}.

Definition setIndentR {W : Type} (ind : string) (r : result W) : result W :=
  match r with
  | Done s => Done (setIndent ind s)
  | Panic s => Panic (setIndent ind s)
  | OutOfFuel s => OutOfFuel (setIndent ind s)
  end.

(** ** Compact renderings *)

(** [strings.Join(ts, sep)] *)
Fixpoint joinWith (sep : string) (ts : list string) : string :=
  match ts with
  | [] => EmptyString
  | [t] => t
  | t :: rest => t +:+ sep +:+ joinWith sep rest
  end.

(** A number, a boolean or a string: what the switch prints with one verb. *)
Definition isScalar (v : value) : bool :=
  match KindOf v with
  | Int | Int8 | Int16 | Int32 | Int64
  | Uint | Uint8 | Uint16 | Uint32 | Uint64 | Uintptr
  | Float32 | Float64 | Complex64 | Complex128 | Bool | String_ => true
  | _ => false
  end.

(** The text of a scalar: [%q] of a string, [%v] of the others. *)
Definition scalarText `{Fmt} (v : value) : string :=
  match KindOf v with String_ => fmt_q v | _ => fmt_v v end.

(** No nil interface among two keys or more: the keys are valid and, unless
    there is at most one, none is an interface that wraps nil. *)
Definition keysAccepted (kvs : list (value * value)) : bool :=
  keysValid kvs && ((length kvs <? 2)%nat || negb (hasNilKey kvs)).

(** The text of a map entry or of a struct field in compact mode. *)
Definition entryText `{Fmt} (kv : value * value) : string :=
  scalarText (fst kv) +:+ ": " +:+ scalarText (snd kv).

Definition fieldText `{Fmt} (fv : StructField * value) : string :=
  Name (fst fv) +:+ ": " +:+ scalarText (snd fv).

(** A scalar whose text holds no newline. *)
Definition oneLineScalar `{Fmt} (v : value) : bool :=
  isScalar v && (LastIndex (scalarText v) nl_byte <? 0).

(** [format.Player{Score: 11, secret: 3, Rank: 0, Level: 2}] *)
Definition player : value :=
  VStruct (builtin "format.Player")
    [ ({| Name := "Score"; IsExported := true |}, int 11);
      ({| Name := "secret"; IsExported := false |}, int 3);
      ({| Name := "Rank"; IsExported := true |}, int 0);
      ({| Name := "Level"; IsExported := true |}, int 2) ].

(** ** The expanded layout *)

(** The state after [text] is appended to the buffer; the column is counted
    from the last newline of [text]. *)
Definition put (text : string) (s : state string) : state string :=
  {| fmtr := fmtr s; w := w s +:+ text; seen := seen s; depth := depth s;
     col := colAfter (col s) text; err := None |}.

(** Expanded mode with no width limit and no element cap, no write having
    failed. *)
Definition expanded (s : state string) : Prop :=
  Compact (fmtr s) = false /\ MaxWidth (fmtr s) <= 0 /\ MaxElements (fmtr s) <= 0 /\
  err s = None /\ 0 <= col s.

(** [n] copies of the indent unit. *)
Definition indentation (n : nat) (unit : string) : string :=
  Nat.iter n (fun t => t +:+ unit) EmptyString.

Definition concatAll (ts : list string) : string := fold_right String.append EmptyString ts.

(** The indent unit [Fprint] uses: four spaces when the field is empty. *)
Definition indentUnit (f : Formatter) : string := Indent (withDefaults f).

(** The line of a slice element, a map entry and a struct field directly
    under the printed value. *)
Definition elementLine `{Fmt} (f : Formatter) (e : value) : string :=
  indentUnit f +:+ scalarText e +:+ "," +:+ nl.

Definition entryLine `{Fmt} (f : Formatter) (kv : value * value) : string :=
  indentUnit f +:+ entryText kv +:+ "," +:+ nl.

Definition fieldLine `{Fmt} (f : Formatter) (fv : StructField * value) : string :=
  indentUnit f +:+ fieldText fv +:+ nl.

(** ** Where [fmt.Sprint] returns *)

(** The values [v] holds with no pointer in between: what an interface
    wraps, the elements of an array or slice, the keys and values of a map,
    the fields of a struct.  A pointer holds none. *)
Definition contained (h : Heap) (v : value) : list value :=
  match v with
  | VInterface _ e => [e]
  | _ => nested h v
  end.

(** Unfolding [v] without following a pointer ends within [k] levels. *)
Fixpoint finiteWithoutPointers (h : Heap) (k : nat) (v : value) : bool :=
  match k with
  | O => false
  | S k' => forallb (finiteWithoutPointers h k') (contained h v)
  end.

(** What [fmt.Sprint] of a key unfolds: the referent of a key that is a
    pointer, the key itself otherwise. *)
Definition sprintOperand (h : Heap) (v : value) : value :=
  match v with
  | VPointer _ _ => Elem h v
  | _ => v
  end.

(** No key of a map makes [fmt.Sprint] unfold without end: every key, after
    the interface around it is removed as [compareValues] does, is finite
    where no pointer is followed below the key. *)
Definition keysPrintable (h : Heap) : Prop :=
  forall a kvs, maps h !! a = Some kvs ->
    exists k,
      forallb (fun kv => finiteWithoutPointers h k (sprintOperand h (unwrap (fst kv)))) kvs
        = true.

(** [x] and the values on the heap contain themselves through pointers
    only: without following a pointer each of them unfolds to a finite
    tree. *)
Definition pointerCyclesOnly (h : Heap) (x : value) : Prop :=
  exists k,
    finiteWithoutPointers h k x && forallb (finiteWithoutPointers h k) (heapValues h) = true.

(** [s := []any{nil}; s[0] = s], [t] likewise, and
    [map[*[]any]int{&s: 1, &t: 2}]: keys whose referent contains itself
    without a pointer. *)
Definition heapSelfKeys : Heap :=
  {| cells := {[ 3%N := VSlice (builtin "[]interface {}") 1%N;
                 4%N := VSlice (builtin "[]interface {}") 2%N ]};
     arrays := {[ 1%N := [any (VSlice (builtin "[]interface {}") 1%N)];
                  2%N := [any (VSlice (builtin "[]interface {}") 2%N)] ]};
     maps := {[ 5%N := [(VPointer (builtin "*[]interface {}") 3%N, int 1);
                        (VPointer (builtin "*[]interface {}") 4%N, int 2)] ]} |}.

(** [p := ptr(5); pp := &p; []any{pp, p}]: a pointer reached below another
    pointer, and once more beside it. *)
Definition heapNestedShared : Heap :=
  {| cells := {[ 1%N := int 5; 3%N := ptr5 ]};
     arrays := {[ 2%N := [any (VPointer (builtin "**int") 3%N); any ptr5] ]};
     maps := ∅ |}.
Definition sliceNestedShared : value := VSlice (builtin "[]interface {}") 2%N.

(** ** Counting the placeholders written *)

(** The calls of [WriteString] whose string is the placeholder. *)
Definition placeholderWrites (cs : list (string * option error)) : nat :=
  length (List.filter (fun c => String.eqb (fst c) "<cycle>") cs).

(** The field names stored in a value itself. *)
Fixpoint namesOf (v : value) : list string :=
  match v with
  | VInterface _ e => namesOf e
  | VArray _ es => concat (map namesOf es)
  | VStruct _ fs => concat (map (fun fv => Name (fst fv) :: namesOf (snd fv)) fs)
  | _ => []
  end.

(** No field name of [v] is the text [t]. *)
Definition namesAvoid (t : string) (v : value) : bool :=
  forallb (fun n => negb (String.eqb n t)) (namesOf v).

(** No scalar is printed as the text [t]: [%v] of a value that is not a
    string, and [%q] of a string. *)
Definition textsAvoid `{Fmt} (t : string) : Prop :=
  (forall v, KindOf v <> String_ -> fmt_v v <> t) /\ (forall v, fmt_q v <> t).

(** A traversal that writes to a buffer, with the record of the calls made
    to the buffer and the monitor: no write has failed, the buffer holds the
    strings of the calls one after the other, and the entries reported as a
    cycle are the placeholders written and [k] more. *)
Definition talliedBy (k : nat) (s : state (Monitored (Logged string))) : Prop :=
  err s = None /\
  Indent (fmtr s) <> "<cycle>" /\
  inner (sink (w s)) = concatAll (map fst (calls (sink (w s)))) /\
  (placeholderWrites (calls (sink (w s))) + k)%nat
    = length (filter (fun ev => isCycleReport ev = true) (trace (w s))).

(** The placeholder was written as many times as an entry was reported. *)
Definition tallied (s : state (Monitored (Logged string))) : Prop := talliedBy 0 s.

(** * Properties *)

(** ** The layout engine leaves the formatter, the depth and the visited set alone *)

Section LayoutFacts.
  Context {W : Type} `{Writer W}.
  Implicit Types (s : state W) (str : string).

Lemma sameFrame_refl s : sameFrame s s.
  Proof. by repeat split. Qed.

Lemma sameFrame_trans s1 s2 s3 : sameFrame s1 s2 -> sameFrame s2 s3 -> sameFrame s1 s3.
  Proof. unfold sameFrame. intros (-> & -> & ->) (-> & -> & ->). done. Qed.

Lemma write_frame str s : sameFrame s (write str s).
  Proof.
    unfold write, sameFrame. destruct (err s); [done|].
    by destruct (WriteString (w s) str).
  Qed.

Lemma checkWidth_frame str s : sameFrame s (checkWidth str s).
  Proof.
    unfold checkWidth. case_match; [apply write_frame | apply sameFrame_refl].
  Qed.

Lemma iter_write_frame n str s : sameFrame s (Nat.iter n (write str) s).
  Proof.
    induction n as [|n IH]; simpl; [apply sameFrame_refl|].
    eapply sameFrame_trans; [exact IH | apply write_frame].
  Qed.

Lemma indent_frame s : sameFrame s (indent s).
  Proof. apply iter_write_frame. Qed.

Lemma pr_frame str s : sameFrame s (pr str s).
  Proof.
    unfold pr. destruct (err s); [apply sameFrame_refl|].
    eapply sameFrame_trans; [apply (checkWidth_frame str)|].
    case_match.
    - eapply sameFrame_trans; [apply indent_frame | apply write_frame].
    - apply write_frame.
  Qed.

Lemma after_frame str s : sameFrame s (after str s).
  Proof.
    unfold after.
    assert (sameFrame s (checkWidth EmptyString (write str s))) as Hs.
    { eapply sameFrame_trans; [apply write_frame | apply checkWidth_frame]. }
    repeat case_match; try done; (eapply sameFrame_trans; [exact Hs | apply write_frame]).
  Qed.

Lemma between_frame str s : sameFrame s (between str s).
  Proof.
    unfold between.
    assert (sameFrame s (checkWidth EmptyString (write str s))) as Hs.
    { eapply sameFrame_trans; [apply write_frame | apply checkWidth_frame]. }
    case_match; try done. eapply sameFrame_trans; [exact Hs | apply write_frame].
  Qed.
Lemma fmtr_pr str s : fmtr (pr str s) = fmtr s.
  Proof. apply pr_frame. Qed.
Lemma depth_pr str s : depth (pr str s) = depth s.
  Proof. apply pr_frame. Qed.
Lemma seen_pr str s : seen (pr str s) = seen s.
  Proof. apply pr_frame. Qed.
Lemma fmtr_after str s : fmtr (after str s) = fmtr s.
  Proof. apply after_frame. Qed.
Lemma fmtr_between str s : fmtr (between str s) = fmtr s.
  Proof. apply between_frame. Qed.
Lemma fmtr_write str s : fmtr (write str s) = fmtr s.
  Proof. apply write_frame. Qed.
End LayoutFacts.

(** ** Invariants of the state

    A property of the state that every [write] keeps, and that does not
    depend on the depth or on the visited set, holds at the end of every
    layout function and of every traversal, however it ends. *)

Section Invariant.
  Context {W : Type} `{Writer W} `{Fmt}.
  Variable h : Heap.
  Variable P : state W -> Prop.
  Hypothesis P_write : forall str s, P s -> P (write str s).
  Hypothesis P_depth : forall d s, P s -> P (set_depth d s).
  Hypothesis P_seen : forall f s, P s -> P (set_seen f s).
  Implicit Types (s : state W) (str : string).

Lemma checkWidth_inv str s : P s -> P (checkWidth str s).
  Proof. unfold checkWidth. case_match; auto. Qed.

Lemma indent_inv s : P s -> P (indent s).
  Proof.
    unfold indent. generalize (Indent (fmtr s)). intros ind Hs.
    induction (Z.to_nat (depth s)) as [|n IH]; simpl; auto.
  Qed.

Lemma pr_inv str s : P s -> P (pr str s).
  Proof.
    unfold pr. intros Hs. destruct (err s); [done|].
    apply P_write. case_match; [apply indent_inv|]; by apply checkWidth_inv.
  Qed.

Lemma after_inv str s : P s -> P (after str s).
  Proof.
    unfold after. intros Hs.
    assert (P (checkWidth EmptyString (write str s))) by (apply checkWidth_inv; auto).
    repeat case_match; auto.
  Qed.

Lemma between_inv str s : P s -> P (between str s).
  Proof.
    unfold between. intros Hs.
    assert (P (checkWidth EmptyString (write str s))) by (apply checkWidth_inv; auto).
    repeat case_match; auto.
  Qed.

Lemma andThen_inv (r : result W) k :
    P (stateOf r) -> (forall s, P s -> P (stateOf (k s))) -> P (stateOf (andThen r k)).
  Proof. destruct r; simpl; auto. Qed.

Lemma deferred_inv (r : result W) g :
    P (stateOf r) -> (forall s, P s -> P (g s)) -> P (stateOf (deferred r g)).
  Proof. destruct r; simpl; auto. Qed.

Lemma deeper_inv f s :
    (forall s', P s' -> P (stateOf (f s'))) -> P s -> P (stateOf (deeper f s)).
  Proof.
    intros Hf Hs. unfold deeper. case_match; simpl.
    - apply P_depth, pr_inv, P_depth, Hs.
    - apply deferred_inv; [apply Hf, P_depth, Hs|]. intros s' Hs'. by apply P_depth.
  Qed.

Lemma sliceEllipsis_inv s : P s -> P (sliceEllipsis s).
  Proof.
    unfold sliceEllipsis. intros Hs. case_match; [by apply pr_inv|].
    by apply P_depth, pr_inv, P_depth.
  Qed.

  Section LoopInv.
    Variable print : value -> state W -> result W.
    Hypothesis print_inv : forall e s, P s -> P (stateOf (print e s)).

Lemma sliceLoop_inv n i es s : P s -> P (stateOf (sliceLoop print n i es s)).
    Proof.
      revert i s. induction es as [|e es IH]; intros i s Hs; simpl; [done|].
      case_match; simpl; [by apply sliceEllipsis_inv|].
      apply andThen_inv; [by apply print_inv|]. intros s1 Hs1.
      apply IH. case_match; [by apply after_inv | done].
    Qed.

Lemma printSlice_inv v s : P s -> P (stateOf (printSlice h print v s)).
    Proof.
      intros Hs. unfold printSlice, sliceOpen. apply andThen_inv.
      - apply sliceLoop_inv. case_match; [apply pr_inv|]; case_match; by apply pr_inv.
      - intros s3 Hs3. simpl. by apply pr_inv.
    Qed.

Lemma mapLoop_inv n i kvs s : P s -> P (stateOf (mapLoop print n i kvs s)).
    Proof.
      revert i s. induction kvs as [|[k x] kvs IH]; intros i s Hs; simpl; [done|].
      case_match; simpl; [by apply pr_inv|].
      apply andThen_inv; [by apply print_inv|]. intros s1 Hs1.
      apply andThen_inv; [by apply print_inv, between_inv|]. intros s2 Hs2.
      apply IH. case_match; [by apply after_inv | done].
    Qed.

Lemma printMap_inv v s : P s -> P (stateOf (printMap h print v s)).
    Proof.
      intros Hs. unfold printMap, mapOpen. case_match; [|done]. apply andThen_inv.
      - apply mapLoop_inv. case_match; [apply pr_inv|]; by apply pr_inv.
      - intros s3 Hs3. simpl. by apply pr_inv.
    Qed.

Lemma structLoop_inv ign first fs s :
      P s -> P (stateOf (structLoop h print ign first fs s)).
    Proof.
      revert first s. induction fs as [|[sf x] fs IH]; intros first s Hs; simpl; [done|].
      repeat case_match; try by apply IH.
      - apply andThen_inv.
        + apply deeper_inv; [|by apply pr_inv]. intros s' Hs'. simpl. by apply pr_inv.
        + intros s2 Hs2. apply andThen_inv; [by apply print_inv, between_inv|].
          intros s3 Hs3. apply IH. case_match; [by apply pr_inv | done].
      - apply andThen_inv.
        + apply deeper_inv; [|done]. intros s' Hs'. simpl. by apply pr_inv.
        + intros s2 Hs2. apply andThen_inv; [by apply print_inv, between_inv|].
          intros s3 Hs3. apply IH. case_match; [by apply pr_inv | done].
    Qed.

Lemma printStruct_inv v s : P s -> P (stateOf (printStruct h print v s)).
    Proof.
      intros Hs. unfold printStruct. case_match; [|done]. apply andThen_inv.
      - apply structLoop_inv. case_match; [apply pr_inv|]; by apply pr_inv.
      - intros s3 Hs3. simpl. by apply pr_inv.
    Qed.
  End LoopInv.

Lemma switch_inv self v s :
    (forall e s', P s' -> P (stateOf (self e s'))) ->
    P s -> P (stateOf (switch h self v s)).
  Proof.
    intros Hself Hs.
    assert (forall e s', P s' -> P (stateOf (deeper (self e) s'))) as Hprint.
    { intros e s' Hs'. apply deeper_inv; auto. }
    unfold switch. destruct (KindOf v); simpl;
      try (by apply pr_inv); try (by apply Hself); try (by apply Hself, pr_inv).
    - by apply printSlice_inv.
    - case_match; simpl; [by apply pr_inv | done].
    - case_match; simpl; [by apply pr_inv | done].
    - by apply printMap_inv.
    - by apply printSlice_inv.
    - by apply printStruct_inv.
  Qed.

Lemma cycleCheck_inv v body s :
    (forall s', P s' -> P (stateOf (body s'))) ->
    P s -> P (stateOf (cycleCheck v body s)).
  Proof.
    intros Hbody Hs. unfold cycleCheck. repeat case_match; simpl; auto.
    - by apply pr_inv.
    - apply deferred_inv; [by apply Hbody, P_seen|]. intros s' Hs'. by apply P_seen.
  Qed.

Lemma printSameDepth_inv fuel v s : P s -> P (stateOf (printSameDepth h fuel v s)).
  Proof.
    revert v s. induction fuel as [|fuel IH]; intros v s Hs; simpl; [done|].
    unfold printSameDepthBody. case_match; simpl; [by apply pr_inv|].
    apply cycleCheck_inv; [|done]. intros s' Hs'. by apply switch_inv.
  Qed.

Lemma print_inv fuel v s : P s -> P (stateOf (print h fuel v s)).
  Proof. intros Hs. apply deeper_inv; [|done]. intros. by apply printSameDepth_inv. Qed.
End Invariant.

(** ** Every call that returns leaves the formatter, the depth and the
    visited set as it found them *)

Section Frame.
  Context {W : Type} `{Writer W} `{Fmt}.
  Variable h : Heap.
  Implicit Types (s : state W) (str : string).

Lemma set_depth_frame d s : fmtr (set_depth d s) = fmtr s /\ seen (set_depth d s) = seen s.
  Proof. done. Qed.

Lemma deeper_framed f : framed f -> framed (deeper f).
  Proof.
    intros Hf s s'. unfold deeper. case_match; simpl.
    - intros [= <-].
      destruct (pr_frame "<maxdepth>" (set_depth (depth s + 1) s)) as (Hf1 & Hd & Hs).
      repeat split; simpl; [done | rewrite Hd; simpl; lia | done].
    - destruct (f (set_depth (depth s + 1) s)) as [s2| |] eqn:E; simpl; try done.
      intros [= <-]. apply Hf in E as (Hf1 & Hd & Hs).
      repeat split; simpl; [done | rewrite Hd; simpl; lia | done].
  Qed.

Lemma sliceOpen_frame v s : sameFrame s (sliceOpen h v s).
  Proof.
    unfold sliceOpen.
    eapply sameFrame_trans; [|case_match; [apply pr_frame | apply sameFrame_refl]].
    case_match; apply pr_frame.
  Qed.

Lemma mapOpen_frame s : sameFrame s (mapOpen s).
  Proof.
    unfold mapOpen.
    eapply sameFrame_trans; [|case_match; [apply pr_frame | apply sameFrame_refl]].
    apply pr_frame.
  Qed.

Lemma sliceEllipsis_frame s : sameFrame s (sliceEllipsis s).
  Proof.
    unfold sliceEllipsis. case_match; [apply pr_frame|].
    destruct (pr_frame ("..." +:+ nl) (set_depth (depth s + 1) s)) as (Hf1 & Hd & Hs).
    repeat split; simpl; [done | rewrite Hd; simpl; lia | done].
  Qed.

  Section LoopFrame.
    Variable print : value -> state W -> result W.
    Hypothesis print_framed : forall e, framed (print e).

Lemma sliceLoop_framed n i es : framed (sliceLoop print n i es).
    Proof.
      revert i. induction es as [|e es IH]; intros i s s'; simpl.
      { intros [= <-]. apply sameFrame_refl. }
      case_match; [intros [= <-]; apply sliceEllipsis_frame|].
      destruct (print e s) as [s1| |] eqn:E; simpl; try done.
      intros Hl. apply IH in Hl. apply print_framed in E.
      eapply sameFrame_trans; [exact E|]. eapply sameFrame_trans; [|exact Hl].
      case_match; [apply after_frame | apply sameFrame_refl].
    Qed.

Lemma printSlice_framed v : framed (printSlice h print v).
    Proof.
      intros s s'. unfold printSlice.
      pose proof (sliceOpen_frame v s) as Hs2.
      destruct (sliceLoop print (Len h v) 0 (elems h v) (sliceOpen h v s))
        as [s3| |] eqn:E; simpl; try done.
      intros [= <-]. apply sliceLoop_framed in E.
      eapply sameFrame_trans; [exact Hs2|]. eapply sameFrame_trans; [exact E | apply pr_frame].
    Qed.

Lemma mapLoop_framed n i kvs : framed (mapLoop print n i kvs).
    Proof.
      revert i. induction kvs as [|[k x] kvs IH]; intros i s s'; simpl.
      { intros [= <-]. apply sameFrame_refl. }
      case_match; [intros [= <-]; apply pr_frame|].
      destruct (print k s) as [s1| |] eqn:E1; simpl; try done.
      destruct (print x (between ":" s1)) as [s2| |] eqn:E2; simpl; try done.
      intros Hl. apply IH in Hl. apply print_framed in E1, E2.
      eapply sameFrame_trans; [exact E1|].
      eapply sameFrame_trans; [apply (between_frame ":")|].
      eapply sameFrame_trans; [exact E2|]. eapply sameFrame_trans; [|exact Hl].
      case_match; [apply after_frame | apply sameFrame_refl].
    Qed.

Lemma printMap_framed v : framed (printMap h print v).
    Proof.
      intros s s'. unfold printMap. case_match; [|done].
      pose proof (mapOpen_frame s) as Hs2.
      match goal with |- andThen (mapLoop _ ?n _ ?l _) _ = _ -> _ =>
        destruct (mapLoop print n 0 l (mapOpen s)) as [s3| |] eqn:E; simpl; try done end.
      intros [= <-]. apply mapLoop_framed in E.
      eapply sameFrame_trans; [exact Hs2|]. eapply sameFrame_trans; [exact E | apply pr_frame].
    Qed.

Lemma fieldName_framed str : framed (deeper (fun s' => Done (pr str s'))).
    Proof. apply deeper_framed. intros s s' [= <-]. apply pr_frame. Qed.

Lemma structLoop_framed ign first fs : framed (structLoop h print ign first fs).
    Proof.
      revert first. induction fs as [|[sf x] fs IH]; intros first s s'; simpl.
      { intros [= <-]. apply sameFrame_refl. }
      repeat (case_match; [apply IH|]).
      match goal with |- andThen (deeper _ ?s1) _ = _ -> _ =>
        assert (sameFrame s s1) as Hs1;
        [|destruct (deeper (fun s' => Done (pr (Name sf) s')) s1) as [s2| |] eqn:E1;
          simpl; try done] end.
      { case_match; [apply pr_frame | apply sameFrame_refl]. }
      destruct (print x (between ":" s2)) as [s3| |] eqn:E2; simpl; try done.
      intros Hl. apply IH in Hl. apply fieldName_framed in E1. apply print_framed in E2.
      eapply sameFrame_trans; [exact Hs1|]. eapply sameFrame_trans; [exact E1|].
      eapply sameFrame_trans; [apply (between_frame ":")|].
      eapply sameFrame_trans; [exact E2|]. eapply sameFrame_trans; [|exact Hl].
      case_match; [apply pr_frame | apply sameFrame_refl].
    Qed.

Lemma printStruct_framed v : framed (printStruct h print v).
    Proof.
      intros s s'. unfold printStruct. case_match; [|done].
      match goal with |- andThen (structLoop _ _ ?ig _ ?l ?s2) _ = _ -> _ =>
        assert (sameFrame s s2) as Hs2; [|destruct (structLoop h print ig true l s2)
                                           as [s3| |] eqn:E; simpl; try done] end.
      { eapply sameFrame_trans; [|case_match; [apply pr_frame | apply sameFrame_refl]].
        apply pr_frame. }
      intros [= <-]. apply structLoop_framed in E.
      eapply sameFrame_trans; [exact Hs2|]. eapply sameFrame_trans; [exact E | apply pr_frame].
    Qed.
  End LoopFrame.

Lemma switch_framed self v : (forall e, framed (self e)) -> framed (switch h self v).
  Proof.
    intros Hself s s'.
    assert (forall e, framed (fun s0 => deeper (self e) s0)) as Hprint.
    { intros e. by apply deeper_framed. }
    unfold switch. destruct (KindOf v); simpl;
      try (intros [= <-]; apply pr_frame); try (by apply Hself).
    - by apply printSlice_framed.
    - case_match; [|done]. intros [= <-]; apply pr_frame.
    - case_match; [|done]. intros [= <-]; apply pr_frame.
    - by apply printMap_framed.
    - intros E. apply Hself in E. eapply sameFrame_trans; [apply (pr_frame "&")|exact E].
    - by apply printSlice_framed.
    - by apply printStruct_framed.
  Qed.

Lemma seen_restore (k : ident) (S : gset ident) : k ∉ S -> ({[k]} ∪ S) ∖ {[k]} = S.
  Proof.
    intros Hk. apply set_eq. intros x.
    rewrite elem_of_difference, elem_of_union, elem_of_singleton. split.
    - intros [[->|Hx] Hne]; done.
    - intros Hx. split; [by right|]. by intros ->.
  Qed.

Lemma cycleCheck_framed v body : framed body -> framed (cycleCheck v body).
  Proof.
    intros Hbody s s'. unfold cycleCheck. case_match; [|by apply Hbody].
    case_bool_decide as Hin; [intros [= <-]; apply pr_frame|].
    destruct (body _) as [s1| |] eqn:E; simpl; try done.
    intros [= <-]. apply Hbody in E as (Hf1 & Hd & Hs). simpl in *.
    repeat split; simpl; [done | done |]. rewrite Hs. by apply seen_restore.
  Qed.

Lemma printSameDepth_framed fuel v : framed (printSameDepth h fuel v).
  Proof.
    revert v. induction fuel as [|fuel IH]; intros v s s'; simpl; [done|].
    unfold printSameDepthBody. case_match; [intros [= <-]; apply pr_frame|].
    apply cycleCheck_framed. by apply switch_framed.
  Qed.

Lemma print_framed fuel v : framed (print h fuel v).
  Proof. apply deeper_framed, printSameDepth_framed. Qed.
End Frame.

(** ** Every call that panics has run its deferred functions *)

Section Unwind.
  Context {W : Type} `{Writer W} `{Fmt}.
  Variable h : Heap.
  Implicit Types (s : state W) (str : string).

Lemma deeper_unwound f : unwound f -> unwound (deeper f).
  Proof.
    intros Hf s s'. unfold deeper. case_match; simpl; [done|].
    destruct (f (set_depth (depth s + 1) s)) as [s2|s2|] eqn:E; simpl; try done.
    intros [= <-]. apply Hf in E as (Hf1 & Hd & Hs).
    repeat split; simpl; [done | rewrite Hd; simpl; lia | done].
  Qed.

  Section LoopUnwind.
    Variable print : value -> state W -> result W.
    Hypothesis print_framed : forall e, framed (print e).
    Hypothesis print_unwound : forall e, unwound (print e).

Lemma sliceLoop_unwound n i es : unwound (sliceLoop print n i es).
    Proof.
      revert i. induction es as [|e es IH]; intros i s s'; simpl; [done|].
      case_match; [done|].
      destruct (print e s) as [s1|s1|] eqn:E; simpl; try done.
      - intros Hl. apply IH in Hl. apply print_framed in E.
        eapply sameFrame_trans; [exact E|]. eapply sameFrame_trans; [|exact Hl].
        case_match; [apply after_frame | apply sameFrame_refl].
      - intros [= <-]. by apply print_unwound in E.
    Qed.

Lemma printSlice_unwound v : unwound (printSlice h print v).
    Proof.
      intros s s'. unfold printSlice.
      pose proof (sliceOpen_frame h v s) as Hs2.
      destruct (sliceLoop print (Len h v) 0 (elems h v) (sliceOpen h v s))
        as [s3|s3|] eqn:E; simpl; try done.
      intros [= <-]. apply sliceLoop_unwound in E.
      eapply sameFrame_trans; [exact Hs2 | exact E].
    Qed.

Lemma mapLoop_unwound n i kvs : unwound (mapLoop print n i kvs).
    Proof.
      revert i. induction kvs as [|[k x] kvs IH]; intros i s s'; simpl; [done|].
      case_match; [done|].
      destruct (print k s) as [s1|s1|] eqn:E1; simpl; try done.
      2:{ intros [= <-]. by apply print_unwound in E1. }
      apply print_framed in E1.
      destruct (print x (between ":" s1)) as [s2|s2|] eqn:E2; simpl; try done.
      - intros Hl. apply IH in Hl. apply print_framed in E2.
        eapply sameFrame_trans; [exact E1|].
        eapply sameFrame_trans; [apply (between_frame ":")|].
        eapply sameFrame_trans; [exact E2|]. eapply sameFrame_trans; [|exact Hl].
        case_match; [apply after_frame | apply sameFrame_refl].
      - intros [= <-]. apply print_unwound in E2.
        eapply sameFrame_trans; [exact E1|].
        eapply sameFrame_trans; [apply (between_frame ":") | exact E2].
    Qed.

Lemma printMap_unwound v : unwound (printMap h print v).
    Proof.
      intros s s'. unfold printMap. case_match; [|intros [= <-]; apply sameFrame_refl].
      pose proof (mapOpen_frame s) as Hs2.
      match goal with |- andThen (mapLoop _ ?n _ ?l _) _ = _ -> _ =>
        destruct (mapLoop print n 0 l (mapOpen s)) as [s3|s3|] eqn:E; simpl; try done end.
      intros [= <-]. apply mapLoop_unwound in E.
      eapply sameFrame_trans; [exact Hs2 | exact E].
    Qed.

Lemma structLoop_unwound ign first fs : unwound (structLoop h print ign first fs).
    Proof.
      revert first. induction fs as [|[sf x] fs IH]; intros first s s'; simpl; [done|].
      repeat (case_match; [apply IH|]).
      match goal with |- andThen (deeper _ ?s1) _ = _ -> _ =>
        assert (sameFrame s s1) as Hs1;
        [|destruct (deeper (fun s' => Done (pr (Name sf) s')) s1) as [s2|s2|] eqn:E1;
          simpl; try done] end.
      { case_match; [apply pr_frame | apply sameFrame_refl]. }
      2:{ intros [= <-]. apply deeper_unwound in E1; [|done].
          eapply sameFrame_trans; [exact Hs1 | exact E1]. }
      apply fieldName_framed in E1.
      destruct (print x (between ":" s2)) as [s3|s3|] eqn:E2; simpl; try done.
      - intros Hl. apply IH in Hl. apply print_framed in E2.
        eapply sameFrame_trans; [exact Hs1|]. eapply sameFrame_trans; [exact E1|].
        eapply sameFrame_trans; [apply (between_frame ":")|].
        eapply sameFrame_trans; [exact E2|]. eapply sameFrame_trans; [|exact Hl].
        case_match; [apply pr_frame | apply sameFrame_refl].
      - intros [= <-]. apply print_unwound in E2.
        eapply sameFrame_trans; [exact Hs1|]. eapply sameFrame_trans; [exact E1|].
        eapply sameFrame_trans; [apply (between_frame ":") | exact E2].
    Qed.

Lemma printStruct_unwound v : unwound (printStruct h print v).
    Proof.
      intros s s'. unfold printStruct. case_match; [|intros [= <-]; apply sameFrame_refl].
      match goal with |- andThen (structLoop _ _ ?ig _ ?l ?s2) _ = _ -> _ =>
        assert (sameFrame s s2) as Hs2; [|destruct (structLoop h print ig true l s2)
                                           as [s3|s3|] eqn:E; simpl; try done] end.
      { eapply sameFrame_trans; [|case_match; [apply pr_frame | apply sameFrame_refl]].
        apply pr_frame. }
      intros [= <-]. apply structLoop_unwound in E.
      eapply sameFrame_trans; [exact Hs2 | exact E].
    Qed.
  End LoopUnwind.

Lemma switch_unwound self v :
    (forall e, framed (self e)) -> (forall e, unwound (self e)) -> unwound (switch h self v).
  Proof.
    intros Hfr Hself s s'.
    assert (forall e, framed (fun s0 => deeper (self e) s0)) as Hprint.
    { intros e. by apply deeper_framed. }
    assert (forall e, unwound (fun s0 => deeper (self e) s0)) as Hprint'.
    { intros e. by apply deeper_unwound. }
    unfold switch. destruct (KindOf v); simpl; try done; try (by apply Hself).
    - by apply printSlice_unwound.
    - case_match; [done|]. intros [= <-]; apply sameFrame_refl.
    - case_match; [done|]. intros [= <-]; apply sameFrame_refl.
    - by apply printMap_unwound.
    - intros E. apply Hself in E. eapply sameFrame_trans; [apply (pr_frame "&")|exact E].
    - by apply printSlice_unwound.
    - by apply printStruct_unwound.
  Qed.

Lemma cycleCheck_unwound v body : unwound body -> unwound (cycleCheck v body).
  Proof.
    intros Hbody s s'. unfold cycleCheck. case_match; [|by apply Hbody].
    case_bool_decide as Hin; [done|].
    destruct (body _) as [s1|s1|] eqn:E; simpl; try done.
    intros [= <-]. apply Hbody in E as (Hf1 & Hd & Hs). simpl in *.
    repeat split; simpl; [done | done |]. rewrite Hs. by apply seen_restore.
  Qed.

Lemma printSameDepth_unwound fuel v : unwound (printSameDepth h fuel v).
  Proof.
    revert v. induction fuel as [|fuel IH]; intros v s s'; simpl; [done|].
    unfold printSameDepthBody. case_match; [done|].
    apply cycleCheck_unwound. apply switch_unwound; [|done].
    intros e. apply printSameDepth_framed.
  Qed.

Lemma print_unwound fuel v : unwound (print h fuel v).
  Proof. apply deeper_unwound, printSameDepth_unwound. Qed.
End Unwind.

(** ** The layout engine: separators and the width limit *)

Section Width.
  Context {W : Type} `{Writer W}.
  Implicit Types (s : state W) (str : string).

Lemma write_failed str s e : err s = Some e -> write str s = s.
  Proof. unfold write. by intros ->. Qed.

Lemma checkWidth_failed str s e : err s = Some e -> checkWidth str s = s.
  Proof. intros E. unfold checkWidth. case_match; [by apply (write_failed _ _ e) | done]. Qed.

Lemma write_col str s :
    err s = None ->
    col (write str s) =
      if 0 <=? LastIndex str nl_byte then len str - LastIndex str nl_byte - 1
      else col s + len str.
  Proof. unfold write. intros ->. by destruct (WriteString (w s) str). Qed.

Lemma write_nl_col s : err s = None -> col (write nl s) = 0.
  Proof. intros E. by rewrite write_col. Qed.

Lemma len_nonneg str : 0 <= len str.
  Proof. unfold len. lia. Qed.

Lemma checkWidth_off str s : MaxWidth (fmtr s) <= 0 -> checkWidth str s = s.
  Proof.
    unfold checkWidth. intros Hw.
    destruct (0 <? MaxWidth (fmtr s)) eqn:E; [lia | done].
  Qed.

Lemma checkWidth_reached str s :
    reachesWidth s (len str) = true -> checkWidth str s = write nl s.
  Proof. unfold reachesWidth, checkWidth. by intros ->. Qed.

Lemma checkWidth_not_reached str s :
    reachesWidth s (len str) = false -> checkWidth str s = s.
  Proof. unfold reachesWidth, checkWidth. by intros ->. Qed.

Lemma between_token str s :
    0 <= col s -> 0 < len str -> LastIndex str nl_byte < 0 ->
    between str s =
      write (if reachesWidth s (len str) then nl else " ") (write str s).
  Proof.
    intros Hc Hl Hn. unfold between.
    destruct (err s) as [e|] eqn:Es.
    { rewrite (write_failed str _ e Es), (checkWidth_failed _ _ e Es).
      rewrite !(write_failed _ s e Es). by case_match. }
    pose proof (write_col str s Es) as Hcol.
    destruct (0 <=? LastIndex str nl_byte) eqn:El; [lia|].
    destruct (write_frame str s) as (Hf & _ & _).
    unfold checkWidth. rewrite Hf, Hcol. change (len EmptyString) with 0. rewrite Z.add_0_r.
    fold (reachesWidth s (len str)).
    destruct (reachesWidth s (len str)) eqn:Er.
    - destruct (err (write str s)) as [e|] eqn:E1.
      + rewrite (write_failed nl _ e E1), Hcol.
        destruct (col s + len str =? 0) eqn:E0; [lia|]. by rewrite (write_failed " " _ e E1).
      + by rewrite write_nl_col.
    - rewrite Hcol. destruct (col s + len str =? 0) eqn:E0; [lia | done].
  Qed.

Lemma after_token str s :
    0 <= col s -> 0 < len str -> LastIndex str nl_byte < 0 ->
    after str s =
      write (if reachesWidth s (len str) then nl
             else if Compact (fmtr s) then " " else nl) (write str s).
  Proof.
    intros Hc Hl Hn. unfold after.
    destruct (err s) as [e|] eqn:Es.
    { rewrite (write_failed str _ e Es), (checkWidth_failed _ _ e Es).
      rewrite !(write_failed _ s e Es). by repeat case_match. }
    pose proof (write_col str s Es) as Hcol.
    destruct (0 <=? LastIndex str nl_byte) eqn:El; [lia|].
    destruct (write_frame str s) as (Hf & _ & _).
    unfold checkWidth. rewrite Hf, Hcol. change (len EmptyString) with 0. rewrite Z.add_0_r.
    fold (reachesWidth s (len str)).
    destruct (reachesWidth s (len str)) eqn:Er.
    - destruct (err (write str s)) as [e|] eqn:E1.
      + rewrite (write_failed nl _ e E1), Hcol.
        destruct (col s + len str =? 0) eqn:E0; [lia|].
        rewrite !(write_failed _ (write str s) e E1). by case_match.
      + by rewrite write_nl_col.
    - rewrite Hcol, Hf. destruct (col s + len str =? 0) eqn:E0; [lia | by case_match].
  Qed.

Lemma pr_breaks str s :
    err s = None -> reachesWidth s (len str) = true ->
    pr str s = write str (observeIndent (write nl s)).
  Proof.
    intros Es Hr. unfold pr. rewrite Es. by rewrite (checkWidth_reached _ _ Hr).
  Qed.

Lemma pr_no_break str s :
    reachesWidth s (len str) = false ->
    pr str s = write str (observeIndent s).
  Proof.
    intros Hr. unfold pr. rewrite (checkWidth_not_reached _ _ Hr).
    destruct (err s) as [e|] eqn:Es; [|done].
    unfold observeIndent, indent. case_match.
    - assert (forall n, Nat.iter n (write (Indent (fmtr s))) s = s) as ->.
      { induction n as [|n IH]; simpl; [done|]. by rewrite IH, (write_failed _ _ e Es). }
      by rewrite (write_failed _ _ e Es).
    - by rewrite (write_failed _ _ e Es).
  Qed.
End Width.

(** ** The ordering rule *)

Section Ordering.
  Context `{Fmt}.

Lemma Compare_antisym {T : Type} (lt : T -> T -> bool) (nan : T -> bool) :
    (forall x y, lt x y = true -> lt y x = false) ->
    forall x y, Compare lt nan y x = - Compare lt nan x y.
  Proof.
    intros Hasym x y. unfold Compare.
    destruct (nan x), (nan y); try done.
    destruct (lt x y) eqn:Exy; [by rewrite (Hasym _ _ Exy)|].
    by destruct (lt y x).
  Qed.

Lemma Compare_refl {T : Type} (lt : T -> T -> bool) (nan : T -> bool) :
    (forall x y, lt x y = true -> lt y x = false) ->
    forall x, Compare lt nan x x = 0.
  Proof.
    intros Hasym x. unfold Compare. destruct (nan x); [done|].
    destruct (lt x x) eqn:E; [|done]. by rewrite (Hasym _ _ E) in E.
  Qed.

Lemma Zltb_asym x y : (x <? y) = true -> (y <? x) = false.
  Proof. lia. Qed.

Lemma String_ltb_asym x y : String.ltb x y = true -> String.ltb y x = false.
  Proof.
    unfold String.ltb. rewrite (String.compare_antisym x y).
    by destruct (String.compare y x).
  Qed.

Lemma SFltb_asym x y : SFltb x y = true -> SFltb y x = false.
  Proof.
    unfold SFltb.
    destruct x as [[]|[]| |[] mx ex], y as [[]|[]| |[] my ey]; simpl; try done.
    - rewrite (Z.compare_antisym ey ex).
      destruct (ey ?= ex)%Z; simpl; try done.
      change (PosDef.Pos.compare_cont Eq my mx) with (Pos.compare my mx).
      change (PosDef.Pos.compare_cont Eq mx my) with (Pos.compare mx my).
      rewrite (Pos.compare_antisym mx my). by destruct (Pos.compare mx my).
    - rewrite (Z.compare_antisym ey ex).
      destruct (ey ?= ex)%Z; simpl; try done.
      change (PosDef.Pos.compare_cont Eq my mx) with (Pos.compare my mx).
      change (PosDef.Pos.compare_cont Eq mx my) with (Pos.compare mx my).
      rewrite (Pos.compare_antisym mx my). by destruct (Pos.compare mx my).
  Qed.

Lemma Compare_int_antisym x y : Compare_int y x = - Compare_int x y.
  Proof. apply Compare_antisym, Zltb_asym. Qed.
Lemma Compare_string_antisym x y : Compare_string y x = - Compare_string x y.
  Proof. apply Compare_antisym, String_ltb_asym. Qed.
Lemma Compare_float_antisym x y : Compare_float y x = - Compare_float x y.
  Proof. apply Compare_antisym, SFltb_asym. Qed.

  (** Values of one type are read by the same accessor. *)
Lemma same_type_same_shape a b t :
    TypeOf a = Some t -> TypeOf b = Some t ->
    CanInt a = CanInt b /\ CanUint a = CanUint b /\ CanFloat a = CanFloat b /\
    (CanInt a = true -> is_Some (Int_of a) /\ is_Some (Int_of b)) /\
    (CanUint a = true -> is_Some (Uint_of a) /\ is_Some (Uint_of b)) /\
    (CanFloat a = true -> is_Some (Float_of a) /\ is_Some (Float_of b)).
  Proof.
    unfold TypeOf. intros Ha Hb.
    destruct (nameOf a) as [ta|] eqn:Ea; [|done].
    destruct (nameOf b) as [tb|] eqn:Eb; [|done].
    injection Ha as <-. injection Hb as Hk Hn.
    destruct a, b; simpl in *; try discriminate;
      repeat match goal with k : IntKind |- _ => destruct k
                        | k : UintKind |- _ => destruct k
                        | k : FloatKind |- _ => destruct k
                        | k : ComplexKind |- _ => destruct k end;
      try discriminate; repeat split; try done; eauto.
  Qed.

Lemma unwrap_nil_interface v :
    IsValid v = true -> TypeOf (unwrap v) = None <-> isNilInterface v = true.
  Proof.
    intros Hv. destruct v; simpl in *; try done; try (by split).
    - by destruct k.
    - by destruct k.
    - by destruct k.
    - by destruct k.
    - unfold unwrap. simpl. destruct v; simpl; split; done.
  Qed.

Lemma compareValues_swap a b : compareValues b a = Z.opp <$> compareValues a b.
  Proof.
    unfold compareValues.
    destruct (IsValid a) eqn:Va, (IsValid b) eqn:Vb; simpl; try done.
    destruct (TypeOf (unwrap a)) as [ta|] eqn:Ta, (TypeOf (unwrap b)) as [tb|] eqn:Tb;
      simpl; try done.
    destruct (decide (ta = tb)) as [->|Hne].
    - rewrite !bool_decide_eq_false_2 by (intros Hc; by apply Hc).
      destruct (same_type_same_shape _ _ _ Ta Tb) as (Ei & Eu & Ef & Hi & Hu & Hf).
      rewrite <- Ei, <- Eu, <- Ef.
      destruct (CanInt (unwrap a)) eqn:Ci.
      { destruct (Hi eq_refl) as [[x ->] [y ->]]. simpl. by rewrite Compare_int_antisym. }
      destruct (CanUint (unwrap a)) eqn:Cu.
      { destruct (Hu eq_refl) as [[x ->] [y ->]]. simpl. by rewrite Compare_int_antisym. }
      destruct (CanFloat (unwrap a)) eqn:Cf.
      { destruct (Hf eq_refl) as [[x ->] [y ->]]. simpl. by rewrite Compare_float_antisym. }
      simpl. by rewrite Compare_string_antisym.
    - rewrite !bool_decide_eq_true_2 by congruence.
      simpl. by rewrite Compare_string_antisym.
  Qed.

Lemma compareValues_self a :
    compareValues a a = if isNilInterface a then None else Some 0.
  Proof.
    unfold compareValues. destruct (IsValid a) eqn:Va; simpl.
    2:{ by destruct a. }
    destruct (TypeOf (unwrap a)) as [ta|] eqn:Ta; simpl.
    - destruct (isNilInterface a) eqn:En.
      { apply unwrap_nil_interface in En; [congruence | done]. }
      rewrite bool_decide_eq_false_2 by (intros Hc; by apply Hc).
      destruct (same_type_same_shape _ _ _ Ta Ta) as (_ & _ & _ & Hi & Hu & Hf).
      destruct (CanInt (unwrap a)) eqn:Ci.
      { destruct (Hi eq_refl) as [[x ->] _]. simpl. f_equal.
        apply Compare_refl, Zltb_asym. }
      destruct (CanUint (unwrap a)) eqn:Cu.
      { destruct (Hu eq_refl) as [[x ->] _]. simpl. f_equal.
        apply Compare_refl, Zltb_asym. }
      destruct (CanFloat (unwrap a)) eqn:Cf.
      { destruct (Hf eq_refl) as [[x ->] _]. simpl. f_equal.
        apply Compare_refl, SFltb_asym. }
      f_equal. apply Compare_refl, String_ltb_asym.
    - apply unwrap_nil_interface in Ta; [|done]. by rewrite Ta.
  Qed.

Lemma Compare_le_trans {T : Type} (lt : T -> T -> bool) (nan : T -> bool) :
    (forall x y, lt x y = true -> lt y x = false) ->
    (forall x y z, nan x = false -> nan y = false -> nan z = false ->
       lt z x = true -> lt y x = true \/ lt z y = true) ->
    forall x y z,
      Compare lt nan x y <= 0 -> Compare lt nan y z <= 0 -> Compare lt nan x z <= 0.
  Proof.
    intros Hasym Hneg x y z. unfold Compare.
    destruct (nan x) eqn:Nx, (nan y) eqn:Ny, (nan z) eqn:Nz; try lia.
    destruct (lt x z); [lia|].
    destruct (lt z x) eqn:Ezx; [|lia].
    destruct (Hneg x y z Nx Ny Nz Ezx) as [E | E]; rewrite E, (Hasym _ _ E); lia.
  Qed.

Lemma String_ltb_leb x y : String.ltb y x = negb (String.leb x y).
  Proof.
    unfold String.ltb, String.leb. rewrite (String.compare_antisym x y).
    by destruct (String.compare y x).
  Qed.

Lemma String_leb_trans x y z :
    String.leb x y = true -> String.leb y z = true -> String.leb x z = true.
  Proof.
    intros Hxy Hyz. apply Is_true_true.
    change (String.le x z). transitivity y; by apply Is_true_true.
  Qed.

Lemma String_ltb_negtrans x y z :
    String.ltb z x = true -> String.ltb y x = true \/ String.ltb z y = true.
  Proof.
    rewrite !String_ltb_leb. intros Hzx.
    destruct (String.leb x y) eqn:Exy; [|by left].
    destruct (String.leb y z) eqn:Eyz; [|by right].
    by rewrite (String_leb_trans x y z Exy Eyz) in Hzx.
  Qed.

Lemma SFltb_negtrans x y z :
    isNaN x = false -> isNaN y = false -> isNaN z = false ->
    SFltb z x = true -> SFltb y x = true \/ SFltb z y = true.
  Proof.
    unfold SFltb.
    destruct x as [sx|sx| |sx mx ex]; try done;
    destruct y as [sy|sy| |sy my ey]; try done;
    destruct z as [sz|sz| |sz mz ez]; try done;
    intros _ _ _; try destruct sx; try destruct sy; try destruct sz; simpl;
      try (by auto);
      change (PosDef.Pos.compare_cont Eq) with Pos.compare;
      repeat match goal with
             | |- context [Z.compare ?p ?q] => destruct (Z.compare_spec p q)
             end; simpl; try (by auto); try lia;
      repeat match goal with
             | |- context [Pos.compare ?p ?q] => destruct (Pos.compare_spec p q)
             end; simpl; try (by auto); try lia.
  Qed.

Lemma Compare_int_le_trans x y z :
    Compare_int x y <= 0 -> Compare_int y z <= 0 -> Compare_int x z <= 0.
  Proof. apply Compare_le_trans; [apply Zltb_asym|]. intros; lia. Qed.
Lemma Compare_string_le_trans x y z :
    Compare_string x y <= 0 -> Compare_string y z <= 0 -> Compare_string x z <= 0.
  Proof.
    apply Compare_le_trans; [apply String_ltb_asym|]. intros. by apply String_ltb_negtrans.
  Qed.
Lemma Compare_float_le_trans x y z :
    Compare_float x y <= 0 -> Compare_float y z <= 0 -> Compare_float x z <= 0.
  Proof.
    apply Compare_le_trans; [apply SFltb_asym|]. intros. by apply SFltb_negtrans.
  Qed.

Lemma Compare_string_le_antisym x y :
    Compare_string x y <= 0 -> Compare_string y x <= 0 -> x = y.
  Proof.
    unfold Compare_string, Compare. simpl. rewrite !String_ltb_leb.
    intros Hxy Hyx.
    destruct (String.leb x y) eqn:Exy, (String.leb y x) eqn:Eyx; simpl in *; try lia.
    - by apply String.leb_antisym.
    - destruct (String.leb_total x y); congruence.
  Qed.

  (** The comparison of two values of one type. *)
Lemma sameType_le_trans a b c t x y :
    TypeOf a = Some t -> TypeOf b = Some t -> TypeOf c = Some t ->
    (if CanInt a then x ← Int_of a; y ← Int_of b; Some (Compare_int x y)
     else if CanUint a then x ← Uint_of a; y ← Uint_of b; Some (Compare_int x y)
     else if CanFloat a then x ← Float_of a; y ← Float_of b; Some (Compare_float x y)
     else Some (Compare_string (fmt_v a) (fmt_v b))) = Some x ->
    (if CanInt b then x ← Int_of b; y ← Int_of c; Some (Compare_int x y)
     else if CanUint b then x ← Uint_of b; y ← Uint_of c; Some (Compare_int x y)
     else if CanFloat b then x ← Float_of b; y ← Float_of c; Some (Compare_float x y)
     else Some (Compare_string (fmt_v b) (fmt_v c))) = Some y ->
    x <= 0 -> y <= 0 ->
    exists z,
      (if CanInt a then x ← Int_of a; y ← Int_of c; Some (Compare_int x y)
       else if CanUint a then x ← Uint_of a; y ← Uint_of c; Some (Compare_int x y)
       else if CanFloat a then x ← Float_of a; y ← Float_of c; Some (Compare_float x y)
       else Some (Compare_string (fmt_v a) (fmt_v c))) = Some z /\ z <= 0.
  Proof.
    intros Ta Tb Tc.
    destruct (same_type_same_shape _ _ _ Ta Tb) as (Ei & Eu & Ef & Hi & Hu & Hf).
    destruct (same_type_same_shape _ _ _ Ta Tc) as (_ & _ & _ & Hi' & Hu' & Hf').
    rewrite <- Ei, <- Eu, <- Ef.
    destruct (CanInt a) eqn:Ci.
    { destruct (Hi eq_refl) as [[na ->] [nb ->]]. destruct (Hi' eq_refl) as [_ [nc ->]].
      simpl. intros [= <-] [= <-] Hx Hy. eexists; split; [done|].
      by apply (Compare_int_le_trans na nb nc). }
    destruct (CanUint a) eqn:Cu.
    { destruct (Hu eq_refl) as [[na ->] [nb ->]]. destruct (Hu' eq_refl) as [_ [nc ->]].
      simpl. intros [= <-] [= <-] Hx Hy. eexists; split; [done|].
      by apply (Compare_int_le_trans na nb nc). }
    destruct (CanFloat a) eqn:Cf.
    { destruct (Hf eq_refl) as [[na ->] [nb ->]]. destruct (Hf' eq_refl) as [_ [nc ->]].
      simpl. intros [= <-] [= <-] Hx Hy. eexists; split; [done|].
      by apply (Compare_float_le_trans na nb nc). }
    intros [= <-] [= <-] Hx Hy. eexists; split; [done|].
    by apply (Compare_string_le_trans (fmt_v a) (fmt_v b) (fmt_v c)).
  Qed.

  (** Below or together is transitive, once the names of their types tell
      [b] apart from [a] or from [c]. *)
Lemma compareValues_le_trans a b c x y :
    typeNamesDistinct a b = true \/ typeNamesDistinct b c = true ->
    compareValues a b = Some x -> compareValues b c = Some y -> x <= 0 -> y <= 0 ->
    exists z, compareValues a c = Some z /\ z <= 0.
  Proof.
    unfold compareValues, typeNamesDistinct.
    destruct (IsValid a) eqn:Va, (IsValid b) eqn:Vb, (IsValid c) eqn:Vc; simpl;
      try (intros _ [= <-] _ Hx _; lia);
      try (intros _ _ [= <-] _ Hy; lia);
      try (intros; eexists; split; [done|lia]).
    destruct (TypeOf (unwrap a)) as [ta|] eqn:Ta; [|done].
    destruct (TypeOf (unwrap b)) as [tb|] eqn:Tb; [|done].
    destruct (TypeOf (unwrap c)) as [tc|] eqn:Tc; [|done].
    simpl. intros Hd.
    destruct (decide (ta = tb)) as [->|Hab], (decide (tb = tc)) as [->|Hbc].
    - rewrite !bool_decide_eq_false_2 by (intros Hc; by apply Hc).
      by apply (sameType_le_trans _ _ _ tc).
    - rewrite (bool_decide_eq_false_2 (tb ≠ tb)) by (intros Hc; by apply Hc).
      rewrite !(bool_decide_eq_true_2 (tb ≠ tc)) by done.
      intros _ [= <-] _ Hy. eexists; split; [done|lia].
    - rewrite (bool_decide_eq_false_2 (tc ≠ tc)) by (intros Hc; by apply Hc).
      rewrite !(bool_decide_eq_true_2 (ta ≠ tc)) by done.
      intros [= <-] _ Hx _. eexists; split; [done|lia].
    - rewrite (bool_decide_eq_true_2 (ta ≠ tb)), (bool_decide_eq_true_2 (tb ≠ tc)) by done.
      intros [= <-] [= <-] Hx Hy.
      destruct (decide (ta = tc)) as [->|Hac].
      + exfalso.
        assert (String_of tc = String_of tb) as Es by by apply Compare_string_le_antisym.
        rewrite Es, String.eqb_refl in Hd. simpl in Hd.
        destruct Hd as [Hd|Hd]; apply bool_decide_eq_true_1 in Hd; congruence.
      + rewrite (bool_decide_eq_true_2 (ta ≠ tc)) by done.
        eexists; split; [done|].
        by apply (Compare_string_le_trans _ (String_of tb)).
  Qed.

Lemma typeNamesDistinct_sym a b : typeNamesDistinct b a = typeNamesDistinct a b.
  Proof.
    unfold typeNamesDistinct.
    destruct (TypeOf (unwrap a)) as [ta|], (TypeOf (unwrap b)) as [tb|]; try done.
    rewrite (String.eqb_sym (String_of tb)). f_equal.
    apply bool_decide_ext. split; congruence.
  Qed.

Lemma less_irreflexive a : ~ less a a.
  Proof.
    intros (z & Ez & Hz). rewrite compareValues_self in Ez.
    destruct (isNilInterface a); [done|]. injection Ez as <-. lia.
  Qed.

Lemma less_asymmetric a b : less a b -> ~ less b a.
  Proof.
    intros (x & Ex & Hx) (y & Ey & Hy). rewrite compareValues_swap, Ex in Ey.
    simpl in Ey. injection Ey as <-. lia.
  Qed.

Lemma less_transitive a b c :
    typeNamesDistinct a b = true -> less a b -> less b c -> less a c.
  Proof.
    intros Hd (x & Ex & Hx) (y & Ey & Hy).
    destruct (compareValues_le_trans a b c x y (or_introl Hd) Ex Ey) as (z & Ez & Hz);
      [lia | lia|].
    exists z. split; [done|].
    destruct (decide (z = 0)) as [->|]; [|lia]. exfalso.
    assert (compareValues c a = Some 0) as Eca by by rewrite compareValues_swap, Ez.
    destruct (compareValues_le_trans c a b 0 x (or_intror Hd) Eca Ex) as (u & Eu & Hu);
      [lia | lia|].
    rewrite compareValues_swap, Ey in Eu. simpl in Eu. injection Eu as <-. lia.
  Qed.

Lemma equivalent_transitive a b c :
    typeNamesDistinct a b = true -> equivalent a b -> equivalent b c -> equivalent a c.
  Proof.
    unfold equivalent. intros Hd Eab Ebc.
    destruct (compareValues_le_trans a b c 0 0 (or_introl Hd) Eab Ebc) as (z & Ez & Hz);
      [lia | lia|].
    assert (compareValues c b = Some 0) as Ecb by by rewrite compareValues_swap, Ebc.
    assert (compareValues b a = Some 0) as Eba by by rewrite compareValues_swap, Eab.
    rewrite <- typeNamesDistinct_sym in Hd.
    destruct (compareValues_le_trans c b a 0 0 (or_intror Hd) Ecb Eba) as (u & Eu & Hu);
      [lia | lia|].
    rewrite compareValues_swap, Ez in Eu. simpl in Eu. injection Eu as <-.
    rewrite Ez. f_equal. lia.
  Qed.

Lemma compareValues_nil_left t v :
    IsValid v = true -> compareValues (VInterface t Zero) v = None.
  Proof. intros Hv. unfold compareValues. simpl. by rewrite Hv. Qed.

Lemma compareValues_nil_right t v :
    IsValid v = true -> compareValues v (VInterface t Zero) = None.
  Proof.
    intros Hv. rewrite compareValues_swap. by rewrite compareValues_nil_left.
  Qed.
End Ordering.

(** ** Truncation at MaxElements *)

Section Truncation.
  Context {W : Type} `{Writer W} `{Fmt}.
  Variable h : Heap.
  Variable print : value -> state W -> result W.
  Hypothesis print_framed : forall e, framed (print e).
  Implicit Types (s : state W).

Lemma sliceLoop_truncate n m pre i s e post :
    MaxElements (fmtr s) = m -> 0 < m -> i + Z.of_nat (length pre) = m ->
    sliceLoop print n i (pre ++ e :: post) s =
      andThen (sliceLoop print n i pre s) (fun s' => Done (sliceEllipsis s')).
  Proof.
    revert i s. induction pre as [|x pre IH]; intros i s Hm Hpos Hi; simpl in *.
    - rewrite Hm. destruct (0 <? m) eqn:E1; [|lia]. destruct (m <=? i) eqn:E2; [done | lia].
    - rewrite Hm. destruct (m <=? i) eqn:E2; [lia|]. rewrite andb_false_r.
      destruct (print x s) as [s1| |] eqn:Ep; simpl; try done.
      apply print_framed in Ep as (Hf & _ & _).
      apply IH; [|done|lia].
      case_match; [|congruence]. destruct (after_frame "," s1) as (Hf' & _ & _). congruence.
  Qed.

Lemma mapLoop_truncate n m pre i s kv post :
    MaxElements (fmtr s) = m -> 0 < m -> i + Z.of_nat (length pre) = m ->
    mapLoop print n i (pre ++ kv :: post) s =
      andThen (mapLoop print n i pre s) (fun s' => Done (pr "..." s')).
  Proof.
    revert i s. induction pre as [|[k x] pre IH]; intros i s Hm Hpos Hi; simpl in *.
    - rewrite Hm. destruct kv as [k x].
      destruct (0 <? m) eqn:E1; [|lia]. destruct (m <=? i) eqn:E2; [done | lia].
    - rewrite Hm. destruct (m <=? i) eqn:E2; [lia|]. rewrite andb_false_r.
      destruct (print k s) as [s1| |] eqn:Ek; simpl; try done.
      destruct (print x (between ":" s1)) as [s2| |] eqn:Ex; simpl; try done.
      apply print_framed in Ek as (Hf1 & _ & _). apply print_framed in Ex as (Hf2 & _ & _).
      destruct (between_frame ":" s1) as (Hf3 & _ & _).
      apply IH; [|done|lia].
      case_match; [|congruence]. destruct (after_frame "," s2) as (Hf' & _ & _). congruence.
  Qed.

Lemma split_at_cap {A : Type} (l : list A) (m : nat) :
    (m < length l)%nat -> exists e post, l = (take m l ++ e :: post)%list.
  Proof.
    intros Hlt. destruct (drop m l) as [|e post] eqn:E.
    - apply (f_equal length) in E. rewrite length_drop in E. simpl in E. lia.
    - exists e, post. by rewrite <- E, take_drop.
  Qed.

Lemma printSlice_truncated v s :
    0 < MaxElements (fmtr s) -> MaxElements (fmtr s) < Len h v ->
    printSlice h print v s =
      andThen (sliceLoop print (Len h v) 0
                 (take (Z.to_nat (MaxElements (fmtr s))) (elems h v)) (sliceOpen h v s))
              (fun s' => Done (pr "}" (sliceEllipsis s'))).
  Proof.
    intros Hpos Hlt. unfold printSlice.
    destruct (split_at_cap (elems h v) (Z.to_nat (MaxElements (fmtr s)))) as (e & post & Hl).
    { unfold Len in Hlt. lia. }
    rewrite Hl at 1. destruct (sliceOpen_frame h v s) as (Hf & _ & _).
    rewrite (sliceLoop_truncate _ (MaxElements (fmtr s))); [|by rewrite Hf|done|].
    2:{ rewrite length_take. unfold Len in Hlt. lia. }
    by destruct (sliceLoop _ _ _ _ _).
  Qed.

Lemma printMap_truncated v s keys :
    SortFunc (fun kv1 kv2 => compareValues (fst kv1) (fst kv2)) (entries h v) = Some keys ->
    0 < MaxElements (fmtr s) -> MaxElements (fmtr s) < Z.of_nat (length keys) ->
    printMap h print v s =
      andThen (mapLoop print (Z.of_nat (length keys)) 0
                 (take (Z.to_nat (MaxElements (fmtr s))) keys) (mapOpen s))
              (fun s' => Done (pr "}" (pr "..." s'))).
  Proof.
    intros Hsort Hpos Hlt. unfold printMap. rewrite Hsort.
    destruct (split_at_cap keys (Z.to_nat (MaxElements (fmtr s)))) as (e & post & Hl); [lia|].
    rewrite Hl at 2. destruct (mapOpen_frame s) as (Hf & _ & _).
    rewrite (mapLoop_truncate _ (MaxElements (fmtr s))); [|by rewrite Hf|done|].
    2:{ rewrite length_take. lia. }
    by destruct (mapLoop _ _ _ _ _).
  Qed.
End Truncation.

(** ** Termination

    Along any chain of nested calls the depth grows, or a pointer key joins
    the visited set, or the value gets smaller; [potential] bounds the
    length of the chain. *)

Section Bounds.
  Variable h : Heap.
  Variables (H : nat) (K : gset ident).
  Hypothesis heap_height : (heapHeight h <= H)%nat.
  Hypothesis heap_keys : heapKeys h ⊆ K.

Lemma list_max_elem (f : value -> nat) (l : list value) (x : value) :
    x ∈ l -> (f x <= list_max (map f l))%nat.
  Proof.
    induction 1 as [x l|x y l _ IH]; simpl; lia.
  Qed.

Lemma list_max_elem_snd {A : Type} (l : list (A * value)) (p : A * value) :
    p ∈ l -> (height (snd p) <= list_max (map (fun fv => height (snd fv)) l))%nat.
  Proof.
    induction 1 as [x l|x y l _ IH]; simpl; lia.
  Qed.

Lemma union_list_elem (f : value -> gset ident) (l : list value) (x : value) :
    x ∈ l -> f x ⊆ ⋃ (map f l).
  Proof.
    induction 1 as [x l|x y l _ IH]; simpl; set_solver.
  Qed.

Lemma union_list_elem_snd {A : Type} (l : list (A * value)) (p : A * value) :
    p ∈ l -> ptrKeys (snd p) ⊆ ⋃ (map (fun fv => ptrKeys (snd fv)) l).
  Proof.
    induction 1 as [x l|x y l _ IH]; simpl; set_solver.
  Qed.

Lemma heapValue_bounded v : v ∈ heapValues h -> bounded H K v.
  Proof.
    intros Hv. split.
    - etrans; [|exact heap_height]. by apply list_max_elem.
    - etrans; [|exact heap_keys]. by apply union_list_elem.
  Qed.

Lemma cell_in_heap a c : cells h !! a = Some c -> c ∈ heapValues h.
  Proof.
    intros Hc. unfold heapValues. apply elem_of_app. left.
    apply list_elem_of_fmap. exists (a, c). split; [done|]. by apply elem_of_map_to_list.
  Qed.

Lemma array_in_heap a es e : arrays h !! a = Some es -> e ∈ es -> e ∈ heapValues h.
  Proof.
    intros Ha He. unfold heapValues. apply elem_of_app. right. apply elem_of_app. left.
    apply list_elem_of_join. exists es. split; [done|].
    apply list_elem_of_fmap. exists (a, es). split; [done|]. by apply elem_of_map_to_list.
  Qed.

Lemma map_in_heap a kvs kv :
    maps h !! a = Some kvs -> kv ∈ kvs -> fst kv ∈ heapValues h /\ snd kv ∈ heapValues h.
  Proof.
    intros Ha Hkv.
    assert (kv ∈ mjoin (map_to_list (maps h)).*2) as Hin.
    { apply list_elem_of_join. exists kvs. split; [done|].
      apply list_elem_of_fmap. exists (a, kvs). split; [done|]. by apply elem_of_map_to_list. }
    unfold heapValues. split.
    - apply elem_of_app. right. apply elem_of_app. right. apply elem_of_app. left.
      apply list_elem_of_fmap. by exists kv.
    - apply elem_of_app. right. apply elem_of_app. right. apply elem_of_app. right.
      apply list_elem_of_fmap. by exists kv.
  Qed.

Lemma Zero_bounded : bounded H K Zero.
  Proof. split; simpl; [lia | set_solver]. Qed.

Lemma Elem_bounded v : bounded H K v -> bounded H K (Elem h v).
  Proof.
    intros [Hh Hk]. destruct v; simpl in *; try apply Zero_bounded.
    - split; [lia | done].
    - destruct (cells h !! a) as [c|] eqn:E; simpl; [|apply Zero_bounded].
      eapply heapValue_bounded, cell_in_heap, E.
  Qed.

Lemma Elem_height_interface v :
    KindOf v = Interface -> (height (Elem h v) < height v)%nat.
  Proof.
    destruct v; simpl; try discriminate; try (by destruct k); lia.
  Qed.

Lemma elems_bounded v e : bounded H K v -> e ∈ elems h v -> bounded H K e.
  Proof.
    intros [Hh Hk] He. destruct v; simpl in *; try (by apply elem_of_nil in He).
    - split.
      + pose proof (list_max_elem height es e He). lia.
      + pose proof (union_list_elem ptrKeys es e He). set_solver.
    - destruct (arrays h !! a) as [es|] eqn:E; simpl in *; [|by apply elem_of_nil in He].
      eapply heapValue_bounded, array_in_heap; eauto.
  Qed.

Lemma entries_bounded v kv :
    kv ∈ entries h v -> bounded H K (fst kv) /\ bounded H K (snd kv).
  Proof.
    intros He. destruct v; simpl in *; try (by apply elem_of_nil in He).
    destruct (maps h !! a) as [kvs|] eqn:E; simpl in *; [|by apply elem_of_nil in He].
    destruct (map_in_heap _ _ _ E He). split; by apply heapValue_bounded.
  Qed.

Lemma fields_bounded v fv : bounded H K v -> fv ∈ fields v -> bounded H K (snd fv).
  Proof.
    intros [Hh Hk] He. destruct v; simpl in *; try (by apply elem_of_nil in He).
    split.
    - pose proof (list_max_elem_snd fs fv He). lia.
    - pose proof (union_list_elem_snd fs fv He). set_solver.
  Qed.

Lemma pointer_key_bounded v :
    bounded H K v -> isPointerKind (KindOf v) = true -> key v ∈ K.
  Proof.
    intros [_ Hk] Hp. destruct v; simpl in *; try discriminate;
      try (by destruct k); set_solver.
  Qed.
End Bounds.

Section SortFacts.
  Context {A : Type} (cmp : A -> A -> option Z).

Lemma insertLeft_perm x p p' : insertLeft cmp x p = Some p' -> p' ≡ₚ x :: p.
  Proof.
    revert p'. induction p as [|y p IH]; intros p'; simpl.
    { by intros [= <-]. }
    destruct (cmp x y) as [c|]; simpl; [|done].
    destruct (c <? 0).
    - destruct (insertLeft cmp x p) as [r|]; simpl; [|done].
      intros [= <-]. rewrite (IH r eq_refl). apply Permutation_swap.
    - by intros [= <-].
  Qed.

Lemma insertionSort_perm p l r : insertionSort cmp p l = Some r -> r ≡ₚ p ++ l.
  Proof.
    revert p r. induction l as [|x l IH]; intros p r; simpl.
    { intros [= <-]. rewrite app_nil_r. symmetry. apply Permutation_rev. }
    destruct (insertLeft cmp x p) as [p'|] eqn:E; simpl; [|done].
    intros Hs. rewrite (IH _ _ Hs), (insertLeft_perm _ _ _ E).
    simpl. apply Permutation_middle.
  Qed.

Lemma SortFunc_perm l r : SortFunc cmp l = Some r -> r ≡ₚ l.
  Proof. apply insertionSort_perm. Qed.
End SortFacts.

Section Calls.
  Context {W : Type} {Wr : Writer W} {F : Fmt}.
  Variable h : Heap.
  (** [I] holds of the state throughout; [G] is what is shown of every
      result.  A result that returns hands [I] on. *)
  Variable I : state W -> Prop.
  Hypothesis I_write : forall str s, I s -> I (write str s).
  Hypothesis I_depth : forall d s, I s -> I (set_depth d s).
  Hypothesis I_seen : forall f s, I s -> I (set_seen f s).
  Variable G : result W -> Prop.
  Hypothesis G_Done : forall s, I s -> G (Done s).
  Hypothesis G_inv : forall s, G (Done s) -> I s.
  Hypothesis G_andThen :
    forall r k, G r -> (forall s, r = Done s -> G (k s)) -> G (andThen r k).
  Hypothesis G_deferred :
    forall r g, (forall s, I s -> I (g s)) -> G r -> G (deferred r g).
  Hypothesis G_sort :
    forall v s,
      I s ->
      SortFunc (fun kv1 kv2 => compareValues (fst kv1) (fst kv2)) (entries h v) = None ->
      G (Panic s).
  Implicit Types (s : state W).

Lemma I_pr str s : I s -> I (pr str s).
  Proof. apply pr_inv; auto. Qed.
Lemma I_after str s : I s -> I (after str s).
  Proof. apply after_inv; auto. Qed.
Lemma I_between str s : I s -> I (between str s).
  Proof. apply between_inv; auto. Qed.

Lemma deeper_G f s :
    I s ->
    (depth s + 1 <= MaxDepth (fmtr s) -> G (f (set_depth (depth s + 1) s))) ->
    G (deeper f s).
  Proof.
    intros Hi Hf. unfold deeper. simpl.
    destruct (MaxDepth (fmtr s) <? depth s + 1) eqn:E.
    - apply G_Done, I_depth, I_pr, I_depth, Hi.
    - assert (depth s + 1 <= MaxDepth (fmtr s)) as Hd by (clear -E; lia).
      apply G_deferred; [intros; by apply I_depth | by apply Hf].
  Qed.

Lemma valid_has_type v : IsValid v = true -> exists t, TypeOf v = Some t.
  Proof. destruct v; simpl; try done; unfold TypeOf; simpl; eauto. Qed.

  Section LoopG.
    Variable print : value -> state W -> result W.
    Hypothesis print_framed : forall e, framed (print e).
    Variable s0 : state W.

Lemma sliceLoop_G n es :
      (forall e s, e ∈ es -> I s -> sameFrame s0 s -> G (print e s)) ->
      forall i s, I s -> sameFrame s0 s -> G (sliceLoop print n i es s).
    Proof.
      induction es as [|e es IH]; intros Hp i s Hi Hs; simpl; [by apply G_Done|].
      case_match.
      { apply G_Done. by apply sliceEllipsis_inv. }
      assert (G (print e s)) as Hg by (apply Hp; [apply list_elem_of_here | done | done]).
      apply G_andThen; [done|].
      intros s1 E. rewrite E in Hg. apply G_inv in Hg. apply IH.
      - intros e' s' He'. apply Hp. by apply list_elem_of_further.
      - destruct (negb (Compact (fmtr s1)) || negb (i =? n - 1)); [by apply I_after | done].
      - apply print_framed in E. eapply sameFrame_trans; [exact Hs|].
        eapply sameFrame_trans; [exact E|].
        destruct (negb (Compact (fmtr s1)) || negb (i =? n - 1));
          [apply after_frame | apply sameFrame_refl].
    Qed.

Lemma mapLoop_G n kvs :
      (forall kv s, kv ∈ kvs -> I s -> sameFrame s0 s ->
         G (print (fst kv) s) /\ G (print (snd kv) s)) ->
      forall i s, I s -> sameFrame s0 s -> G (mapLoop print n i kvs s).
    Proof.
      induction kvs as [|[k x] kvs IH]; intros Hp i s Hi Hs; simpl; [by apply G_Done|].
      case_match.
      { apply G_Done. by apply I_pr. }
      assert (G (print k s)) as Hg1
        by (apply (Hp (k, x)); [apply list_elem_of_here | done | done]).
      apply G_andThen; [done|].
      intros s1 E1. rewrite E1 in Hg1. apply G_inv in Hg1. apply print_framed in E1.
      assert (sameFrame s0 (between ":" s1)) as Hb.
      { eapply sameFrame_trans; [exact Hs|]. eapply sameFrame_trans; [exact E1|].
        apply between_frame. }
      assert (G (print x (between ":" s1))) as Hg2.
      { apply (Hp (k, x)); [apply list_elem_of_here | by apply I_between | done]. }
      apply G_andThen; [done|].
      intros s2 E2. rewrite E2 in Hg2. apply G_inv in Hg2. apply print_framed in E2.
      apply IH.
      - intros kv s' Hkv. apply Hp. by apply list_elem_of_further.
      - destruct (negb (Compact (fmtr s2)) || negb (i =? n - 1)); [by apply I_after | done].
      - eapply sameFrame_trans; [exact Hb|]. eapply sameFrame_trans; [exact E2|].
        destruct (negb (Compact (fmtr s2)) || negb (i =? n - 1));
          [apply after_frame | apply sameFrame_refl].
    Qed.

Lemma structLoop_G ign fs :
      (forall fv s, fv ∈ fs -> I s -> sameFrame s0 s -> G (print (snd fv) s)) ->
      forall first s, I s -> sameFrame s0 s -> G (structLoop h print ign first fs s).
    Proof.
      induction fs as [|[sf x] fs IH]; intros Hp first s Hi Hs; simpl; [by apply G_Done|].
      assert (forall fv s', fv ∈ fs -> I s' -> sameFrame s0 s' -> G (print (snd fv) s'))
        as Hp'.
      { intros fv s' Hfv. apply Hp. by apply list_elem_of_further. }
      destruct (existsb (String.eqb (Name sf)) ign); [by apply IH|].
      destruct (negb (IsExported sf)); [by apply IH|].
      destruct (negb (ShowZero (fmtr s)) && IsZero h x); [by apply IH|].
      set (s1 := if negb first && Compact (fmtr s) then pr ", " s else s).
      assert (sameFrame s0 s1 /\ I s1) as [Hs1 Hi1].
      { unfold s1. destruct (negb first && Compact (fmtr s)).
        - split; [|by apply I_pr]. eapply sameFrame_trans; [exact Hs | apply pr_frame].
        - done. }
      assert (G (deeper (fun s' => Done (pr (Name sf) s')) s1)) as Hg1.
      { apply deeper_G; [done|]. intros _. by apply G_Done, I_pr, I_depth. }
      apply G_andThen; [done|].
      intros s2 E1. rewrite E1 in Hg1. apply G_inv in Hg1. apply fieldName_framed in E1.
      assert (sameFrame s0 (between ":" s2)) as Hb.
      { eapply sameFrame_trans; [exact Hs1|]. eapply sameFrame_trans; [exact E1|].
        apply between_frame. }
      assert (G (print x (between ":" s2))) as Hg2.
      { apply (Hp (sf, x)); [apply list_elem_of_here | by apply I_between | done]. }
      apply G_andThen; [done|].
      intros s3 E2. rewrite E2 in Hg2. apply G_inv in Hg2. apply print_framed in E2.
      apply IH; [done| |].
      - destruct (negb (Compact (fmtr s3))); [by apply I_pr | done].
      - eapply sameFrame_trans; [exact Hb|]. eapply sameFrame_trans; [exact E2|].
        destruct (negb (Compact (fmtr s3))); [apply pr_frame | apply sameFrame_refl].
    Qed.

Lemma printSlice_G v :
      I s0 ->
      (forall e s, e ∈ elems h v -> I s -> sameFrame s0 s -> G (print e s)) ->
      G (printSlice h print v s0).
    Proof.
      intros Hi Hp. unfold printSlice.
      assert (G (sliceLoop print (Len h v) 0 (elems h v) (sliceOpen h v s0))) as Hg.
      { apply sliceLoop_G; [done | | apply sliceOpen_frame].
        unfold sliceOpen. case_match; [apply I_pr|]; case_match; by apply I_pr. }
      apply G_andThen; [done|]. intros s E. rewrite E in Hg.
      by apply G_Done, I_pr, G_inv.
    Qed.

Lemma printMap_G v :
      I s0 ->
      (forall kv s, kv ∈ entries h v -> I s -> sameFrame s0 s ->
         G (print (fst kv) s) /\ G (print (snd kv) s)) ->
      G (printMap h print v s0).
    Proof.
      intros Hi Hp. unfold printMap.
      destruct (SortFunc _ (entries h v)) as [keys|] eqn:E; [|by apply (G_sort v)].
      assert (G (mapLoop print (Z.of_nat (length keys)) 0 keys (mapOpen s0))) as Hg.
      { apply mapLoop_G; [| |apply mapOpen_frame].
        - intros kv s Hkv. apply Hp. apply SortFunc_perm in E. by rewrite <- E.
        - unfold mapOpen. case_match; [apply I_pr|]; by apply I_pr. }
      apply G_andThen; [done|]. intros s E'. rewrite E' in Hg.
      by apply G_Done, I_pr, G_inv.
    Qed.

Lemma printStruct_G v :
      I s0 -> IsValid v = true ->
      (forall fv s, fv ∈ fields v -> I s -> sameFrame s0 s -> G (print (snd fv) s)) ->
      G (printStruct h print v s0).
    Proof.
      intros Hi Hv Hp. unfold printStruct. destruct (valid_has_type v Hv) as [t ->].
      match goal with |- G (andThen ?l _) => assert (G l) as Hg end.
      { apply structLoop_G; [done | |].
        - case_match; [apply I_pr|]; by apply I_pr.
        - eapply sameFrame_trans; [apply pr_frame|].
          case_match; [apply pr_frame | apply sameFrame_refl]. }
      apply G_andThen; [done|]. intros s E'. rewrite E' in Hg.
      by apply G_Done, I_pr, G_inv.
    Qed.
  End LoopG.

  (** The body of [printSameDepth] on [v] in state [s] calls [self] only as
      [callable] says. *)
Lemma body_G self v s :
    (forall e, framed (self e)) ->
    I s ->
    (forall e s', callable h v s e s' -> I s' -> G (self e s')) ->
    G (printSameDepthBody h self v s).
  Proof.
    intros Hfr Hi Hcall. unfold printSameDepthBody.
    destruct (negb (IsValid v)) eqn:Ev; [by apply G_Done, I_pr|].
    apply negb_false_iff in Ev.
    unfold cycleCheck. destruct (isPointerKind (KindOf v)) eqn:Ep.
    - case_bool_decide as Hin; [by apply G_Done, I_pr|].
      match goal with |- G (deferred ?l _) => assert (G l) as Hg end.
      { unfold switch. destruct (KindOf v) eqn:Ek; try discriminate.
        - apply Hcall; [by apply call_pointer | by apply I_pr, I_seen].
        - by apply G_Done, I_pr, I_seen. }
      apply G_deferred; [intros; by apply I_seen | done].
    - assert (forall e s', e ∈ nested h v -> I s' -> sameFrame s s' ->
                G (deeper (self e) s')) as Hel.
      { intros e s' He Hi' Hs'. apply deeper_G; [done|]. intros Hd.
        apply Hcall; [by apply call_nested | by apply I_depth]. }
      assert (forall e, framed (fun s0 => deeper (self e) s0)) as Hfr'.
      { intros e. by apply deeper_framed. }
      unfold switch. destruct (KindOf v) eqn:Ek; try discriminate Ep;
        try (by apply G_Done, I_pr).
      + apply printSlice_G; [done | done|]. intros e s' He. apply Hel.
        unfold nested. apply elem_of_app. by left.
      + destruct (valid_has_type v Ev) as [t ->]. by apply G_Done, I_pr.
      + destruct (valid_has_type v Ev) as [t ->]. by apply G_Done, I_pr.
      + apply Hcall; [by apply call_interface | done].
      + apply printMap_G; [done | done|]. intros kv s' Hkv Hi' Hs'. unfold nested. split.
        * apply Hel; [|done|done]. apply elem_of_app. right. apply elem_of_app. left.
          apply list_elem_of_fmap. by exists kv.
        * apply Hel; [|done|done]. apply elem_of_app. right. apply elem_of_app. right.
          apply elem_of_app. left. apply list_elem_of_fmap. by exists kv.
      + apply printSlice_G; [done | done|]. intros e s' He. apply Hel.
        unfold nested. apply elem_of_app. by left.
      + apply printStruct_G; [done | done | done|]. intros fv s' Hfv. apply Hel.
        unfold nested. apply elem_of_app. right. apply elem_of_app. right.
        apply elem_of_app. right. apply list_elem_of_fmap. by exists fv.
  Qed.
End Calls.

Section Termination.
  Context {W : Type} {Wr : Writer W} {F : Fmt}.
  Variable h : Heap.
  Variables (H : nat) (K : gset ident).
  Hypothesis heap_height : (heapHeight h <= H)%nat.
  Hypothesis heap_keys : heapKeys h ⊆ K.
  (** What is shown of every result: [terminates] or [returns]. *)
  Variable G : result W -> Prop.
  Hypothesis G_Done : forall s, G (Done s).
  Hypothesis G_andThen :
    forall r k, G r -> (forall s, r = Done s -> G (k s)) -> G (andThen r k).
  Hypothesis G_deferred : forall r g, G r -> G (deferred r g).
  Hypothesis G_sort :
    forall v s,
      SortFunc (fun kv1 kv2 => compareValues (fst kv1) (fst kv2)) (entries h v) = None ->
      G (Panic s).
  Implicit Types (s : state W).

Lemma unseen_insert k s :
    k ∈ K -> k ∉ seen s ->
    (unseen K (set_seen (fun m => {[k]} ∪ m) s) + 1 = unseen K s)%nat.
  Proof.
    intros Hk Hn. unfold unseen. simpl.
    assert (K ∖ seen s = {[k]} ∪ K ∖ ({[k]} ∪ seen s)) as ->.
    { apply set_eq. intros x. rewrite elem_of_union, !elem_of_difference, elem_of_union,
        elem_of_singleton.
      destruct (decide (x = k)) as [->|Hne]; [tauto|]. tauto. }
    pose proof (size_union (C:=gset (rtype * N)) {[k]} (K ∖ ({[k]} ∪ seen s))) as Hsz.
    rewrite size_singleton in Hsz. rewrite Hsz; [lia|].
    intros x. rewrite elem_of_singleton, elem_of_difference, elem_of_union,
      elem_of_singleton. tauto.
  Qed.

Lemma measures_frame s s' :
    sameFrame s s' -> levelsLeft s' = levelsLeft s /\ unseen K s' = unseen K s.
  Proof. intros (Hf & Hd & Hs). unfold levelsLeft, unseen. by rewrite Hf, Hd, Hs. Qed.

Lemma nested_bounded v e : bounded H K v -> e ∈ nested h v -> bounded H K e.
  Proof.
    intros Hb. unfold nested. rewrite !elem_of_app, !list_elem_of_fmap.
    intros [He|[(kv & -> & Hkv)|[(kv & -> & Hkv)|(fv & -> & Hfv)]]].
    - eapply elems_bounded; eauto.
    - eapply entries_bounded; eauto.
    - eapply entries_bounded; eauto.
    - eapply fields_bounded; eauto.
  Qed.

Lemma callable_potential v s e s' :
    bounded H K v -> callable h v s e s' ->
    bounded H K e /\ (potential H K s' e < potential H K s v)%nat.
  Proof.
    intros Hb Hc. destruct Hc as [Ek|Ek Hin|e s' Ep He Hs Hd].
    - split; [eapply Elem_bounded; eauto|].
      assert (height (Elem h v) < height v)%nat by (eapply Elem_height_interface; eauto).
      unfold potential. lia.
    - assert (bounded H K (Elem h v)) as Hbe by (eapply Elem_bounded; eauto).
      split; [done|]. destruct Hbe as [Hh _].
      assert (key v ∈ K) as Hk.
      { eapply pointer_key_bounded; eauto. by rewrite Ek. }
      pose proof (unseen_insert _ _ Hk Hin) as Hu.
      destruct (measures_frame _ _
                  (pr_frame "&" (set_seen (fun m => {[key v]} ∪ m) s))) as [Hl Hu'].
      unfold potential. rewrite Hl, Hu'.
      assert (levelsLeft (set_seen (fun m => {[key v]} ∪ m) s) = levelsLeft s) as -> by done.
      nia.
    - assert (bounded H K e) as Hbe by (eapply nested_bounded; eauto).
      split; [done|]. destruct Hbe as [Hh _].
      destruct (measures_frame _ _ Hs) as [Hl Hu].
      unfold potential.
      assert (unseen K (set_depth (depth s' + 1) s') = unseen K s) as -> by done.
      assert (levelsLeft (set_depth (depth s' + 1) s') + 1 = levelsLeft s)%nat as Hl'.
      { rewrite <- Hl. unfold levelsLeft. simpl. lia. }
      nia.
  Qed.

Lemma printSameDepth_G n v s :
    bounded H K v -> (potential H K s v < n)%nat -> G (printSameDepth h n v s).
  Proof.
    revert v s. induction n as [|n IH]; intros v s Hb Hpot; [lia|]. simpl.
    apply (body_G h (fun _ => True)); try done.
    - intros; by apply G_deferred.
    - intros; by eapply G_sort.
    - intros e. apply printSameDepth_framed.
    - intros e s' Hc _. destruct (callable_potential v s e s' Hb Hc) as [Hbe Hlt].
      apply IH; [done | lia].
  Qed.
End Termination.


Section TerminationTop.
  Context {W : Type} {Wr : Writer W} {F : Fmt}.
  Variable h : Heap.
  Implicit Types (s : state W).

Lemma terminates_andThen (r : result W) k :
    terminates r -> (forall s, r = Done s -> terminates (k s)) -> terminates (andThen r k).
  Proof. destruct r; simpl; auto. Qed.

Lemma returns_andThen (r : result W) k :
    returns r -> (forall s, r = Done s -> returns (k s)) -> returns (andThen r k).
  Proof. destruct r; simpl; auto. Qed.

Lemma terminates_deferred (r : result W) g : terminates r -> terminates (deferred r g).
  Proof. by destruct r. Qed.

Lemma returns_deferred (r : result W) g : returns r -> returns (deferred r g).
  Proof. by destruct r. Qed.

Lemma sortable_entries v :
    sortable h ->
    SortFunc (fun kv1 kv2 => compareValues (fst kv1) (fst kv2)) (entries h v) <> None.
  Proof.
    intros Hs. destruct v; simpl; try done.
    destruct (maps h !! a) as [kvs|] eqn:E; simpl; [|done].
    destruct (Hs _ _ E) as [r ->]. done.
  Qed.

Lemma printSameDepth_top (G : result W -> Prop) f s :
    (forall s, G (Done s)) ->
    (forall r k, G r -> (forall s, r = Done s -> G (k s)) -> G (andThen r k)) ->
    (forall r g, G r -> G (deferred r g)) ->
    (depth s + 1 <= MaxDepth (fmtr s) -> G (f (set_depth (depth s + 1) s))) ->
    G (deeper f s).
  Proof.
    intros G_Done G_andThen G_deferred Hf.
    eapply deeper_G with (I := fun _ : state W => True); eauto.
  Qed.

Lemma print_from_start (G : result W -> Prop) f w0 x n :
    (forall s, G (Done s)) ->
    (forall r k, G r -> (forall s, r = Done s -> G (k s)) -> G (andThen r k)) ->
    (forall r g, G r -> G (deferred r g)) ->
    (forall v s,
       SortFunc (fun kv1 kv2 => compareValues (fst kv1) (fst kv2)) (entries h v) = None ->
       G (Panic s)) ->
    (enoughFuel h f x <= n)%nat ->
    G (print h n x (initial f w0)).
  Proof.
    intros G_Done G_andThen G_deferred G_sort Hn. unfold print.
    apply (printSameDepth_top G); [done | done | done|]. intros _.
    apply (printSameDepth_G h (Nat.max (height x) (heapHeight h)) (ptrKeys x ∪ heapKeys h));
      try done.
    - lia.
    - apply union_subseteq_r.
    - split; [lia | apply union_subseteq_l].
    - unfold enoughFuel in Hn. unfold potential, levelsLeft, unseen. simpl.
      rewrite difference_empty_L. simpl in Hn.
      replace ((if MaxDepth f <=? 0 then 100 else MaxDepth f) - (-1 + 1))
        with (if MaxDepth f <=? 0 then 100 else MaxDepth f) by lia.
      lia.
  Qed.

Lemma print_terminates f w0 x n :
    (enoughFuel h f x <= n)%nat -> terminates (print h n x (initial f w0)).
  Proof.
    apply print_from_start;
      [done | apply terminates_andThen | apply terminates_deferred | done].
  Qed.

Lemma print_returns f w0 x n :
    sortable h -> (enoughFuel h f x <= n)%nat -> returns (print h n x (initial f w0)).
  Proof.
    intros Hs. apply print_from_start;
      [done | apply returns_andThen | apply returns_deferred |].
    intros v s E. by apply sortable_entries in E.
  Qed.

Lemma Fprint_terminates f w0 x n :
    (enoughFuel h f x <= n)%nat -> Fprint h n f w0 x <> NoFuel.
  Proof.
    intros Hn. unfold Fprint. pose proof (print_terminates f w0 x n Hn) as Ht.
    destruct (print h n x (initial f w0)) as [s|s|s]; simpl in Ht; try done.
    destruct (err s); [done|]. case_match; [|done]. by destruct (WriteString (w s) nl).
  Qed.

Lemma Fprint_returns f w0 x n :
    sortable h -> (enoughFuel h f x <= n)%nat ->
    exists e w', Fprint h n f w0 x = Returned e w'.
  Proof.
    intros Hs Hn. unfold Fprint. pose proof (print_returns f w0 x n Hs Hn) as Ht.
    destruct (print h n x (initial f w0)) as [s|s|s]; simpl in Ht; try done.
    destruct (err s); [eauto|]. case_match; [|eauto].
    destruct (WriteString (w s) nl). eauto.
  Qed.
End TerminationTop.

(** ** Forgetting the records of a writer

    A writer whose state projects onto another writer's, call by call,
    drives the same traversal. *)

Section Erasure.
  Context {W1 W2 : Type} {Wr1 : Writer W1} {Wr2 : Writer W2} {F : Fmt}.
  Variable h : Heap.
  Variable proj : W1 -> W2.
  Hypothesis proj_write :
    forall w1 str,
      WriteString (proj w1) str = (proj (fst (WriteString w1 str)), snd (WriteString w1 str)).
  Implicit Types (s : state W1) (str : string).

  Local Abbreviation er := (erase proj).
  Local Abbreviation erR := (eraseR proj).

Lemma erase_write str s : er (write str s) = write str (er s).
  Proof.
    unfold write, erase. simpl. destruct (err s) eqn:E; [by rewrite E|].
    rewrite proj_write. by destruct (WriteString (w s) str).
  Qed.

Lemma erase_checkWidth str s : er (checkWidth str s) = checkWidth str (er s).
  Proof.
    unfold checkWidth. simpl. case_match; [apply erase_write | done].
  Qed.

Lemma erase_indent s : er (indent s) = indent (er s).
  Proof.
    unfold indent. simpl. generalize (Indent (fmtr s)). intros ind.
    induction (Z.to_nat (depth s)) as [|n IH]; simpl; [done|].
    by rewrite erase_write, IH.
  Qed.

Lemma erase_pr str s : er (pr str s) = pr str (er s).
  Proof.
    unfold pr. simpl. destruct (err s); [done|].
    rewrite erase_write. f_equal.
    rewrite <- erase_checkWidth.
    change (fmtr (er (checkWidth str s))) with (fmtr (checkWidth str s)).
    change (col (er (checkWidth str s))) with (col (checkWidth str s)).
    case_match; [apply erase_indent | done].
  Qed.

Lemma erase_after str s : er (after str s) = after str (er s).
  Proof.
    unfold after. rewrite <- erase_write, <- erase_checkWidth.
    set (s1 := checkWidth EmptyString (write str s)).
    change (col (er s1)) with (col s1). change (fmtr (er s1)) with (fmtr s1).
    repeat case_match; try done; apply erase_write.
  Qed.

Lemma erase_between str s : er (between str s) = between str (er s).
  Proof.
    unfold between. rewrite <- erase_write, <- erase_checkWidth.
    set (s1 := checkWidth EmptyString (write str s)).
    change (col (er s1)) with (col s1).
    case_match; [done | apply erase_write].
  Qed.

Lemma erase_set_depth d s : er (set_depth d s) = set_depth d (er s).
  Proof. done. Qed.
Lemma erase_set_seen f s : er (set_seen f s) = set_seen f (er s).
  Proof. done. Qed.
Lemma erase_depth s : depth (er s) = depth s.
  Proof. done. Qed.
Lemma erase_fmtr s : fmtr (er s) = fmtr s.
  Proof. done. Qed.
Lemma erase_seen s : seen (er s) = seen s.
  Proof. done. Qed.

Ltac push_erase :=
    repeat first
      [ rewrite erase_set_depth | rewrite erase_set_seen | rewrite erase_pr
      | rewrite erase_write | rewrite erase_after | rewrite erase_between
      | rewrite erase_depth | rewrite erase_fmtr | rewrite erase_seen
      | rewrite fmtr_pr | rewrite depth_pr | rewrite fmtr_after | rewrite fmtr_between ].

Lemma erase_andThen (r : result W1) k1 k2 :
    (forall s, erR (k1 s) = k2 (er s)) -> erR (andThen r k1) = andThen (erR r) k2.
  Proof. intros Hk. destruct r; simpl; auto. Qed.

Lemma erase_deferred (r : result W1) g1 g2 :
    (forall s, er (g1 s) = g2 (er s)) -> erR (deferred r g1) = deferred (erR r) g2.
  Proof. intros Hg. destruct r; simpl; by rewrite ?Hg. Qed.

Lemma erase_deeper f1 f2 s :
    (forall s', erR (f1 s') = f2 (er s')) -> erR (deeper f1 s) = deeper f2 (er s).
  Proof.
    intros Hf. unfold deeper. simpl.
    destruct (MaxDepth (fmtr s) <? depth s + 1); simpl.
    - f_equal. by push_erase.
    - rewrite <- erase_set_depth, <- Hf. apply erase_deferred. intros s'. by push_erase.
  Qed.

Lemma erase_sliceEllipsis s : er (sliceEllipsis s) = sliceEllipsis (er s).
  Proof.
    unfold sliceEllipsis. push_erase. destruct (Compact (fmtr s)); by push_erase.
  Qed.

Lemma erase_sliceOpen v s : er (sliceOpen h v s) = sliceOpen h v (er s).
  Proof.
    unfold sliceOpen. destruct (KindOf v); push_erase;
      match goal with |- context [negb ?c] => destruct (negb c) end; by push_erase.
  Qed.

Lemma erase_mapOpen s : er (mapOpen s) = mapOpen (er s).
  Proof.
    unfold mapOpen. push_erase.
    match goal with |- context [negb ?c] => destruct (negb c) end; by push_erase.
  Qed.

  Section LoopErase.
    Variable print1 : value -> state W1 -> result W1.
    Variable print2 : value -> state W2 -> result W2.
    Hypothesis print_erase : forall e s, erR (print1 e s) = print2 e (er s).

Lemma erase_sliceLoop n i es s :
      erR (sliceLoop print1 n i es s) = sliceLoop print2 n i es (er s).
    Proof.
      revert i s. induction es as [|e es IH]; intros i s; simpl; [done|].
      case_match; simpl; [by rewrite erase_sliceEllipsis|].
      rewrite <- print_erase. apply erase_andThen. intros s1.
      rewrite IH. f_equal. simpl. case_match; [apply erase_after | done].
    Qed.

Lemma erase_printSlice v s : erR (printSlice h print1 v s) = printSlice h print2 v (er s).
    Proof.
      unfold printSlice. rewrite <- erase_sliceOpen, <- erase_sliceLoop.
      apply erase_andThen. intros s1. simpl. by rewrite erase_pr.
    Qed.

Lemma erase_mapLoop n i kvs s :
      erR (mapLoop print1 n i kvs s) = mapLoop print2 n i kvs (er s).
    Proof.
      revert i s. induction kvs as [|[k x] kvs IH]; intros i s; simpl; [done|].
      case_match; simpl; [by rewrite erase_pr|].
      rewrite <- print_erase. apply erase_andThen. intros s1.
      rewrite <- erase_between, <- print_erase. apply erase_andThen. intros s2.
      rewrite IH. f_equal. simpl. case_match; [apply erase_after | done].
    Qed.

Lemma erase_printMap v s : erR (printMap h print1 v s) = printMap h print2 v (er s).
    Proof.
      unfold printMap. case_match; [|done].
      rewrite <- erase_mapOpen, <- erase_mapLoop.
      apply erase_andThen. intros s1. simpl. by rewrite erase_pr.
    Qed.

Lemma erase_structLoop ign first fs s :
      erR (structLoop h print1 ign first fs s) = structLoop h print2 ign first fs (er s).
    Proof.
      revert first s. induction fs as [|[sf x] fs IH]; intros first s; simpl; [done|].
      destruct (existsb (String.eqb (Name sf)) ign); [apply IH|].
      destruct (negb (IsExported sf)); [apply IH|].
      destruct (negb (ShowZero (fmtr s)) && IsZero h x); [apply IH|].
      assert (er (if negb first && Compact (fmtr s) then pr ", " s else s)
              = (if negb first && Compact (fmtr s) then pr ", " (er s) else er s)) as <-.
      { case_match; [apply erase_pr | done]. }
      rewrite <- (erase_deeper (fun s' => Done (pr (Name sf) s'))).
      2:{ intros s'. simpl. by rewrite erase_pr. }
      apply erase_andThen. intros s2.
      rewrite <- erase_between, <- print_erase. apply erase_andThen. intros s3.
      rewrite IH. f_equal. simpl. case_match; [apply erase_pr | done].
    Qed.

Lemma erase_printStruct v s :
      erR (printStruct h print1 v s) = printStruct h print2 v (er s).
    Proof.
      unfold printStruct. case_match; [|done]. simpl.
      change (typeName r (er s)) with (typeName r s).
      rewrite <- erase_pr.
      change (fmtr (er (pr (typeName r s +:+ "{") s)))
        with (fmtr (pr (typeName r s +:+ "{") s)).
      assert (er (if negb (Compact (fmtr (pr (typeName r s +:+ "{") s)))
                  then pr nl (pr (typeName r s +:+ "{") s)
                  else pr (typeName r s +:+ "{") s)
              = (if negb (Compact (fmtr (pr (typeName r s +:+ "{") s)))
                 then pr nl (er (pr (typeName r s +:+ "{") s))
                 else er (pr (typeName r s +:+ "{") s))) as <-.
      { case_match; [apply erase_pr | done]. }
      rewrite <- erase_structLoop.
      apply erase_andThen. intros s1. simpl. by rewrite erase_pr.
    Qed.
  End LoopErase.

Lemma erase_body self1 self2 v s :
    (forall e s', erR (self1 e s') = self2 e (er s')) ->
    erR (printSameDepthBody h self1 v s) = printSameDepthBody h self2 v (er s).
  Proof.
    intros Hself.
    assert (forall e s', erR (deeper (self1 e) s') = deeper (self2 e) (er s')) as Hprint.
    { intros e s'. by apply erase_deeper. }
    assert (forall s', erR (switch h self1 v s') = switch h self2 v (er s')) as Hsw.
    { intros s'. unfold switch. destruct (KindOf v); simpl;
        try (by rewrite erase_pr); try apply Hself.
      - by apply erase_printSlice.
      - case_match; simpl; [|done]. change (typeName r (er s')) with (typeName r s').
        by rewrite erase_pr.
      - case_match; simpl; [|done]. change (typeName r (er s')) with (typeName r s').
        by rewrite erase_pr.
      - by apply erase_printMap.
      - rewrite <- erase_pr. apply Hself.
      - by apply erase_printSlice.
      - by apply erase_printStruct. }
    unfold printSameDepthBody. case_match; simpl; [by rewrite erase_pr|].
    unfold cycleCheck. simpl. case_match; [|apply Hsw].
    case_match; simpl; [by rewrite erase_pr|].
    change (set_seen (fun m => {[key v]} ∪ m) (er s))
      with (er (set_seen (fun m => {[key v]} ∪ m) s)).
    rewrite <- Hsw. by apply erase_deferred.
  Qed.
End Erasure.

Section ErasureTop.
  Context {W1 W2 : Type} {Wr1 : Writer W1} {Wr2 : Writer W2} {F : Fmt}.
  Variable h : Heap.
  Variable proj : W1 -> W2.
  Hypothesis proj_write :
    forall w1 str,
      WriteString (proj w1) str = (proj (fst (WriteString w1 str)), snd (WriteString w1 str)).

Lemma erase_printSameDepth n v (s : state W1) :
    eraseR proj (printSameDepth h n v s) = printSameDepth h n v (erase proj s).
  Proof.
    revert v s. induction n as [|n IH]; intros v s; simpl; [done|].
    by apply erase_body.
  Qed.

Lemma erase_print n v (s : state W1) :
    eraseR proj (print h n v s) = print h n v (erase proj s).
  Proof. apply erase_deeper; [done|]. intros s'. apply erase_printSameDepth. Qed.

Lemma erase_Fprint n f w1 x :
    eraseO proj (Fprint h n f w1 x) = Fprint h n f (proj w1) x.
  Proof.
    unfold Fprint.
    change (initial f (proj w1)) with (erase proj (initial f w1)).
    rewrite <- erase_print.
    destruct (print h n x (initial f w1)) as [s|s|s]; simpl; try done.
    destruct (err s); [done|]. case_match; [|done].
    rewrite proj_write. by destruct (WriteString (w s) nl).
  Qed.
End ErasureTop.

(** ** Sink failures *)

Section SinkFailure.
  Context {W : Type} {Wr : Writer W} {F : Fmt}.
  Variable h : Heap.
  Variable w0 : W.

Lemma logged_proj (lw : Logged W) str :
    WriteString (inner lw) str
      = (inner (fst (WriteString lw str)), snd (WriteString lw str)).
  Proof. unfold WriteString at 2 3. simpl. by destruct (WriteString (inner lw) str). Qed.

Lemma replay_snoc cs c : replay w0 (cs ++ [c]) = fst (WriteString (replay w0 cs) (fst c)).
  Proof. unfold replay. by rewrite foldl_app. Qed.

Lemma logged_write (lw : Logged W) str :
    WriteString lw str =
      ({| inner := fst (WriteString (inner lw) str);
          calls := calls lw ++ [(str, snd (WriteString (inner lw) str))] |},
       snd (WriteString (inner lw) str)).
  Proof. done. Qed.

Lemma failedOnceAtEnd_snoc cs str e :
    Forall succeeded cs -> failedOnceAtEnd e (cs ++ [(str, e)]).
  Proof.
    intros Hcs. destruct e as [x|]; simpl.
    - exists cs, str. by split.
    - apply Forall_app. split; [done|]. by apply Forall_singleton.
  Qed.

Lemma sinkInv_write str s : sinkInv w0 s -> sinkInv w0 (write str s).
  Proof.
    unfold sinkInv, write. intros [Hf Hr]. destruct (err s) as [e|] eqn:E.
    { by rewrite E. }
    rewrite logged_write. simpl. split.
    - by apply failedOnceAtEnd_snoc.
    - rewrite replay_snoc. simpl. by rewrite Hr.
  Qed.

Lemma sinkInv_initial f : sinkInv w0 (initial f {| inner := w0; calls := [] |}).
  Proof. split; simpl; [apply Forall_nil_2 | done]. Qed.

Lemma sinkInv_print n f x :
    sinkInv w0 (stateOf (print h n x (initial f {| inner := w0; calls := [] |}))).
  Proof.
    apply print_inv; try done.
    - apply sinkInv_write.
    - apply sinkInv_initial.
  Qed.

Lemma Fprint_failedOnceAtEnd n f x e lw :
    Fprint h n f {| inner := w0; calls := [] |} x = Returned e lw ->
    failedOnceAtEnd e (calls lw) /\ inner lw = replay w0 (calls lw).
  Proof.
    unfold Fprint. pose proof (sinkInv_print n f x) as Hi.
    destruct (print h n x _) as [s|s|s]; simpl in *; try done.
    destruct Hi as [Hf Hr].
    destruct (err s) as [e'|] eqn:E.
    { intros [= <- <-]. by split. }
    case_match.
    - intros [= <- <-]. simpl. split.
      + by apply failedOnceAtEnd_snoc.
      + rewrite replay_snoc. simpl. by rewrite Hr.
    - intros [= <- <-]. by split.
  Qed.
End SinkFailure.

(** ** The sink does not steer the traversal

    Which calls are made, and whether the traversal returns, panics or runs
    out of fuel, depends on the formatter, the depth and the visited set
    only: not on the writer, the column or the error. *)

Section Control.
  Context {W1 W2 : Type} {Wr1 : Writer W1} {Wr2 : Writer W2} {F : Fmt}.
  Variable h : Heap.

Lemma sameControl_step (s1 : state W1) (s2 : state W2) s1' s2' :
    sameControl s1 s2 -> sameFrame s1 s1' -> sameFrame s2 s2' -> sameControl s1' s2'.
  Proof.
    unfold sameControl, sameFrame.
    intros (Hf & Hd & Hs) (-> & -> & ->) (-> & -> & ->). done.
  Qed.

Lemma sameControl_depth d (s1 : state W1) (s2 : state W2) :
    sameControl s1 s2 -> sameControl (set_depth d s1) (set_depth d s2).
  Proof. intros (Hf & Hd & Hs). by repeat split. Qed.

Lemma sameEnd_andThen (r1 : result W1) (r2 : result W2) k1 k2 :
    sameEnd r1 r2 ->
    (forall (s1 : state W1) (s2 : state W2), sameControl s1 s2 -> sameEnd (k1 s1) (k2 s2)) ->
    sameEnd (andThen r1 k1) (andThen r2 k2).
  Proof. destruct r1, r2; simpl; try done. intros Hc Hk. by apply Hk. Qed.

Lemma sameEnd_deferred (r1 : result W1) (r2 : result W2) g1 g2 :
    sameEnd r1 r2 ->
    (forall (s1 : state W1) (s2 : state W2),
       sameControl s1 s2 -> sameControl (g1 s1) (g2 s2)) ->
    sameEnd (deferred r1 g1) (deferred r2 g2).
  Proof. destruct r1, r2; simpl; try done. intros Hc Hg. by apply Hg. Qed.

Lemma sameEnd_deeper f1 f2 (s1 : state W1) (s2 : state W2) :
    (forall (s1' : state W1) (s2' : state W2),
       sameControl s1' s2' -> sameEnd (f1 s1') (f2 s2')) ->
    sameControl s1 s2 -> sameEnd (deeper f1 s1) (deeper f2 s2).
  Proof.
    intros Hf Hc. unfold deeper. simpl.
    destruct Hc as (Hfm & Hd & Hs). rewrite Hfm, Hd.
    destruct (MaxDepth (fmtr s2) <? depth s2 + 1); simpl.
    - rewrite !depth_pr. simpl.
      repeat split; simpl; rewrite ?fmtr_pr, ?seen_pr; done.
    - apply sameEnd_deferred.
      + apply Hf. by repeat split.
      + intros s1' s2' (Hfm' & Hd' & Hs'). rewrite Hd'. by repeat split.
  Qed.

  Section LoopControl.
    Variable print1 : value -> state W1 -> result W1.
    Variable print2 : value -> state W2 -> result W2.
    Hypothesis print_same :
      forall e (s1 : state W1) (s2 : state W2),
        sameControl s1 s2 -> sameEnd (print1 e s1) (print2 e s2).

Lemma sameEnd_sliceLoop n i es (s1 : state W1) (s2 : state W2) :
      sameControl s1 s2 -> sameEnd (sliceLoop print1 n i es s1) (sliceLoop print2 n i es s2).
    Proof.
      revert i s1 s2. induction es as [|e es IH]; intros i s1 s2 Hc; simpl; [done|].
      pose proof Hc as (Hfm & _ & _). rewrite Hfm.
      destruct ((0 <? MaxElements (fmtr s2)) && (MaxElements (fmtr s2) <=? i)); simpl.
      - eapply sameControl_step; [exact Hc | apply sliceEllipsis_frame..].
      - apply sameEnd_andThen; [by apply print_same|].
        intros s1' s2' Hc'. apply IH. pose proof Hc' as (Hfm' & _ & _). rewrite Hfm'.
        destruct (negb (Compact (fmtr s2')) || negb (i =? n - 1)); [|done].
        eapply sameControl_step; [exact Hc' | apply after_frame..].
    Qed.

Lemma sameEnd_printSlice v (s1 : state W1) (s2 : state W2) :
      sameControl s1 s2 -> sameEnd (printSlice h print1 v s1) (printSlice h print2 v s2).
    Proof.
      intros Hc. unfold printSlice. apply sameEnd_andThen.
      - apply sameEnd_sliceLoop.
        eapply sameControl_step; [exact Hc | apply sliceOpen_frame..].
      - intros s1' s2' Hc'. simpl.
        eapply sameControl_step; [exact Hc' | apply pr_frame..].
    Qed.

Lemma sameEnd_mapLoop n i kvs (s1 : state W1) (s2 : state W2) :
      sameControl s1 s2 -> sameEnd (mapLoop print1 n i kvs s1) (mapLoop print2 n i kvs s2).
    Proof.
      revert i s1 s2. induction kvs as [|[k x] kvs IH]; intros i s1 s2 Hc; simpl; [done|].
      pose proof Hc as (Hfm & _ & _). rewrite Hfm.
      destruct ((0 <? MaxElements (fmtr s2)) && (MaxElements (fmtr s2) <=? i)); simpl.
      - eapply sameControl_step; [exact Hc | apply pr_frame..].
      - apply sameEnd_andThen; [by apply print_same|].
        intros s1' s2' Hc'. apply sameEnd_andThen.
        + apply print_same. eapply sameControl_step; [exact Hc' | apply between_frame..].
        + intros s1'' s2'' Hc''. apply IH. pose proof Hc'' as (Hfm' & _ & _). rewrite Hfm'.
          destruct (negb (Compact (fmtr s2'')) || negb (i =? n - 1)); [|done].
          eapply sameControl_step; [exact Hc'' | apply after_frame..].
    Qed.

Lemma sameEnd_printMap v (s1 : state W1) (s2 : state W2) :
      sameControl s1 s2 -> sameEnd (printMap h print1 v s1) (printMap h print2 v s2).
    Proof.
      intros Hc. unfold printMap.
      destruct (SortFunc _ (entries h v)) as [keys|]; [|done].
      apply sameEnd_andThen.
      - apply sameEnd_mapLoop.
        eapply sameControl_step; [exact Hc | apply mapOpen_frame..].
      - intros s1' s2' Hc'. simpl.
        eapply sameControl_step; [exact Hc' | apply pr_frame..].
    Qed.

Lemma sameEnd_structLoop ign first fs (s1 : state W1) (s2 : state W2) :
      sameControl s1 s2 ->
      sameEnd (structLoop h print1 ign first fs s1) (structLoop h print2 ign first fs s2).
    Proof.
      revert first s1 s2. induction fs as [|[sf x] fs IH]; intros first s1 s2 Hc; simpl;
        [done|].
      pose proof Hc as (Hfm & _ & _). rewrite Hfm.
      destruct (existsb (String.eqb (Name sf)) ign); [by apply IH|].
      destruct (negb (IsExported sf)); [by apply IH|].
      destruct (negb (ShowZero (fmtr s2)) && IsZero h x); [by apply IH|].
      apply sameEnd_andThen.
      - apply sameEnd_deeper.
        + intros s1' s2' Hc'. simpl.
          eapply sameControl_step; [exact Hc' | apply pr_frame..].
        + destruct (negb first && Compact (fmtr s2)); [|done].
          eapply sameControl_step; [exact Hc | apply pr_frame..].
      - intros s1' s2' Hc'. apply sameEnd_andThen.
        + apply print_same. eapply sameControl_step; [exact Hc' | apply between_frame..].
        + intros s1'' s2'' Hc''. apply IH. pose proof Hc'' as (Hfm' & _ & _). rewrite Hfm'.
          destruct (negb (Compact (fmtr s2''))); [|done].
          eapply sameControl_step; [exact Hc'' | apply pr_frame..].
    Qed.

Lemma sameEnd_printStruct v (s1 : state W1) (s2 : state W2) :
      sameControl s1 s2 -> sameEnd (printStruct h print1 v s1) (printStruct h print2 v s2).
    Proof.
      intros Hc. unfold printStruct. destruct (TypeOf v) as [t|]; [|done].
      pose proof Hc as (Hfm & _ & _).
      assert (typeName t s1 = typeName t s2) as -> by (unfold typeName; by rewrite Hfm).
      rewrite !fmtr_pr, Hfm.
      apply sameEnd_andThen.
      - apply sameEnd_structLoop.
        destruct (negb (Compact (fmtr s2))).
        + eapply sameControl_step; [exact Hc | |].
          * eapply sameFrame_trans; apply pr_frame.
          * eapply sameFrame_trans; apply pr_frame.
        + eapply sameControl_step; [exact Hc | apply pr_frame..].
      - intros s1' s2' Hc'. simpl.
        eapply sameControl_step; [exact Hc' | apply pr_frame..].
    Qed.
  End LoopControl.

Lemma sameEnd_body self1 self2 v (s1 : state W1) (s2 : state W2) :
    (forall e (s1' : state W1) (s2' : state W2),
       sameControl s1' s2' -> sameEnd (self1 e s1') (self2 e s2')) ->
    sameControl s1 s2 ->
    sameEnd (printSameDepthBody h self1 v s1) (printSameDepthBody h self2 v s2).
  Proof.
    intros Hself Hc.
    assert (forall e (s1' : state W1) (s2' : state W2), sameControl s1' s2' ->
              sameEnd (deeper (self1 e) s1') (deeper (self2 e) s2')) as Hprint.
    { intros e s1' s2' Hc'. apply sameEnd_deeper; [|done]. intros. by apply Hself. }
    assert (forall (s1' : state W1) (s2' : state W2), sameControl s1' s2' ->
              sameEnd (switch h self1 v s1') (switch h self2 v s2')) as Hsw.
    { intros s1' s2' Hc'. unfold switch. destruct (KindOf v); simpl;
        try (eapply sameControl_step; [exact Hc' | apply pr_frame..]);
        try (by apply Hself).
      - by apply sameEnd_printSlice.
      - destruct (TypeOf v); simpl; [|done].
        eapply sameControl_step; [exact Hc' | apply pr_frame..].
      - destruct (TypeOf v); simpl; [|done].
        eapply sameControl_step; [exact Hc' | apply pr_frame..].
      - by apply sameEnd_printMap.
      - apply Hself. eapply sameControl_step; [exact Hc' | apply pr_frame..].
      - by apply sameEnd_printSlice.
      - by apply sameEnd_printStruct. }
    unfold printSameDepthBody. destruct (negb (IsValid v)); simpl.
    { eapply sameControl_step; [exact Hc | apply pr_frame..]. }
    unfold cycleCheck. destruct (isPointerKind (KindOf v)); [|by apply Hsw].
    pose proof Hc as (Hfm & Hd & Hs). rewrite Hs.
    destruct (bool_decide (key v ∈ seen s2)); simpl.
    { eapply sameControl_step; [exact Hc | apply pr_frame..]. }
    apply sameEnd_deferred.
    - apply Hsw. repeat split; simpl; [done | done | by rewrite Hs].
    - intros s1' s2' (Hfm' & Hd' & Hs'). repeat split; simpl; [done | done |].
      by rewrite Hs'.
  Qed.

Lemma sameEnd_printSameDepth n v (s1 : state W1) (s2 : state W2) :
    sameControl s1 s2 -> sameEnd (printSameDepth h n v s1) (printSameDepth h n v s2).
  Proof.
    revert v s1 s2. induction n as [|n IH]; intros v s1 s2 Hc; simpl; [done|].
    apply sameEnd_body; [|done]. intros e s1' s2'. apply IH.
  Qed.

Lemma sameEnd_print n v (s1 : state W1) (s2 : state W2) :
    sameControl s1 s2 -> sameEnd (print h n v s1) (print h n v s2).
  Proof. apply sameEnd_deeper. intros. by apply sameEnd_printSameDepth. Qed.

Lemma Fprint_returns_for_any_writer n f (w1 : W1) (w2 : W2) x :
    (exists e1 w1', Fprint h n f w1 x = Returned e1 w1') ->
    exists e2 w2', Fprint h n f w2 x = Returned e2 w2'.
  Proof.
    intros (e1 & w1' & E). unfold Fprint in *.
    assert (sameEnd (print h n x (initial f w1)) (print h n x (initial f w2))) as Hs.
    { apply sameEnd_print. by repeat split. }
    destruct (print h n x (initial f w1)) as [s1|s1|s1]; try done.
    destruct (print h n x (initial f w2)) as [s2|s2|s2]; try done.
    destruct (err s2); [eauto|].
    destruct (negb (col s2 =? 0) && negb (Compact (fmtr s2))); [|eauto].
    destruct (WriteString (w s2) nl). eauto.
  Qed.
End Control.

(** ** The monitored traversal *)

Section Monitor.
  Context {W : Type} {Wr : Writer W} {F : Fmt}.
  Variable h : Heap.
  Implicit Types (s : state (Monitored W)).

Lemma monitored_proj (mw : Monitored W) str :
    WriteString (sink mw) str
      = (sink (fst (WriteString mw str)), snd (WriteString mw str)).
  Proof. unfold WriteString at 2 3. simpl. by destruct (WriteString (sink mw) str). Qed.

Lemma erase_observe path v s : erase sink (observe path v s) = erase sink s.
  Proof. done. Qed.

Lemma observe_frame path v s : sameFrame s (observe path v s).
  Proof. done. Qed.

  (** The monitor does not change the traversal. *)
Lemma erase_printSameDepthM n path v s :
    eraseR sink (printSameDepthM h n path v s) = printSameDepth h n v (erase sink s).
  Proof.
    revert path v s. induction n as [|n IH]; intros path v s; simpl; [done|].
    rewrite <- (erase_observe path v s).
    apply erase_body; [apply monitored_proj|]. intros e s'. apply IH.
  Qed.

Lemma erase_printM n v s :
    eraseR sink (printM h n v s) = print h n v (erase sink s).
  Proof.
    apply erase_deeper; [apply monitored_proj|]. intros s'. apply erase_printSameDepthM.
  Qed.

Lemma printSameDepthM_framed n path v : framed (printSameDepthM h n path v).
  Proof.
    intros s s' E. apply (f_equal (eraseR sink)) in E.
    rewrite erase_printSameDepthM in E. simpl in E.
    by apply printSameDepth_framed in E.
  Qed.

Lemma write_trace str s : trace (w (write str s)) = trace (w s).
  Proof. unfold write. destruct (err s); [done|]. done. Qed.

  (** What holds at every entry: [Pre] of the path, the value and the
      state gives [Ev] of the observation, and is handed on to every call
      the entry makes. *)
  Variable Pre : list value -> value -> state (Monitored W) -> Prop.
  Variable Ev : event -> Prop.
  Hypothesis Pre_Ev :
    forall path v s,
      Pre path v s -> Ev {| onPath := path; visited := seen s; entered := v |}.
  Hypothesis Pre_callable :
    forall path v s e s',
      Pre path v s -> callable h v (observe path v s) e s' ->
      Pre (if isPointerKind (KindOf v) then v :: path else path) e s'.

Lemma monitor_inv n path v s :
    Forall Ev (trace (w s)) -> Pre path v s ->
    Forall Ev (trace (w (stateOf (printSameDepthM h n path v s)))).
  Proof.
    revert path v s. induction n as [|n IH]; intros path v s Ht Hpre; simpl; [done|].
    eapply body_G with (I := fun s0 => Forall Ev (trace (w s0)))
                       (G := fun r => Forall Ev (trace (w (stateOf r)))).
    - intros str s0. by rewrite write_trace.
    - done.
    - done.
    - done.
    - done.
    - intros [s1|s1|s1] k Hr Hk; simpl in *; auto.
    - intros [s1|s1|s1] g Hg Hr; simpl in *; auto.
    - done.
    - intros e. apply printSameDepthM_framed.
    - simpl. constructor; [by apply Pre_Ev | done].
    - intros e s' Hc Hi. apply IH; [done|]. by eapply Pre_callable.
  Qed.
End Monitor.

Section MonitorPath.
  Context {W : Type} {Wr : Writer W} {F : Fmt}.
  Variable h : Heap.
  Implicit Types (s : state (Monitored W)).

Lemma pathPre_callable path v s e s' :
    pathPre path s ->
    callable h v (observe path v s) e s' ->
    pathPre (if isPointerKind (KindOf v) then v :: path else path) s'.
  Proof.
    intros (Hs & Hn & Hk) Hc. destruct Hc as [Ek|Ek Hin|e s' Ep He Hfr Hd].
    - rewrite Ek. simpl. by repeat split.
    - rewrite Ek. simpl in *. unfold pathPre. rewrite seen_pr. simpl. split; [|split].
      + by rewrite Hs.
      + apply NoDup_cons_2; [|done]. intros Hv. apply Hin. rewrite Hs.
        apply elem_of_list_to_set, list_elem_of_fmap. by exists v.
      + constructor; [by rewrite Ek | done].
    - rewrite Ep. destruct Hfr as (_ & _ & Hseen). simpl in *.
      split; [|by split]. simpl. congruence.
  Qed.

Lemma printSameDepthM_onPathOnly n path v s :
    Forall onPathOnly (trace (w s)) -> pathPre path s ->
    Forall onPathOnly (trace (w (stateOf (printSameDepthM h n path v s)))).
  Proof.
    intros Ht Hs.
    apply (monitor_inv h (fun p _ s0 => pathPre p s0)); try done.
    intros p v0 s0 e s' Hp Hc. by eapply pathPre_callable.
  Qed.

Lemma printM_onPathOnly n f w0 x :
    Forall onPathOnly
      (trace (w (stateOf (printM h n x (initial f {| sink := w0; trace := [] |}))))).
  Proof.
    unfold printM.
    eapply deeper_G with (I := fun s0 : state (Monitored W) => Forall onPathOnly (trace (w s0)))
                         (G := fun r => Forall onPathOnly (trace (w (stateOf r)))).
    - intros str s0. by rewrite write_trace.
    - done.
    - done.
    - intros [s1|s1|s1] g Hg Hr; simpl in *; auto.
    - simpl. constructor.
    - intros _. apply printSameDepthM_onPathOnly; [constructor|].
      split; [done|]. split; constructor.
  Qed.

  (** Where no pointer is stored, no pointer is entered. *)
Lemma printM_no_pointer n f w0 x :
    heapKeys h = ∅ -> ptrKeys x = ∅ ->
    Forall (fun ev => isPointerKind (KindOf (entered ev)) = false)
      (trace (w (stateOf (printM h n x (initial f {| sink := w0; trace := [] |}))))).
  Proof.
    intros Hk Hx. unfold printM.
    set (H := Nat.max (height x) (heapHeight h)).
    assert (heapHeight h <= H)%nat as Hh by (unfold H; lia).
    assert (heapKeys h ⊆ ∅) as Hk' by (by rewrite Hk).
    assert (bounded H ∅ x) as Hb by (split; [unfold H; lia | by rewrite Hx]).
    set (Ev := fun ev => isPointerKind (KindOf (entered ev)) = false).
    eapply deeper_G with (I := fun s0 : state (Monitored W) => Forall Ev (trace (w s0)))
                         (G := fun r => Forall Ev (trace (w (stateOf r)))).
    - intros str s0. by rewrite write_trace.
    - done.
    - done.
    - intros [s1|s1|s1] g Hg Hr; simpl in *; auto.
    - simpl. constructor.
    - intros _.
      apply (monitor_inv h (fun _ v0 _ => bounded H ∅ v0)); try done.
      + intros p v0 s0 Hb0. unfold Ev. simpl.
        destruct (isPointerKind (KindOf v0)) eqn:Ep; [|done].
        assert (key v0 ∈ (∅ : gset ident)) as Hin by (eapply pointer_key_bounded; eauto).
        by apply not_elem_of_empty in Hin.
      + intros p v0 s0 e s' Hb0 Hc.
        eapply callable_potential in Hc; eauto. by destruct Hc.
  Qed.
End MonitorPath.

(** ** Plain output to a buffer *)

Section Plain.
  Implicit Types (s : state string) (str : string).

Lemma append_assoc (a b c : string) : (a +:+ b) +:+ c = a +:+ (b +:+ c).
  Proof.
    induction a as [|x a IH]; [done|].
    change (String x ((a +:+ b) +:+ c) = String x (a +:+ (b +:+ c))). by rewrite IH.
  Qed.

Lemma len_append (a b : string) : len (a +:+ b) = len a + len b.
  Proof.
    unfold len. induction a as [|x a IH].
    { change (EmptyString +:+ b) with b. simpl String.length. lia. }
    change (String x a +:+ b) with (String x (a +:+ b)).
    simpl String.length. rewrite !Nat2Z.inj_succ. lia.
  Qed.

Lemma emit_emit a b s : emit b (emit a s) = emit (a +:+ b) s.
  Proof.
    unfold emit. simpl. f_equal; [apply append_assoc | rewrite len_append; lia].
  Qed.

Lemma emit_plain str s : plain s -> plain (emit str s).
  Proof.
    intros (Hc & Hw & Hm & He & Hcol). repeat split; simpl; try done.
    pose proof (len_nonneg str). lia.
  Qed.

Lemma write_emit str s :
    err s = None -> LastIndex str nl_byte < 0 -> write str s = emit str s.
  Proof.
    intros He Hn. unfold write, emit. rewrite He. simpl.
    destruct (0 <=? LastIndex str nl_byte) eqn:E; [lia | done].
  Qed.

Lemma pr_emit str s : plain s -> LastIndex str nl_byte < 0 -> pr str s = emit str s.
  Proof.
    intros (Hc & Hw & Hm & He & Hcol) Hn. unfold pr. rewrite He.
    rewrite checkWidth_off by done. rewrite Hc. simpl. by apply write_emit.
  Qed.

Lemma after_comma_emit s : plain s -> after "," s = emit ", " s.
  Proof.
    intros (Hc & Hw & Hm & He & Hcol).
    rewrite after_token; [|done|done|done].
    assert (reachesWidth s (len ",") = false) as ->.
    { unfold reachesWidth. destruct (0 <? MaxWidth (fmtr s)) eqn:E; [lia | done]. }
    rewrite Hc, (write_emit "," s), (write_emit " "); try done.
    by rewrite emit_emit.
  Qed.

Lemma deeper_pruned (f : state string -> result string) s :
    plain s -> MaxDepth (fmtr s) < depth s + 1 ->
    deeper f s = Done (emit "<maxdepth>" s).
  Proof.
    intros Hp Hd. unfold deeper. simpl.
    destruct (MaxDepth (fmtr s) <? depth s + 1) eqn:E; [|lia].
    rewrite pr_emit; [|done|done]. f_equal. unfold emit, set_depth. simpl. f_equal. lia.
  Qed.

Lemma deeper_emit (f : state string -> result string) s text :
    depth s + 1 <= MaxDepth (fmtr s) ->
    f (set_depth (depth s + 1) s) = Done (emit text (set_depth (depth s + 1) s)) ->
    deeper f s = Done (emit text s).
  Proof.
    intros Hd Hf. unfold deeper. simpl.
    destruct (MaxDepth (fmtr s) <? depth s + 1) eqn:E; [lia|].
    rewrite Hf. simpl. f_equal. unfold emit, set_depth. simpl. f_equal. lia.
  Qed.

Lemma set_depth_plain d s : plain s -> plain (set_depth d s).
  Proof. done. Qed.

Lemma fmtr_emit str s : fmtr (emit str s) = fmtr s.
  Proof. done. Qed.

Lemma depth_emit str s : depth (emit str s) = depth s.
  Proof. done. Qed.

  (** One slice of two elements, given what printing each element appends. *)
Lemma printSlice_pair (h : Heap) (print : value -> state string -> result string)
      v e1 e2 s a b :
    plain s -> KindOf v = Slice -> elems h v = [e1; e2] ->
    (forall s', plain s' -> sameFrame s s' -> print e1 s' = Done (emit a s')) ->
    (forall s', plain s' -> sameFrame s s' -> print e2 s' = Done (emit b s')) ->
    printSlice h print v s
      = Done (emit ("[]{" +:+ a +:+ ", " +:+ b +:+ "}") s).
  Proof.
    intros Hp Hk Hes H1 H2.
    pose proof Hp as (Hc & Hw & Hm & He & Hcol).
    assert ((0 <? MaxElements (fmtr s)) = false) as E0 by lia.
    assert (Len h v = 2) as Hlen.
    { unfold Len. by rewrite Hes. }
    unfold printSlice, sliceOpen. rewrite Hk, Hes, Hlen.
    rewrite (pr_emit "[]{" s Hp) by done.
    rewrite fmtr_emit, Hc. simpl negb. cbv iota.
    simpl sliceLoop.
    rewrite ?fmtr_emit, E0. simpl andb. cbv iota.
    rewrite H1; [|by apply emit_plain|done].
    simpl andThen. rewrite ?fmtr_emit, Hc. simpl negb. simpl orb. cbv iota.
    rewrite after_comma_emit by by do 2 apply emit_plain.
    rewrite ?fmtr_emit, E0. simpl andb. cbv iota.
    rewrite H2; [|by do 3 apply emit_plain|done].
    simpl andThen. rewrite ?fmtr_emit, Hc. simpl negb. simpl orb. cbv iota.
    rewrite pr_emit; [|by do 4 apply emit_plain|done].
    rewrite !emit_emit. by rewrite ?append_assoc.
  Qed.

  (** The element [1] of the sample slices. *)
Lemma print_one (h : Heap) n s :
    plain s -> depth s + 1 <= MaxDepth (fmtr s) ->
    deeper (@printSameDepth _ _ builtinFmt h (S (S n)) (any (int 1))) s
      = Done (emit "1" s).
  Proof.
    intros Hp Hd. apply deeper_emit; [done|].
    change (@printSameDepth _ _ builtinFmt h (S (S n)) (any (int 1))
              (set_depth (depth s + 1) s))
      with (Done (pr "1" (set_depth (depth s + 1) s)) : result string).
    by rewrite pr_emit.
  Qed.

  (** The self-containing slice, [k] levels above the depth limit. *)
Lemma printSameDepth_self k :
    forall n s,
      plain s -> depth s = MaxDepth (fmtr s) - Z.of_nat k -> (2 * k + 1 <= n)%nat ->
      @printSameDepth _ _ builtinFmt heapSelf n sliceCycle s
        = Done (emit (selfRendering k) s).
  Proof.
    induction k as [|k IH]; intros n s Hp Hd Hn.
    - destruct n as [|n]; [lia|].
      change (@printSameDepth _ _ builtinFmt heapSelf (S n) sliceCycle s)
        with (printSlice heapSelf
                (fun x => deeper (@printSameDepth _ _ builtinFmt heapSelf n x)) sliceCycle s).
      rewrite (printSlice_pair heapSelf _ sliceCycle (any (int 1)) (any sliceCycle) s
                 "<maxdepth>" "<maxdepth>"); try done.
      + intros s' Hp' (Hf' & Hd' & _). apply deeper_pruned; [done|]. rewrite Hf'. lia.
      + intros s' Hp' (Hf' & Hd' & _). apply deeper_pruned; [done|]. rewrite Hf'. lia.
    - destruct n as [|[|[|n]]]; [lia|lia|lia|].
      change (@printSameDepth _ _ builtinFmt heapSelf (S (S (S n))) sliceCycle s)
        with (printSlice heapSelf
                (fun x => deeper (@printSameDepth _ _ builtinFmt heapSelf (S (S n)) x))
                sliceCycle s).
      rewrite (printSlice_pair heapSelf _ sliceCycle (any (int 1)) (any sliceCycle) s
                 "1" (selfRendering k)); try done.
      + intros s' Hp' (Hf' & Hd' & _). apply print_one; [done|]. rewrite Hf'. lia.
      + intros s' Hp' (Hf' & Hd' & _). apply deeper_emit; [rewrite Hf'; lia|].
        change (@printSameDepth _ _ builtinFmt heapSelf (S (S n)) (any sliceCycle)
                  (set_depth (depth s' + 1) s'))
          with (@printSameDepth _ _ builtinFmt heapSelf (S n) sliceCycle
                  (set_depth (depth s' + 1) s')).
        apply IH; [done | simpl; rewrite Hf'; lia | lia].
  Qed.

  (** [Sprint] of the self-containing slice, for every depth limit. *)
Lemma Sprint_self (D : Z) (n : nat) :
    0 < D -> (2 * Z.to_nat D + 1 <= n)%nat ->
    @Sprint builtinFmt heapSelf n (withMaxDepth D compact) sliceCycle
      = Some (selfRendering (Z.to_nat D)).
  Proof.
    intros HD Hn. unfold Sprint, Fprint, print.
    set (s0 := @initial string (withMaxDepth D compact) EmptyString).
    assert (MaxDepth (fmtr s0) = D) as HM.
    { unfold s0, initial, withDefaults. simpl. destruct (D <=? 0) eqn:E; [lia | done]. }
    assert (plain s0) as Hp.
    { unfold s0, initial, withDefaults. repeat split; simpl; lia. }
    assert (depth s0 = -1) as Hd0 by done.
    assert (w s0 = EmptyString) as Hw0 by done.
    clearbody s0.
    assert (depth s0 + 1 <= MaxDepth (fmtr s0)) as Hd by lia.
    assert (@printSameDepth _ _ builtinFmt heapSelf n sliceCycle (set_depth (depth s0 + 1) s0)
              = Done (emit (selfRendering (Z.to_nat D)) (set_depth (depth s0 + 1) s0))) as Hr.
    { apply printSameDepth_self; [done | simpl; lia | done]. }
    rewrite (deeper_emit _ s0 (selfRendering (Z.to_nat D)) Hd Hr).
    destruct Hp as (Hc & _). simpl. rewrite Hc, Hw0, andb_false_r. reflexivity.
  Qed.
  (** [s := []any{1, nil}; s[1] = &s], entered again through the pointer. *)
Lemma printSameDepth_reentered n s :
    plain s -> key backPointer ∈ seen s -> depth s + 1 <= MaxDepth (fmtr s) ->
    (3 <= n)%nat ->
    @printSameDepth _ _ builtinFmt heapCycle n sliceCycle s
      = Done (emit "[]{1, <cycle>}" s).
  Proof.
    intros Hp Hin Hd Hn. destruct n as [|[|[|n]]]; [lia|lia|lia|].
    change (@printSameDepth _ _ builtinFmt heapCycle (S (S (S n))) sliceCycle s)
      with (printSlice heapCycle
              (fun x => deeper (@printSameDepth _ _ builtinFmt heapCycle (S (S n)) x))
              sliceCycle s).
    rewrite (printSlice_pair heapCycle _ sliceCycle (any (int 1)) (any backPointer) s
               "1" "<cycle>"); try done.
    - intros s' Hp' (Hf' & Hd' & _). apply print_one; [done|]. rewrite Hf'. lia.
    - intros s' Hp' (Hf' & Hd' & Hs'). apply deeper_emit; [rewrite Hf'; lia|].
      change (@printSameDepth _ _ builtinFmt heapCycle (S (S n)) (any backPointer)
                (set_depth (depth s' + 1) s'))
        with (cycleCheck backPointer
                (@switch _ _ builtinFmt heapCycle
                   (@printSameDepth _ _ builtinFmt heapCycle n) backPointer)
                (set_depth (depth s' + 1) s')).
      unfold cycleCheck. change (isPointerKind (KindOf backPointer)) with true. cbv iota.
      rewrite bool_decide_eq_true_2 by (simpl; by rewrite Hs').
      by rewrite pr_emit.
  Qed.

Lemma emit_within k text s :
    k ∉ seen s ->
    set_seen (fun m => m ∖ {[k]}) (emit text (set_seen (fun m => {[k]} ∪ m) s))
      = emit text s.
  Proof.
    intros Hk. unfold emit, set_seen. simpl. f_equal. by apply seen_restore.
  Qed.

Lemma printSameDepth_cycle n s :
    plain s -> key backPointer ∉ seen s -> depth s + 2 <= MaxDepth (fmtr s) ->
    (6 <= n)%nat ->
    @printSameDepth _ _ builtinFmt heapCycle n sliceCycle s
      = Done (emit "[]{1, &[]{1, <cycle>}}" s).
  Proof.
    intros Hp Hin Hd Hn. destruct n as [|[|[|n]]]; [lia|lia|lia|].
    change (@printSameDepth _ _ builtinFmt heapCycle (S (S (S n))) sliceCycle s)
      with (printSlice heapCycle
              (fun x => deeper (@printSameDepth _ _ builtinFmt heapCycle (S (S n)) x))
              sliceCycle s).
    rewrite (printSlice_pair heapCycle _ sliceCycle (any (int 1)) (any backPointer) s
               "1" "&[]{1, <cycle>}"); try done.
    - intros s' Hp' (Hf' & Hd' & _). apply print_one; [done|]. rewrite Hf'. lia.
    - intros s' Hp' (Hf' & Hd' & Hs'). apply deeper_emit; [rewrite Hf'; lia|].
      set (s1 := set_depth (depth s' + 1) s').
      change (@printSameDepth _ _ builtinFmt heapCycle (S (S n)) (any backPointer) s1)
        with (cycleCheck backPointer
                (fun s2 => @printSameDepth _ _ builtinFmt heapCycle n sliceCycle (pr "&" s2))
                s1).
      unfold cycleCheck. change (isPointerKind (KindOf backPointer)) with true. cbv iota.
      assert (key backPointer ∉ seen s1) as Hn1 by (unfold s1; simpl; by rewrite Hs').
      rewrite bool_decide_eq_false_2 by done.
      assert (plain (set_seen (fun m => {[key backPointer]} ∪ m) s1)) as Hp1 by done.
      rewrite pr_emit by done.
      rewrite printSameDepth_reentered.
      + simpl deferred. rewrite emit_emit. by rewrite emit_within.
      + by apply emit_plain.
      + simpl. apply elem_of_union. left. by apply elem_of_singleton.
      + simpl. rewrite Hf'. lia.
      + lia.
  Qed.

  (** [Sprint] of the slice that holds a pointer to itself, for every compact
      formatter that neither limits the width nor the number of elements and
      whose depth limit, default included, is at least 2. *)
Lemma Sprint_cycle (f : Formatter) (n : nat) :
    Compact f = true -> MaxWidth f <= 0 -> MaxElements f <= 0 ->
    2 <= MaxDepth (withDefaults f) -> (6 <= n)%nat ->
    @Sprint builtinFmt heapCycle n f sliceCycle = Some "[]{1, &[]{1, <cycle>}}".
  Proof.
    intros Hc Hw Hm HD Hn. unfold Sprint, Fprint, print.
    set (s0 := @initial string f EmptyString).
    assert (plain s0) as Hp by (unfold s0, initial, withDefaults; repeat split; simpl; done).
    assert (MaxDepth (fmtr s0) = MaxDepth (withDefaults f)) as HM by done.
    assert (depth s0 = -1) as Hd0 by done.
    assert (w s0 = EmptyString) as Hw0 by done.
    assert (seen s0 = ∅) as Hs0 by done.
    clearbody s0.
    assert (depth s0 + 1 <= MaxDepth (fmtr s0)) as Hd by lia.
    assert (@printSameDepth _ _ builtinFmt heapCycle n sliceCycle (set_depth (depth s0 + 1) s0)
              = Done (emit "[]{1, &[]{1, <cycle>}}" (set_depth (depth s0 + 1) s0))) as Hr.
    { apply printSameDepth_cycle; [done | | simpl; lia | done].
      simpl. rewrite Hs0. apply not_elem_of_empty. }
    rewrite (deeper_emit _ s0 _ Hd Hr).
    destruct Hp as (Hc' & _). simpl. rewrite Hc', Hw0, andb_false_r. reflexivity.
  Qed.
End Plain.

(** ** Cycle reports *)

Section Reports.
  Context {W : Type} {Wr : Writer W} {F : Fmt}.
  Variable h : Heap.
  Implicit Types (s : state W).

Lemma printSameDepth_reentry m v s :
    IsValid v = true -> isPointerKind (KindOf v) = true -> key v ∈ seen s ->
    printSameDepth h (S m) v s = Done (pr "<cycle>" s).
  Proof.
    intros Hv Hp Hin. simpl. unfold printSameDepthBody, cycleCheck.
    rewrite Hv, Hp. simpl. by rewrite bool_decide_eq_true_2.
  Qed.

Lemma printSameDepth_first_entry m v s :
    IsValid v = true -> isPointerKind (KindOf v) = true -> key v ∉ seen s ->
    printSameDepth h (S m) v s
      = deferred (switch h (printSameDepth h m) v (set_seen (fun S => {[key v]} ∪ S) s))
                 (set_seen (fun S => S ∖ {[key v]})).
  Proof.
    intros Hv Hp Hin. simpl. unfold printSameDepthBody, cycleCheck.
    rewrite Hv, Hp. simpl. by rewrite bool_decide_eq_false_2.
  Qed.

Lemma printSameDepth_not_pointer m v s :
    IsValid v = true -> isPointerKind (KindOf v) = false ->
    printSameDepth h (S m) v s = switch h (printSameDepth h m) v s.
  Proof.
    intros Hv Hp. simpl. unfold printSameDepthBody, cycleCheck. by rewrite Hv, Hp.
  Qed.

Lemma sortable_no_maps : maps h = ∅ -> sortable h.
  Proof. intros Hm a kvs. rewrite Hm. by rewrite lookup_empty. Qed.
End Reports.

(** Two pointers have the same key only when they are the same pointer:
    the key holds the kind, the type and the address. *)
Lemma key_inj (v1 v2 : value) :
  isPointerKind (KindOf v1) = true -> isPointerKind (KindOf v2) = true ->
  key v1 = key v2 -> v1 = v2.
Proof.
  intros H1 H2 E.
  destruct v1 as [|? ?|? k1 ?|? k1 ?|? k1 ?|? k1 ? ?|? ?|? ?|? ?|? ?|? ?|? ?|? ?|? ?|? ?|? ?];
    try (by destruct k1); try done;
    destruct v2 as [|? ?|? k2 ?|? k2 ?|? k2 ?|? k2 ? ?|? ?|? ?|? ?|? ?|? ?|? ?|? ?|? ?|? ?|? ?];
    try (by destruct k2); try done;
    cbn [key KindOf] in E; by simplify_eq.
Qed.

(** The key of a pointer is in the visited set exactly when the pointer
    itself is on the path. *)
Lemma onPathOnly_report (ev : event) :
  onPathOnly ev -> isPointerKind (KindOf (entered ev)) = true ->
  (key (entered ev) ∈ visited ev <-> entered ev ∈ onPath ev).
Proof.
  intros (-> & _ & Hk) Hp. rewrite elem_of_list_to_set, list_elem_of_fmap. split.
  - intros (p & Ek & Hin). rewrite Forall_forall in Hk.
    assert (entered ev = p) as ->; [|done].
    apply key_inj; [done | | done]. apply Hk. by apply list_elem_of_In.
  - intros Hin. by exists (entered ev).
Qed.

(** An entry is reported as a cycle exactly when the value entered is a
    pointer that is on the path. *)
Lemma report_reentered (ev : event) :
  onPathOnly ev -> (isCycleReport ev = true <-> reentered ev).
Proof.
  intros Hev. unfold isCycleReport, reentered. split.
  - intros E. apply andb_prop in E as [E Hin]. apply andb_prop in E as [_ Hp].
    split; [done|]. apply onPathOnly_report; [done | done|]. by apply bool_decide_eq_true in Hin.
  - intros [Hp Hin]. rewrite Hp.
    assert (IsValid (entered ev) = true) as -> by (by destruct (entered ev)).
    simpl. apply bool_decide_eq_true. by apply onPathOnly_report.
Qed.

Lemma no_pointer_no_report (evs : list event) :
  Forall (fun ev => isPointerKind (KindOf (entered ev)) = false) evs ->
  filter (fun ev => isCycleReport ev = true) evs = [].
Proof.
  induction 1 as [|ev evs Hev _ IH]; [done|].
  rewrite filter_cons. destruct (decide (isCycleReport ev = true)) as [E|_]; [|done].
  unfold isCycleReport in E. rewrite Hev in E. by rewrite andb_false_r in E.
Qed.

(** ** Placeholders in the rendering of the self-containing slice *)

Lemma prefix_closing (pat x : string) :
  forallb (fun c => negb (Ascii.eqb c "}")) (list_ascii_of_string pat) = true ->
  String.prefix pat (x +:+ "}") = String.prefix pat x.
Proof.
  revert x. induction pat as [|a pat IH]; intros x Hp.
  { by destruct x. }
  cbn [list_ascii_of_string forallb] in Hp.
  apply andb_prop in Hp as [Ha Hp]. apply negb_true_iff, Ascii.eqb_neq in Ha.
  destruct x as [|c x].
  - change (EmptyString +:+ "}") with "}".
    cbn [String.prefix]. by destruct (Ascii.ascii_dec a "}").
  - change (String c x +:+ "}") with (String c (x +:+ "}")).
    cbn [String.prefix]. destruct (Ascii.ascii_dec a c); [|done]. by apply IH.
Qed.

Lemma occurrences_closing (pat x : string) :
  forallb (fun c => negb (Ascii.eqb c "}")) (list_ascii_of_string pat) = true ->
  pat <> EmptyString ->
  occurrences pat (x +:+ "}") = occurrences pat x.
Proof.
  intros Hp Hne. induction x as [|c x IH].
  - change (EmptyString +:+ "}") with "}".
    destruct pat as [|a pat]; [done|].
    cbn [list_ascii_of_string forallb] in Hp.
    apply andb_prop in Hp as [Ha Hp]. apply negb_true_iff, Ascii.eqb_neq in Ha.
    cbn [occurrences String.prefix]. by destruct (Ascii.ascii_dec a "}").
  - change (String c x +:+ "}") with (String c (x +:+ "}")).
    cbn [occurrences]. rewrite IH.
    change (String c (x +:+ "}")) with (String c x +:+ "}").
    by rewrite prefix_closing.
Qed.

Lemma selfRendering_placeholders (k : nat) :
  occurrences "<maxdepth>" (selfRendering k) = 2%nat /\
  occurrences "<cycle>" (selfRendering k) = 0%nat.
Proof.
  induction k as [|k [IH1 IH2]]; [by vm_compute|].
  change (selfRendering (S k)) with ("[]{1, " +:+ (selfRendering k +:+ "}")).
  split.
  - change (occurrences "<maxdepth>" ("[]{1, " +:+ (selfRendering k +:+ "}")))
      with (occurrences "<maxdepth>" (selfRendering k +:+ "}")).
    by rewrite occurrences_closing.
  - change (occurrences "<cycle>" ("[]{1, " +:+ (selfRendering k +:+ "}")))
      with (occurrences "<cycle>" (selfRendering k +:+ "}")).
    by rewrite occurrences_closing.
Qed.

(** ** What the sort of the keys returns *)

Section Sorted.
  Context {A : Type} (cmp : A -> A -> option Z).
  Hypothesis cmp_swap : forall a b, cmp b a = Z.opp <$> cmp a b.

Lemma notAfter_swap a b z : cmp a b = Some z -> 0 <= z -> notAfter cmp b a.
  Proof. intros E Hz. exists (- z). rewrite cmp_swap, E. split; [done | lia]. Qed.

Lemma StronglySorted_rev_flip (R : A -> A -> Prop) l :
    Sorted.StronglySorted (flip R) l -> Sorted.StronglySorted R (rev l).
  Proof.
    induction 1 as [|x l Hl IH Hx]; simpl; [constructor|].
    apply sorting.StronglySorted_app_2; [|done|repeat constructor].
    intros a b Ha Hb. apply list_elem_of_singleton in Hb as ->.
    rewrite Forall_forall in Hx. apply Hx. apply in_rev. by apply list_elem_of_In.
  Qed.

Lemma insertLeft_sorted (x : A) (p p' : list A) :
    (forall a b c, a ∈ x :: p -> b ∈ x :: p -> c ∈ x :: p ->
       notAfter cmp a b -> notAfter cmp b c -> notAfter cmp a c) ->
    Sorted.StronglySorted (flip (notAfter cmp)) p ->
    insertLeft cmp x p = Some p' ->
    Sorted.StronglySorted (flip (notAfter cmp)) p'.
  Proof.
    revert p'. induction p as [|y p IH]; intros p' Htr Hs; simpl.
    { intros [= <-]. repeat constructor. }
    destruct (cmp x y) as [c|] eqn:Exy; simpl; [|done].
    apply sorting.StronglySorted_cons in Hs as [Hy Hs].
    destruct (c <? 0) eqn:Ec.
    - destruct (insertLeft cmp x p) as [r|] eqn:Er; simpl; [|done].
      intros [= <-]. constructor.
      + apply (IH r); [|done|done].
        intros a b c' Ha Hb Hc. apply Htr.
        * apply elem_of_cons in Ha as [->|Ha]; [left|right; by right].
        * apply elem_of_cons in Hb as [->|Hb]; [left|right; by right].
        * apply elem_of_cons in Hc as [->|Hc]; [left|right; by right].
      + apply Forall_forall. intros e He. apply list_elem_of_In in He.
        rewrite (insertLeft_perm cmp x p r Er) in He.
        apply elem_of_cons in He as [->|He].
        * exists c. split; [done | lia].
        * rewrite Forall_forall in Hy. by apply Hy, list_elem_of_In.
    - intros [= <-]. assert (notAfter cmp y x) as Hyx.
      { apply (notAfter_swap x y c Exy). lia. }
      constructor; [by constructor|].
      constructor; [done|]. apply Forall_forall. intros e He.
      rewrite Forall_forall in Hy.
      apply (Htr e y x);
        [right; right; by apply list_elem_of_In | right; left | left | by apply Hy | done].
  Qed.

Lemma insertionSort_sorted (p l r : list A) :
    (forall a b c, a ∈ (p ++ l)%list -> b ∈ (p ++ l)%list -> c ∈ (p ++ l)%list ->
       notAfter cmp a b -> notAfter cmp b c -> notAfter cmp a c) ->
    Sorted.StronglySorted (flip (notAfter cmp)) p ->
    insertionSort cmp p l = Some r ->
    Sorted.StronglySorted (notAfter cmp) r.
  Proof.
    revert p r. induction l as [|x l IH]; intros p r Htr Hs; simpl.
    { intros [= <-]. by apply StronglySorted_rev_flip. }
    destruct (insertLeft cmp x p) as [p'|] eqn:E; simpl; [|done].
    assert (forall a, a ∈ (p' ++ l)%list -> a ∈ (p ++ x :: l)%list) as Hin.
    { intros a Ha. apply elem_of_app in Ha as [Ha|Ha].
      - rewrite (insertLeft_perm cmp x p p' E) in Ha.
        apply elem_of_cons in Ha as [->|Ha]; apply elem_of_app; [right; left | by left].
      - apply elem_of_app. right. by right. }
    apply IH.
    - intros a b c Ha Hb Hc. apply Htr; by apply Hin.
    - apply (insertLeft_sorted x p p'); [|done|done].
      intros a b c Ha Hb Hc. apply Htr.
      + apply elem_of_cons in Ha as [->|Ha]; apply elem_of_app; [right; left | by left].
      + apply elem_of_cons in Hb as [->|Hb]; apply elem_of_app; [right; left | by left].
      + apply elem_of_cons in Hc as [->|Hc]; apply elem_of_app; [right; left | by left].
  Qed.

Lemma SortFunc_sorted (l r : list A) :
    (forall a b c, a ∈ l -> b ∈ l -> c ∈ l ->
       notAfter cmp a b -> notAfter cmp b c -> notAfter cmp a c) ->
    SortFunc cmp l = Some r -> Sorted.StronglySorted (notAfter cmp) r.
  Proof. intros Htr. apply insertionSort_sorted; [done | constructor]. Qed.

Lemma SortFunc_unique (l1 l2 r1 r2 : list A) :
    (forall a b c, a ∈ l1 -> b ∈ l1 -> c ∈ l1 ->
       notAfter cmp a b -> notAfter cmp b c -> notAfter cmp a c) ->
    (forall a b, a ∈ l1 -> b ∈ l1 -> cmp a b = Some 0 -> a = b) ->
    l1 ≡ₚ l2 ->
    SortFunc cmp l1 = Some r1 -> SortFunc cmp l2 = Some r2 -> r1 = r2.
  Proof.
    intros Htr Hanti Hp E1 E2.
    assert (r1 ≡ₚ l1) as P1 by by eapply SortFunc_perm.
    assert (r2 ≡ₚ l2) as P2 by by eapply SortFunc_perm.
    apply (sorting.StronglySorted_unique_strong (notAfter cmp)).
    - intros a b Ha Hb (x & Ex & Hx) (y & Ey & Hy).
      rewrite cmp_swap, Ex in Ey. simpl in Ey. injection Ey as <-.
      apply Hanti; [by rewrite <- P1 | by rewrite Hp, <- P2|].
      rewrite Ex. f_equal. lia.
    - by apply (SortFunc_sorted l1).
    - apply (SortFunc_sorted l2); [|done].
      intros a b c Ha Hb Hc. apply Htr; by rewrite Hp.
    - by rewrite P1, Hp, P2.
  Qed.
End Sorted.

(** ** When the sort of the keys panics *)

Section SortPanics.
  Context {A : Type} (cmp : A -> A -> option Z).

Lemma insertLeft_nonempty (x : A) (p p' : list A) :
    insertLeft cmp x p = Some p' -> p' <> [].
  Proof.
    destruct p as [|y p]; simpl; [by intros [= <-]|].
    destruct (cmp x y) as [c|]; simpl; [|done].
    destruct (c <? 0); [|by intros [= <-]].
    destruct (insertLeft cmp x p); simpl; [|done]. by intros [= <-].
  Qed.

Lemma insertLeft_comparable (x : A) (p : list A) :
    (forall y, y ∈ p -> is_Some (cmp x y)) -> is_Some (insertLeft cmp x p).
  Proof.
    induction p as [|y p IH]; intros Hc; simpl; [done|].
    destruct (Hc y) as [c ->]; [left|]. simpl.
    destruct (c <? 0); [|done].
    destruct IH as [r ->]; [|done]. intros z Hz. apply Hc. by right.
  Qed.

Lemma insertionSort_comparable (p l : list A) :
    (forall x y, x ∈ (p ++ l)%list -> y ∈ (p ++ l)%list -> is_Some (cmp x y)) ->
    is_Some (insertionSort cmp p l).
  Proof.
    revert p. induction l as [|x l IH]; intros p Hc; simpl; [done|].
    destruct (insertLeft_comparable x p) as [p' E].
    { intros y Hy. apply Hc; apply elem_of_app; [right; left | by left]. }
    rewrite E. simpl. apply IH. intros a b Ha Hb.
    assert (forall a, a ∈ (p' ++ l)%list -> a ∈ (p ++ x :: l)%list) as Hin.
    { intros e He. apply elem_of_app in He as [He|He].
      - rewrite (insertLeft_perm cmp x p p' E) in He.
        apply elem_of_cons in He as [->|He]; apply elem_of_app; [right; left | by left].
      - apply elem_of_app. right. by right. }
    apply Hc; by apply Hin.
  Qed.

Lemma insertionSort_refused (k : A) (p l : list A) :
    (forall y, y ∈ (p ++ l)%list -> cmp k y = None) ->
    p <> [] -> k ∈ l -> insertionSort cmp p l = None.
  Proof.
    revert p. induction l as [|x l IH]; intros p Hk Hp Hin; [by apply elem_of_nil in Hin|].
    simpl. destruct (insertLeft cmp x p) as [p'|] eqn:E; simpl; [|done].
    apply elem_of_cons in Hin as [->|Hin].
    - destruct p as [|y p]; [done|]. simpl in E.
      rewrite (Hk y) in E; [done|]. left.
    - apply IH; [|by eapply insertLeft_nonempty|done].
      intros y Hy. apply Hk. apply elem_of_app in Hy as [Hy|Hy].
      + rewrite (insertLeft_perm cmp x p p' E) in Hy.
        apply elem_of_cons in Hy as [->|Hy]; apply elem_of_app; [right; left | by left].
      + apply elem_of_app. right. by right.
  Qed.

Lemma SortFunc_refused (k : A) (l : list A) :
    (forall y, y ∈ l -> cmp k y = None /\ cmp y k = None) ->
    (2 <= length l)%nat -> k ∈ l -> SortFunc cmp l = None.
  Proof.
    intros Hk Hl Hin. destruct l as [|x [|y l]]; simpl in Hl; [lia|lia|].
    unfold SortFunc. simpl.
    apply elem_of_cons in Hin as [->|Hin].
    - destruct (Hk y) as [_ ->]; [right; left | done].
    - destruct (cmp y x) as [c|] eqn:Eyx; simpl; [|done].
      apply elem_of_cons in Hin as [->|Hin].
      { destruct (Hk x) as [E _]; [left|]. congruence. }
      destruct (c <? 0); simpl; apply (insertionSort_refused k); try done.
      + intros e He. apply Hk. simpl in He.
        apply elem_of_cons in He as [->|He]; [left|].
        apply elem_of_cons in He as [->|He]; [right; left | right; by right].
      + intros e He. apply Hk. simpl in He.
        apply elem_of_cons in He as [->|He]; [right; left|].
        apply elem_of_cons in He as [->|He]; [left | right; by right].
  Qed.
End SortPanics.

Section KeyOrder.
  Context `{Fmt}.

Lemma compareValues_None a b :
    compareValues a b = None <->
    IsValid a = true /\ IsValid b = true /\
    (isNilInterface a = true \/ isNilInterface b = true).
  Proof.
    unfold compareValues.
    destruct (IsValid a) eqn:Va, (IsValid b) eqn:Vb; simpl;
      try (split; [done | by intros (? & ? & _)]).
    pose proof (unwrap_nil_interface a Va) as Ha.
    pose proof (unwrap_nil_interface b Vb) as Hb.
    destruct (TypeOf (unwrap a)) as [ta|] eqn:Ta; simpl.
    2:{ split; [|done]. intros _. split; [done|]. split; [done|]. left. by apply Ha. }
    destruct (TypeOf (unwrap b)) as [tb|] eqn:Tb; simpl.
    2:{ split; [|done]. intros _. split; [done|]. split; [done|]. right. by apply Hb. }
    assert (isNilInterface a = false) as Na.
    { destruct (isNilInterface a); [|done]. discriminate (proj2 Ha eq_refl). }
    assert (isNilInterface b = false) as Nb.
    { destruct (isNilInterface b); [|done]. discriminate (proj2 Hb eq_refl). }
    rewrite Na, Nb.
    split; [|intros (_ & _ & [|]); done].
    case_bool_decide as Hne; [done|].
    assert (ta = tb) as -> by (destruct (decide (ta = tb)); [done | by destruct Hne]).
    destruct (same_type_same_shape _ _ _ Ta Tb) as (Ei & Eu & Ef & Hi & Hu & Hf).
    destruct (CanInt (unwrap a)) eqn:Ci.
    { by destruct (Hi eq_refl) as [[x ->] [y ->]]. }
    destruct (CanUint (unwrap a)) eqn:Cu.
    { by destruct (Hu eq_refl) as [[x ->] [y ->]]. }
    destruct (CanFloat (unwrap a)) eqn:Cf.
    { by destruct (Hf eq_refl) as [[x ->] [y ->]]. }
    done.
  Qed.

Lemma byKey_swap kv1 kv2 : byKey kv2 kv1 = Z.opp <$> byKey kv1 kv2.
  Proof. apply compareValues_swap. Qed.

Lemma notAfter_byKey_trans (kv1 kv2 kv3 : value * value) :
    typeNamesDistinct (fst kv1) (fst kv2) = true ->
    notAfter byKey kv1 kv2 -> notAfter byKey kv2 kv3 -> notAfter byKey kv1 kv3.
  Proof.
    intros Hd (x & Ex & Hx) (y & Ey & Hy).
    by apply (compareValues_le_trans (fst kv1) (fst kv2) (fst kv3) x y (or_introl Hd)).
  Qed.
End KeyOrder.

Section KeyLists.
  Context `{Fmt}.

Lemma namesTellApart_spec kvs kv1 kv2 :
    namesTellApart kvs = true -> kv1 ∈ kvs -> kv2 ∈ kvs ->
    typeNamesDistinct (fst kv1) (fst kv2) = true.
  Proof.
    unfold namesTellApart. rewrite forallb_forall. intros Hall H1 H2.
    apply list_elem_of_In in H1, H2. specialize (Hall kv1 H1).
    rewrite forallb_forall in Hall. by apply Hall.
  Qed.

Lemma keysValid_spec kvs kv : keysValid kvs = true -> kv ∈ kvs -> IsValid (fst kv) = true.
  Proof.
    unfold keysValid. rewrite forallb_forall. intros Hall Hin.
    by apply Hall, list_elem_of_In.
  Qed.

Lemma sorted_keys_trans kvs (a b c : value * value) :
    namesTellApart kvs = true -> a ∈ kvs -> b ∈ kvs -> c ∈ kvs ->
    notAfter byKey a b -> notAfter byKey b c -> notAfter byKey a c.
  Proof.
    intros Hn Ha Hb Hc. apply notAfter_byKey_trans. by apply (namesTellApart_spec kvs).
  Qed.

Lemma SortFunc_byKey_None kvs :
    keysValid kvs = true ->
    SortFunc byKey kvs = None <-> (2 <= length kvs)%nat /\ hasNilKey kvs = true.
  Proof.
    intros Hv. split.
    - intros E. destruct (hasNilKey kvs) eqn:En.
      + split; [|done]. destruct kvs as [|kv1 [|kv2 kvs]]; simpl; [done| |lia].
        by vm_compute in E.
      + exfalso. destruct (insertionSort_comparable byKey [] kvs) as [r Er].
        * intros x y Hx Hy. simpl in Hx, Hy.
          destruct (byKey x y) as [z|] eqn:Exy; [done|]. exfalso.
          apply compareValues_None in Exy as (_ & _ & Hnil).
          unfold hasNilKey in En.
          assert (existsb (fun kv => isNilInterface (fst kv)) kvs = true); [|congruence].
          apply existsb_exists.
          destruct Hnil as [Hnil|Hnil]; [exists x | exists y];
            (split; [by apply list_elem_of_In | done]).
        * unfold SortFunc in E. congruence.
    - intros [Hl Hn]. unfold hasNilKey in Hn. apply existsb_exists in Hn as (k & Hk & Hnil).
      apply (SortFunc_refused byKey k); [|done|by apply list_elem_of_In].
      intros y Hy. pose proof (keysValid_spec kvs y Hv Hy) as Vy.
      pose proof (keysValid_spec kvs k Hv) as Vk.
      split; apply compareValues_None.
      + split; [apply Vk; by apply list_elem_of_In|]. split; [done|]. by left.
      + split; [done|]. split; [apply Vk; by apply list_elem_of_In|]. by right.
  Qed.
End KeyLists.

(** ** The column counter *)

Lemma lastIndexFrom_colAfter (str : string) :
  forall i acc c,
    acc < i ->
    (lastIndexFrom nl_byte str i acc = acc /\ colAfter c str = c + len str) \/
    (i <= lastIndexFrom nl_byte str i acc < i + len str /\
     colAfter c str = i + len str - lastIndexFrom nl_byte str i acc - 1).
Proof.
  induction str as [|x rest IH]; intros i acc c Hacc.
  { left. simpl. unfold len. simpl. split; [done | lia]. }
  cbn [lastIndexFrom colAfter].
  assert (len (String x rest) = 1 + len rest) as ->.
  { unfold len. simpl String.length. lia. }
  pose proof (len_nonneg rest) as Hl.
  destruct (Ascii.eqb x nl_byte).
  - right. destruct (IH (i + 1) i 0) as [[-> Hc] | [Hj Hc]]; [lia | |];
      (split; [lia | rewrite Hc; lia]).
  - destruct (IH (i + 1) acc (c + 1)) as [[-> Hc] | [Hj Hc]]; [lia | |].
    + left. split; [done | lia].
    + right. split; [lia | rewrite Hc; lia].
Qed.

Lemma colAfter_append (a b : string) c : colAfter c (a +:+ b) = colAfter (colAfter c a) b.
Proof.
  revert c. induction a as [|x a IH]; intros c; [done|].
  change (String x a +:+ b) with (String x (a +:+ b)). cbn [colAfter]. apply IH.
Qed.

Lemma colAfter_zero (text : string) c :
  0 <= c -> colAfter c text = 0 ->
  (c = 0 /\ text = EmptyString) \/ exists t, text = t +:+ nl.
Proof.
  revert c. induction text as [|x rest IH]; intros c Hc; cbn [colAfter].
  { intros ->. by left. }
  intros E. right. destruct (Ascii.eqb x nl_byte) eqn:Ex.
  - apply Ascii.eqb_eq in Ex as ->.
    destruct (IH 0) as [[_ ->] | [t ->]]; [lia | done | |].
    + by exists EmptyString.
    + by exists (String nl_byte t).
  - destruct (IH (c + 1)) as [[Hc1 _] | [t ->]]; [lia | done | lia |].
    by exists (String x t).
Qed.

Lemma append_empty_r (a : string) : a +:+ EmptyString = a.
Proof.
  induction a as [|x a IH]; [done|].
  change (String x a +:+ EmptyString) with (String x (a +:+ EmptyString)). by rewrite IH.
Qed.

Section BufferFacts.
  Context {F : Fmt}.
  Implicit Types (s : state string) (str : string).

Lemma write_col_scans str s :
    err s = None -> col (write str s) = colAfter (col s) str.
  Proof.
    intros He. unfold write. rewrite He. simpl. unfold LastIndex.
    destruct (lastIndexFrom_colAfter str 0 (-1) (col s)) as [[-> Hc] | [Hj Hc]]; [lia | |].
    - simpl. by rewrite Hc.
    - destruct (0 <=? lastIndexFrom nl_byte str 0 (-1)) eqn:E; [|lia]. rewrite Hc. lia.
  Qed.

  (** What every write to a buffer keeps: no error, and the earlier content. *)
Lemma buffer_inv (buf : string) (h : Heap) (n : nat) (x : value) s :
    err s = None -> (exists t, w s = buf +:+ t) ->
    let s' := stateOf (print h n x s) in
    err s' = None /\ (exists t, w s' = buf +:+ t).
  Proof.
    intros He Hw. simpl.
    apply (print_inv h (fun s0 : state string => err s0 = None /\ exists t, w s0 = buf +:+ t));
      try done.
    intros str s0 (He0 & t & Hw0). unfold write. rewrite He0. simpl. split; [done|].
    exists (t +:+ str). by rewrite Hw0, append_assoc.
  Qed.

Lemma buffer_col_inv (h : Heap) (n : nat) (x : value) s :
    err s = None -> col s = colAfter 0 (w s) ->
    let s' := stateOf (print h n x s) in
    err s' = None /\ col s' = colAfter 0 (w s').
  Proof.
    intros He Hc. simpl.
    apply (print_inv h (fun s0 : state string => err s0 = None /\ col s0 = colAfter 0 (w s0)));
      try done.
    intros str s0 (He0 & Hc0). split.
    - unfold write. by rewrite He0.
    - rewrite write_col_scans by done. unfold write. rewrite He0. simpl.
      by rewrite colAfter_append, Hc0.
  Qed.
End BufferFacts.

(** ** Fields that are not printed *)

Section Fields.
  Context {W : Type} `{Writer W} `{Fmt}.
  Variable h : Heap.
  Variable print : value -> state W -> result W.
  Hypothesis print_framed : forall e, framed (print e).
  Implicit Types (s : state W).

Lemma andThen_ext (r : result W) (k1 k2 : state W -> result W) :
    (forall s, r = Done s -> k1 s = k2 s) -> andThen r k1 = andThen r k2.
  Proof. destruct r; simpl; auto. Qed.

Lemma structLoop_filter ign z first (fs : list (StructField * value)) s :
    ShowZero (fmtr s) = z ->
    structLoop h print ign first fs s
      = structLoop h print ign first (List.filter (fieldShown h ign z) fs) s.
  Proof.
    revert first s. induction fs as [|[sf x] fs IH]; intros first s Ez; [done|].
    cbn [List.filter structLoop]. unfold fieldShown at 1. cbn [fst snd]. rewrite Ez.
    destruct (existsb (String.eqb (Name sf)) ign) eqn:Ei; cbn [negb andb]; [by apply IH|].
    destruct (IsExported sf) eqn:Ee; cbn [negb andb]; [|by apply IH].
    destruct (negb z && IsZero h x) eqn:E0.
    { assert (z || negb (IsZero h x) = false) as -> by (by destruct z, (IsZero h x)).
      by apply IH. }
    assert (z || negb (IsZero h x) = true) as -> by (by destruct z, (IsZero h x)).
    cbn [structLoop]. rewrite Ei, Ee, Ez, E0. cbn [negb].
    apply andThen_ext. intros s2 E2. apply andThen_ext. intros s3 E3.
    assert (fmtr s3 = fmtr s) as Hf.
    { apply fieldName_framed in E2 as (F2 & _). apply print_framed in E3 as (F3 & _).
      rewrite F3, fmtr_between, F2.
      by destruct (negb first && Compact (fmtr s)); rewrite ?fmtr_pr. }
    apply IH. destruct (negb (Compact (fmtr s3))); rewrite ?fmtr_pr, Hf; done.
  Qed.

Lemma printStruct_filter t (fs : list (StructField * value)) s :
    printStruct h print (VStruct t fs) s
      = printStruct h print
          (VStruct t
             (List.filter
                (fieldShown h
                   (default [] (ignoreFields (fmtr s) !! {| rkind := Struct; rname := t |}))
                   (ShowZero (fmtr s))) fs)) s.
  Proof.
    unfold printStruct. cbn [TypeOf nameOf KindOf fields].
    set (ign := default [] (ignoreFields (fmtr s) !! {| rkind := Struct; rname := t |})).
    f_equal. apply structLoop_filter.
    destruct (negb (Compact (fmtr (pr (typeName {| rkind := Struct; rname := t |} s +:+ "{") s))));
      by rewrite ?fmtr_pr.
  Qed.
End Fields.

(** ** Cutting the package off a type name *)

Lemma lastIndexFrom_absent c (text : string) i acc :
  absent c text = true -> lastIndexFrom c text i acc = acc.
Proof.
  revert i acc. induction text as [|x text IH]; intros i acc; [done|].
  unfold absent. cbn [list_ascii_of_string forallb lastIndexFrom].
  intros [Hx Ht]%andb_prop. apply negb_true_iff in Hx. rewrite Hx. by apply IH.
Qed.

Lemma lastIndexFrom_append c (a b : string) i acc :
  lastIndexFrom c (a +:+ b) i acc = lastIndexFrom c b (i + len a) (lastIndexFrom c a i acc).
Proof.
  revert i acc. induction a as [|x a IH]; intros i acc.
  { change (EmptyString +:+ b) with b. unfold len. simpl. f_equal. lia. }
  change (String x a +:+ b) with (String x (a +:+ b)). cbn [lastIndexFrom].
  rewrite IH. f_equal. unfold len. simpl String.length. lia.
Qed.

Lemma substring_whole (b : string) : substring 0 (String.length b) b = b.
Proof. induction b as [|x b IH]; [done|]. simpl. by rewrite IH. Qed.

Lemma substring_after (a b : string) :
  substring (String.length a) (String.length b) (a +:+ b) = b.
Proof.
  induction a as [|x a IH].
  - change (EmptyString +:+ b) with b. apply substring_whole.
  - change (String x a +:+ b) with (String x (a +:+ b)). simpl. apply IH.
Qed.

Lemma length_append (a b : string) :
  String.length (a +:+ b) = (String.length a + String.length b)%nat.
Proof.
  induction a as [|x a IH]; [done|].
  change (String x a +:+ b) with (String x (a +:+ b)). simpl. by rewrite IH.
Qed.

Lemma LastIndex_qualified (pkg base : string) :
  absent "." base = true -> LastIndex (pkg +:+ "." +:+ base) "." = len pkg.
Proof.
  intros Hb. unfold LastIndex. rewrite lastIndexFrom_append.
  change ("." +:+ base) with (String "." base). cbn [lastIndexFrom].
  rewrite Ascii.eqb_refl. by rewrite lastIndexFrom_absent.
Qed.

(** ** The ignore list *)

Lemma ignored_not_shown (h : Heap) (ignore : list string) (z : bool)
    (fv : StructField * value) :
  Name (fst fv) ∈ ignore -> fieldShown h ignore z fv = false.
Proof.
  intros Hin. unfold fieldShown.
  assert (existsb (String.eqb (Name (fst fv))) ignore = true) as ->; [|done].
  apply existsb_exists. exists (Name (fst fv)).
  split; [by apply list_elem_of_In | apply String.eqb_refl].
Qed.

(** ** Integer keys *)

Section IntKeys.
  Context `{Fmt}.

Lemma intKeys_spec tn k kvs kv :
    intKeys tn k kvs = true -> kv ∈ kvs -> exists n, unwrap (fst kv) = VInt tn k n.
  Proof.
    unfold intKeys. rewrite forallb_forall. intros Hall Hin.
    apply list_elem_of_In in Hin. specialize (Hall kv Hin).
    destruct (unwrap (fst kv)); try done.
    apply bool_decide_eq_true_1 in Hall as [-> ->]. by eexists.
  Qed.

Lemma unwrap_VInt_valid v tn k n : unwrap v = VInt tn k n -> IsValid v = true.
  Proof. by destruct v. Qed.

Lemma byKey_ints tn k (kv1 kv2 : value * value) n1 n2 :
    unwrap (fst kv1) = VInt tn k n1 -> unwrap (fst kv2) = VInt tn k n2 ->
    byKey kv1 kv2 = Some (Compare_int n1 n2).
  Proof.
    intros E1 E2. unfold byKey, compareValues.
    rewrite (unwrap_VInt_valid _ _ _ _ E1), (unwrap_VInt_valid _ _ _ _ E2). simpl.
    rewrite E1, E2. simpl.
    rewrite bool_decide_eq_false_2 by (intros Hc; by apply Hc). done.
  Qed.

Lemma intKeys_namesTellApart tn k kvs : intKeys tn k kvs = true -> namesTellApart kvs = true.
  Proof.
    intros Hi. unfold namesTellApart. apply forallb_forall. intros kv1 H1.
    apply forallb_forall. intros kv2 H2.
    destruct (intKeys_spec tn k kvs kv1 Hi) as [n1 E1]; [by apply list_elem_of_In|].
    destruct (intKeys_spec tn k kvs kv2 Hi) as [n2 E2]; [by apply list_elem_of_In|].
    unfold typeNamesDistinct. rewrite E1, E2. simpl.
    rewrite bool_decide_eq_true_2 by done. by destruct (String.eqb _ _).
  Qed.

Lemma intKeys_sortable tn k kvs :
    intKeys tn k kvs = true -> is_Some (SortFunc byKey kvs).
  Proof.
    intros Hi. apply insertionSort_comparable. intros x y Hx Hy. simpl in Hx, Hy.
    destruct (intKeys_spec tn k kvs x Hi Hx) as [n1 E1].
    destruct (intKeys_spec tn k kvs y Hi Hy) as [n2 E2].
    by rewrite (byKey_ints tn k x y n1 n2).
  Qed.
End IntKeys.

Lemma StronglySorted_weaken {A : Type} (R R' : A -> A -> Prop) (l : list A) :
  (forall a b, a ∈ l -> b ∈ l -> R a b -> R' a b) ->
  Sorted.StronglySorted R l -> Sorted.StronglySorted R' l.
Proof.
  intros Himp Hs. induction Hs as [|x l Hl IH Hx]; [constructor|].
  constructor.
  - apply IH. intros a b Ha Hb. apply Himp; by right.
  - rewrite Forall_forall in Hx. apply Forall_forall. intros y Hy.
    apply Himp; [left | right; by apply list_elem_of_In | by apply Hx].
Qed.

(** ** The output does not depend on the order of the keys in memory *)

Section KeyPermutation.
  Context `{Fmt}.

Lemma keysValid_perm l1 l2 : l1 ≡ₚ l2 -> keysValid l1 = keysValid l2.
  Proof.
    intros Hp. unfold keysValid. apply eq_true_iff_eq. rewrite !forallb_forall.
    split; intros Hall kv Hin; apply Hall;
      apply list_elem_of_In; apply list_elem_of_In in Hin; by rewrite ?Hp, <- ?Hp in *.
  Qed.

Lemma hasNilKey_perm l1 l2 : l1 ≡ₚ l2 -> hasNilKey l1 = hasNilKey l2.
  Proof.
    intros Hp. unfold hasNilKey. apply eq_true_iff_eq. rewrite !existsb_exists.
    split; intros (kv & Hin & Hk); exists kv; (split; [|done]);
      apply list_elem_of_In; apply list_elem_of_In in Hin; by rewrite ?Hp, <- ?Hp in *.
  Qed.

Lemma SortFunc_byKey_perm (l1 l2 : list (value * value)) :
    l1 ≡ₚ l2 ->
    keysValid l1 = true -> namesTellApart l1 = true ->
    (forall kv1 kv2, kv1 ∈ l1 -> kv2 ∈ l1 -> byKey kv1 kv2 = Some 0 -> kv1 = kv2) ->
    SortFunc byKey l1 = SortFunc byKey l2.
  Proof.
    intros Hp Hv Hn Hsep.
    assert (keysValid l2 = true) as Hv2 by by rewrite <- (keysValid_perm l1 l2 Hp).
    destruct (SortFunc byKey l1) as [r1|] eqn:E1, (SortFunc byKey l2) as [r2|] eqn:E2.
    - f_equal. apply (SortFunc_unique byKey byKey_swap l1 l2 r1 r2); try done.
      intros a b c. by apply sorted_keys_trans.
    - apply (SortFunc_byKey_None l2 Hv2) in E2 as [Hl Hk].
      assert (SortFunc byKey l1 = None); [|congruence].
      apply (SortFunc_byKey_None l1 Hv). split.
      + by rewrite (Permutation_length Hp).
      + by rewrite (hasNilKey_perm l1 l2 Hp).
    - apply (SortFunc_byKey_None l1 Hv) in E1 as [Hl Hk].
      assert (SortFunc byKey l2 = None); [|congruence].
      apply (SortFunc_byKey_None l2 Hv2). split.
      + by rewrite <- (Permutation_length Hp).
      + by rewrite <- (hasNilKey_perm l1 l2 Hp).
    - done.
  Qed.
End KeyPermutation.

Lemma forallb_ext_in {A : Type} (f g : A -> bool) (l : list A) :
  (forall x, In x l -> f x = g x) -> forallb f l = forallb g l.
Proof.
  induction l as [|x l IH]; intros Hfg; [done|]. simpl.
  rewrite (Hfg x) by by left. rewrite IH; [done|]. intros y Hy. apply Hfg. by right.
Qed.

Lemma height_elem (es : list value) (e : value) :
  In e es -> (height e <= list_max (map height es))%nat.
Proof.
  induction es as [|x es IH]; [done|]. intros [->|Hin]; simpl; [lia|].
  specialize (IH Hin). lia.
Qed.

Lemma height_field {A : Type} (fs : list (A * value)) (fv : A * value) :
  In fv fs -> (height (snd fv) <= list_max (map (fun p => height (snd p)) fs))%nat.
Proof.
  induction fs as [|x fs IH]; [done|]. intros [->|Hin]; simpl; [lia|].
  specialize (IH Hin). lia.
Qed.

Section TwoHeaps.
  Context {W : Type} {Wr : Writer W} {F : Fmt}.
  Variables h1 h2 : Heap.
  Hypothesis heaps_same : sameUpToKeyOrder h1 h2.
  Hypothesis heap_separated : keysSeparated h1.
  Implicit Types (s : state W).

Lemma Elem_heaps v : Elem h1 v = Elem h2 v.
  Proof. destruct heaps_same as (Hc & _). destruct v; simpl; try done. by rewrite Hc. Qed.

Lemma elems_heaps v : elems h1 v = elems h2 v.
  Proof. destruct heaps_same as (_ & Ha & _). destruct v; simpl; try done. by rewrite Ha. Qed.

Lemma Len_heaps v : Len h1 v = Len h2 v.
  Proof. unfold Len. by rewrite elems_heaps. Qed.

Lemma IsNil_heaps v : IsNil h1 v = IsNil h2 v.
  Proof.
    destruct heaps_same as (Hc & Ha & Hm). destruct v; simpl; try done.
    - by rewrite Hc.
    - by rewrite Ha.
    - specialize (Hm a). destruct (maps h1 !! a), (maps h2 !! a); done.
  Qed.

Lemma IsZero_heaps_bounded n v : (height v <= n)%nat -> IsZero h1 v = IsZero h2 v.
  Proof.
    revert v. induction n as [|n IH]; intros v Hv.
    - destruct v; simpl in Hv; try lia; try done.
      + apply (IsNil_heaps (VPointer t a)).
      + apply (IsNil_heaps (VSlice t a)).
      + apply (IsNil_heaps (VMap t a)).
    - destruct v; try done.
      + apply (IsNil_heaps (VPointer t a)).
      + simpl in *. apply forallb_ext_in. intros e He. apply IH.
        pose proof (height_elem es e He). lia.
      + apply (IsNil_heaps (VSlice t a)).
      + apply (IsNil_heaps (VMap t a)).
      + simpl in *. apply forallb_ext_in. intros fv Hfv. f_equal. apply IH.
        pose proof (height_field fs fv Hfv). lia.
  Qed.

Lemma IsZero_heaps v : IsZero h1 v = IsZero h2 v.
  Proof. by apply (IsZero_heaps_bounded (height v)). Qed.

Lemma SortFunc_heaps v :
    SortFunc byKey (entries h1 v) = SortFunc byKey (entries h2 v).
  Proof.
    destruct heaps_same as (_ & _ & Hm). destruct v; simpl; try done.
    specialize (Hm a). specialize (heap_separated a).
    destruct (maps h1 !! a) as [l1|], (maps h2 !! a) as [l2|]; simpl; try done.
    destruct (heap_separated l1 eq_refl) as (_ & Hv & Hn & Hs).
    by apply SortFunc_byKey_perm.
  Qed.
End TwoHeaps.

Section TwoHeapsTraversal.
  Context {W : Type} {Wr : Writer W} {F : Fmt}.
  Variables h1 h2 : Heap.
  Hypothesis heaps_same : sameUpToKeyOrder h1 h2.
  Hypothesis heap_separated : keysSeparated h1.
  Variables print1 print2 : value -> state W -> result W.
  Hypothesis print_same : forall e s, print1 e s = print2 e s.
  Implicit Types (s : state W).

Lemma andThen_same (r : result W) (k1 k2 : state W -> result W) :
    (forall s, k1 s = k2 s) -> andThen r k1 = andThen r k2.
  Proof. intros Hk. destruct r; simpl; [apply Hk | done | done]. Qed.

Lemma sliceLoop_heaps n i es s : sliceLoop print1 n i es s = sliceLoop print2 n i es s.
  Proof.
    revert i s. induction es as [|e es IH]; intros i s; [done|]. cbn [sliceLoop].
    destruct (_ && _); [done|]. rewrite print_same. apply andThen_same. intros s1. apply IH.
  Qed.

Lemma printSlice_heaps v s : printSlice h1 print1 v s = printSlice h2 print2 v s.
  Proof.
    unfold printSlice, sliceOpen.
    rewrite (Len_heaps h1 h2 heaps_same), (elems_heaps h1 h2 heaps_same).
    by rewrite sliceLoop_heaps.
  Qed.

Lemma mapLoop_heaps n i kvs s : mapLoop print1 n i kvs s = mapLoop print2 n i kvs s.
  Proof.
    revert i s. induction kvs as [|[k x] kvs IH]; intros i s; [done|]. cbn [mapLoop].
    destruct (_ && _); [done|]. rewrite print_same. apply andThen_same. intros s1.
    rewrite print_same. apply andThen_same. intros s2. apply IH.
  Qed.

Lemma printMap_heaps v s : printMap h1 print1 v s = printMap h2 print2 v s.
  Proof.
    unfold printMap.
    change (fun kv1 kv2 : value * value => compareValues (fst kv1) (fst kv2)) with byKey.
    rewrite (SortFunc_heaps h1 h2 heaps_same heap_separated v).
    destruct (SortFunc byKey (entries h2 v)) as [keys|]; [|done].
    by rewrite mapLoop_heaps.
  Qed.

Lemma structLoop_heaps ign first fs s :
    structLoop h1 print1 ign first fs s = structLoop h2 print2 ign first fs s.
  Proof.
    revert first s. induction fs as [|[sf x] fs IH]; intros first s; [done|].
    cbn [structLoop]. rewrite (IsZero_heaps h1 h2 heaps_same x).
    destruct (existsb _ ign); [apply IH|].
    destruct (negb (IsExported sf)); [apply IH|].
    destruct (_ && _); [apply IH|].
    apply andThen_same. intros s2. rewrite print_same. apply andThen_same. intros s3.
    apply IH.
  Qed.

Lemma printStruct_heaps v s : printStruct h1 print1 v s = printStruct h2 print2 v s.
  Proof. unfold printStruct. destruct (TypeOf v); [|done]. by rewrite structLoop_heaps. Qed.
End TwoHeapsTraversal.

Section TwoHeapsTop.
  Context {W : Type} {Wr : Writer W} {F : Fmt}.
  Variables h1 h2 : Heap.
  Hypothesis heaps_same : sameUpToKeyOrder h1 h2.
  Hypothesis heap_separated : keysSeparated h1.
  Implicit Types (s : state W).

Lemma deeper_same (f1 f2 : state W -> result W) s :
    (forall s', f1 s' = f2 s') -> deeper f1 s = deeper f2 s.
  Proof. intros Hf. unfold deeper. by rewrite Hf. Qed.

Lemma body_heaps (self1 self2 : value -> state W -> result W) v s :
    (forall e s', self1 e s' = self2 e s') ->
    printSameDepthBody h1 self1 v s = printSameDepthBody h2 self2 v s.
  Proof.
    intros Hself.
    assert (forall e s', deeper (self1 e) s' = deeper (self2 e) s') as Hprint.
    { intros e s'. by apply deeper_same. }
    assert (forall s', switch h1 self1 v s' = switch h2 self2 v s') as Hsw.
    { intros s'. unfold switch.
      destruct (KindOf v); try done; rewrite ?(Elem_heaps h1 h2 heaps_same); try apply Hself.
      - by apply printSlice_heaps.
      - by apply printMap_heaps.
      - by apply printSlice_heaps.
      - by apply printStruct_heaps. }
    unfold printSameDepthBody, cycleCheck.
    destruct (negb (IsValid v)); [done|].
    destruct (isPointerKind (KindOf v)); [|apply Hsw].
    destruct (bool_decide _); [done|]. by rewrite Hsw.
  Qed.

Lemma printSameDepth_heaps n v s : printSameDepth h1 n v s = printSameDepth h2 n v s.
  Proof.
    revert v s. induction n as [|n IH]; intros v s; [done|]. simpl. by apply body_heaps.
  Qed.

Lemma Fprint_heaps n f w0 x : Fprint h1 n f w0 x = Fprint h2 n f w0 x.
  Proof.
    unfold Fprint, print.
    by rewrite (deeper_same _ (printSameDepth h2 n x) _ (printSameDepth_heaps n x)).
  Qed.
End TwoHeapsTop.

(** ** The indent unit is not read in compact mode *)

Section IndentUnit.
  Context {W : Type} {Wr : Writer W} {F : Fmt}.
  Variable h : Heap.
  Variable ind : string.
  Implicit Types (s : state W) (str : string).

  Local Abbreviation T := (setIndent ind).
  Local Abbreviation TR := (setIndentR ind).

Lemma T_write str s : write str (T s) = T (write str s).
  Proof.
    unfold write. simpl. destruct (err s); [done|].
    by destruct (WriteString (w s) str).
  Qed.

Lemma T_checkWidth str s : checkWidth str (T s) = T (checkWidth str s).
  Proof. unfold checkWidth. simpl. destruct (_ && _); [apply T_write | done]. Qed.

Lemma T_pr str s : Compact (fmtr s) = true -> pr str (T s) = T (pr str s).
  Proof.
    intros Hc. unfold pr. simpl. destruct (err s); [done|].
    rewrite T_checkWidth. simpl.
    rewrite (proj1 (checkWidth_frame str s)), Hc. simpl. apply T_write.
  Qed.

Lemma T_after str s : after str (T s) = T (after str s).
  Proof.
    unfold after. rewrite T_write, T_checkWidth. simpl.
    destruct (col _ =? 0); [done|]. destruct (Compact _); apply T_write.
  Qed.

Lemma T_between str s : between str (T s) = T (between str s).
  Proof.
    unfold between. rewrite T_write, T_checkWidth. simpl.
    destruct (col _ =? 0); [done | apply T_write].
  Qed.

Lemma TR_andThen (r : result W) (k1 k2 : state W -> result W) :
    (forall s, r = Done s -> TR (k1 s) = k2 (T s)) ->
    TR (andThen r k1) = andThen (TR r) k2.
  Proof. intros Hk. destruct r; simpl; [by apply Hk | done | done]. Qed.

Lemma TR_deferred (r : result W) (g : state W -> state W) :
    (forall s, T (g s) = g (T s)) -> TR (deferred r g) = deferred (TR r) g.
  Proof. intros Hg. destruct r; simpl; by rewrite ?Hg. Qed.

Lemma T_deeper (f : state W -> result W) s :
    Compact (fmtr s) = true ->
    (forall s', Compact (fmtr s') = true -> f (T s') = TR (f s')) ->
    deeper f (T s) = TR (deeper f s).
  Proof.
    intros Hc Hf. unfold deeper. simpl.
    destruct (MaxDepth (fmtr s) <? depth s + 1).
    - change (set_depth (depth s + 1) (T s)) with (T (set_depth (depth s + 1) s)).
      rewrite T_pr by done. done.
    - change (set_depth (depth s + 1) (T s)) with (T (set_depth (depth s + 1) s)).
      rewrite Hf by done. symmetry. by apply TR_deferred.
  Qed.
End IndentUnit.

Section IndentTraversal.
  Context {W : Type} {Wr : Writer W} {F : Fmt}.
  Variable h : Heap.
  Variable ind : string.
  Implicit Types (s : state W) (str : string).

  Local Abbreviation T := (setIndent ind).
  Local Abbreviation TR := (setIndentR ind).

Lemma T_sliceOpen v s :
    Compact (fmtr s) = true -> sliceOpen h v (T s) = T (sliceOpen h v s).
  Proof.
    intros Hc. unfold sliceOpen.
    destruct (KindOf v); rewrite (T_pr ind) by done; simpl; rewrite fmtr_pr, Hc; done.
  Qed.

Lemma T_mapOpen s : Compact (fmtr s) = true -> mapOpen (T s) = T (mapOpen s).
  Proof.
    intros Hc. unfold mapOpen. rewrite (T_pr ind) by done. simpl. by rewrite fmtr_pr, Hc.
  Qed.

Lemma T_sliceEllipsis s :
    Compact (fmtr s) = true -> sliceEllipsis (T s) = T (sliceEllipsis s).
  Proof. intros Hc. unfold sliceEllipsis. simpl. rewrite Hc. by apply T_pr. Qed.

  Section Loops.
    Variable print : value -> state W -> result W.
    Hypothesis print_framed : forall e, framed (print e).
    Hypothesis print_T :
      forall e s, Compact (fmtr s) = true -> print e (T s) = TR (print e s).

Lemma T_sliceLoop n i es s :
      Compact (fmtr s) = true ->
      sliceLoop print n i es (T s) = TR (sliceLoop print n i es s).
    Proof.
      revert i s. induction es as [|e es IH]; intros i s Hc; [done|]. cbn [sliceLoop].
      change (fmtr (T s)) with (withIndent ind (fmtr s)). cbn [MaxElements withIndent].
      destruct (_ && _); [simpl; by rewrite T_sliceEllipsis|].
      rewrite print_T by done. symmetry. apply TR_andThen. intros s1 E1.
      apply print_framed in E1 as (Hf & _).
      change (fmtr (T s1)) with (withIndent ind (fmtr s1)). cbn [Compact withIndent].
      destruct (_ || _).
      - rewrite T_after. symmetry. apply IH. by rewrite fmtr_after, Hf.
      - symmetry. apply IH. by rewrite Hf.
    Qed.

Lemma T_printSlice v s :
      Compact (fmtr s) = true -> printSlice h print v (T s) = TR (printSlice h print v s).
    Proof.
      intros Hc. unfold printSlice. rewrite T_sliceOpen by done.
      rewrite T_sliceLoop.
      - symmetry. apply TR_andThen. intros s3 E3. simpl. f_equal. symmetry. apply T_pr.
        apply sliceLoop_framed in E3 as (Hf & _); [|done].
        rewrite Hf. by rewrite (proj1 (sliceOpen_frame h v s)).
      - by rewrite (proj1 (sliceOpen_frame h v s)).
    Qed.

Lemma T_mapLoop n i kvs s :
      Compact (fmtr s) = true ->
      mapLoop print n i kvs (T s) = TR (mapLoop print n i kvs s).
    Proof.
      revert i s. induction kvs as [|[k x] kvs IH]; intros i s Hc; [done|]. cbn [mapLoop].
      change (fmtr (T s)) with (withIndent ind (fmtr s)). cbn [MaxElements withIndent].
      destruct (_ && _); [simpl; by rewrite T_pr|].
      rewrite print_T by done. symmetry. apply TR_andThen. intros s1 E1.
      apply print_framed in E1 as (Hf1 & _).
      rewrite T_between, print_T by by rewrite fmtr_between, Hf1.
      apply TR_andThen. intros s2 E2.
      apply print_framed in E2 as (Hf2 & _). rewrite fmtr_between in Hf2.
      change (fmtr (T s2)) with (withIndent ind (fmtr s2)). cbn [Compact withIndent].
      destruct (_ || _).
      - rewrite T_after. symmetry. apply IH. by rewrite fmtr_after, Hf2, Hf1.
      - symmetry. apply IH. by rewrite Hf2, Hf1.
    Qed.

Lemma T_printMap v s :
      Compact (fmtr s) = true -> printMap h print v (T s) = TR (printMap h print v s).
    Proof.
      intros Hc. unfold printMap. destruct (SortFunc _ _) as [keys|]; [|done].
      rewrite T_mapOpen by done. rewrite T_mapLoop.
      - symmetry. apply TR_andThen. intros s3 E3. simpl. f_equal. symmetry. apply T_pr.
        apply mapLoop_framed in E3 as (Hf & _); [|done].
        rewrite Hf. by rewrite (proj1 (mapOpen_frame s)).
      - by rewrite (proj1 (mapOpen_frame s)).
    Qed.

Lemma T_structLoop ign first fs s :
      Compact (fmtr s) = true ->
      structLoop h print ign first fs (T s) = TR (structLoop h print ign first fs s).
    Proof.
      revert first s. induction fs as [|[sf x] fs IH]; intros first s Hc; [done|].
      cbn [structLoop].
      change (fmtr (T s)) with (withIndent ind (fmtr s)). cbn [ShowZero Compact withIndent].
      destruct (existsb _ ign); [by apply IH|].
      destruct (negb (IsExported sf)); [by apply IH|].
      destruct (_ && IsZero h x); [by apply IH|].
      rewrite Hc.
      assert ((if negb first && true then pr ", " (T s) else T s)
              = T (if negb first && true then pr ", " s else s)) as ->.
      { destruct (negb first && true); [by apply T_pr | done]. }
      set (s1 := if negb first && true then pr ", " s else s).
      assert (Compact (fmtr s1) = true) as Hc1.
      { unfold s1. destruct (negb first && true); by rewrite ?fmtr_pr. }
      rewrite (T_deeper ind) by (try done; intros s' Hs'; simpl; f_equal; by apply T_pr).
      symmetry. apply TR_andThen. intros s2 E2.
      apply fieldName_framed in E2 as (Hf2 & _).
      rewrite T_between, print_T by by rewrite fmtr_between, Hf2.
      apply TR_andThen. intros s3 E3.
      apply print_framed in E3 as (Hf3 & _). rewrite fmtr_between in Hf3.
      change (fmtr (T s3)) with (withIndent ind (fmtr s3)). cbn [Compact withIndent].
      rewrite Hf3, Hf2, Hc1. cbn [negb]. symmetry. apply IH. by rewrite Hf3, Hf2.
    Qed.

Lemma T_printStruct v s :
      Compact (fmtr s) = true ->
      printStruct h print v (T s) = TR (printStruct h print v s).
    Proof.
      intros Hc. unfold printStruct. destruct (TypeOf v) as [t|]; [|done].
      change (fmtr (T s)) with (withIndent ind (fmtr s)). cbn [ignoreFields withIndent].
      change (typeName t (T s)) with (typeName t s).
      rewrite (T_pr ind) by done.
      change (fmtr (T (pr (typeName t s +:+ "{") s)))
        with (withIndent ind (fmtr (pr (typeName t s +:+ "{") s))).
      cbn [Compact withIndent]. rewrite fmtr_pr, Hc. cbn [negb].
      rewrite T_structLoop by by rewrite fmtr_pr.
      symmetry. apply TR_andThen. intros s3 E3. simpl. f_equal. symmetry. apply T_pr.
      apply structLoop_framed in E3 as (Hf & _); [|done]. by rewrite Hf, fmtr_pr.
    Qed.
  End Loops.
End IndentTraversal.

Section IndentTop.
  Context {W : Type} {Wr : Writer W} {F : Fmt}.
  Variable h : Heap.
  Variable ind : string.
  Implicit Types (s : state W) (str : string).

  Local Abbreviation T := (setIndent ind).
  Local Abbreviation TR := (setIndentR ind).

Lemma T_body (self : value -> state W -> result W) v s :
    (forall e, framed (self e)) ->
    (forall e s', Compact (fmtr s') = true -> self e (T s') = TR (self e s')) ->
    Compact (fmtr s) = true ->
    printSameDepthBody h self v (T s) = TR (printSameDepthBody h self v s).
  Proof.
    intros Hfr Hself Hc.
    assert (forall e, framed (fun s0 => deeper (self e) s0)) as Hfr'.
    { intros e. by apply deeper_framed. }
    assert (forall e s', Compact (fmtr s') = true ->
              deeper (self e) (T s') = TR (deeper (self e) s')) as Hprint.
    { intros e s' Hs'. apply (T_deeper ind); [done|]. intros s'' Hs''. by apply Hself. }
    assert (forall s', Compact (fmtr s') = true ->
              switch h self v (T s') = TR (switch h self v s')) as Hsw.
    { intros s' Hs'. unfold switch.
      destruct (KindOf v); try (simpl; f_equal; by apply T_pr); try (by apply Hself).
      - by apply T_printSlice.
      - destruct (TypeOf v) as [t|]; [|done]. simpl. f_equal.
        change (typeName t (T s')) with (typeName t s'). by apply T_pr.
      - destruct (TypeOf v) as [t|]; [|done]. simpl. f_equal.
        change (typeName t (T s')) with (typeName t s'). by apply T_pr.
      - by apply T_printMap.
      - rewrite (T_pr ind) by done. apply Hself. by rewrite fmtr_pr.
      - by apply T_printSlice.
      - by apply T_printStruct. }
    unfold printSameDepthBody, cycleCheck.
    destruct (negb (IsValid v)); [simpl; f_equal; by apply T_pr|].
    destruct (isPointerKind (KindOf v)); [|by apply Hsw].
    change (seen (T s)) with (seen s).
    destruct (bool_decide _); [simpl; f_equal; by apply T_pr|].
    change (set_seen (fun m => {[key v]} ∪ m) (T s))
      with (T (set_seen (fun m => {[key v]} ∪ m) s)).
    rewrite Hsw by done. symmetry. by apply TR_deferred.
  Qed.

Lemma T_printSameDepth n v s :
    Compact (fmtr s) = true ->
    printSameDepth h n v (T s) = TR (printSameDepth h n v s).
  Proof.
    revert v s. induction n as [|n IH]; intros v s Hc; [done|]. simpl.
    apply T_body; [intros e; apply printSameDepth_framed | intros e s' Hs'; by apply IH | done].
  Qed.

End IndentTop.

Lemma Fprint_withIndent {W : Type} {Wr : Writer W} {F : Fmt}
    (h : Heap) (ind : string) (n : nat) (f : Formatter) (w0 : W) (x : value) :
  Compact f = true -> Fprint h n (withIndent ind f) w0 x = Fprint h n f w0 x.
Proof.
  intros Hc. unfold Fprint, print.
  set (ind' := if String.eqb ind EmptyString then "    " else ind).
  change (initial (withIndent ind f) w0) with (setIndent ind' (initial f w0)).
  rewrite (T_deeper ind'); [|done|].
  2:{ intros s' Hs'. by apply T_printSameDepth. }
  destruct (deeper (printSameDepth h n x) (initial f w0)) as [s|s|s]; done.
Qed.

(** ** From what the traversal appends to what [Sprint] returns *)

Lemma Sprint_of_emit {F : Fmt} (h : Heap) (n : nat) (f : Formatter) (x : value)
    (text : string) :
  Compact f = true -> MaxWidth f <= 0 -> MaxElements f <= 0 ->
  (forall s, plain s -> depth s = 0 -> 1 <= MaxDepth (fmtr s) -> seen s = ∅ ->
     @printSameDepth string Buffer F h n x s = Done (emit text s)) ->
  @Sprint F h n f x = Some text.
Proof.
  intros Hc Hw Hm Hx. unfold Sprint, Fprint, print.
  set (s0 := @initial string f EmptyString).
  assert (plain s0) as Hp by (unfold s0, initial, withDefaults; repeat split; simpl; done).
  assert (1 <= MaxDepth (fmtr s0)) as HM.
  { unfold s0, initial, withDefaults. simpl. destruct (MaxDepth f <=? 0) eqn:E; lia. }
  assert (depth s0 = -1) as Hd0 by done.
  assert (w s0 = EmptyString) as Hw0 by done.
  assert (seen s0 = ∅) as Hs0 by done.
  clearbody s0.
  assert (depth s0 + 1 <= MaxDepth (fmtr s0)) as Hd by lia.
  assert (@printSameDepth _ _ F h n x (set_depth (depth s0 + 1) s0)
            = Done (emit text (set_depth (depth s0 + 1) s0))) as Hr.
  { apply Hx; [done | simpl; lia | done | done]. }
  rewrite (deeper_emit _ s0 _ Hd Hr).
  destruct Hp as (Hc' & _). simpl. rewrite Hc', Hw0, andb_false_r. reflexivity.
Qed.

(** ** The compact rendering of a slice *)

Section Join.
  Context {F : Fmt}.
  Variable h : Heap.
  Implicit Types (s : state string).

Lemma emit_nothing s : plain s -> emit EmptyString s = s.
  Proof.
    intros (_ & _ & _ & He & _). destruct s as [f0 w0 sn d c e]. simpl in *. subst e.
    unfold emit. simpl. f_equal; [apply append_empty_r | unfold len; simpl; lia].
  Qed.

Lemma sliceLoop_join (print : value -> state string -> result string)
      (text : value -> string) (es : list value) :
    forall n i s,
      plain s -> n = i + Z.of_nat (length es) ->
      (forall e s', e ∈ es -> plain s' -> sameFrame s s' ->
         print e s' = Done (emit (text e) s')) ->
      sliceLoop print n i es s = Done (emit (joinWith ", " (map text es)) s).
  Proof.
    induction es as [|e es IH]; intros n i s Hp Hn Hpr.
    { simpl. by rewrite emit_nothing. }
    pose proof Hp as (Hc & Hw & Hm & He & Hcol).
    cbn [sliceLoop].
    assert ((0 <? MaxElements (fmtr s)) = false) as -> by lia. cbn [andb].
    rewrite (Hpr e s); [|left | done | apply sameFrame_refl]. cbn [andThen].
    rewrite fmtr_emit, Hc. cbn [negb orb].
    assert (plain (emit (text e) s)) as Hp1 by by apply emit_plain.
    destruct es as [|e' es].
    - simpl in Hn. assert ((i =? n - 1) = true) as -> by lia. done.
    - assert ((i =? n - 1) = false) as ->.
      { simpl length in Hn. lia. }
      cbn [negb]. rewrite after_comma_emit by done. rewrite emit_emit.
      rewrite (IH n (i + 1)).
      + rewrite emit_emit. f_equal. f_equal.
        change (joinWith ", " (map text (e :: e' :: es)))
          with (text e +:+ ", " +:+ joinWith ", " (map text (e' :: es))).
        by rewrite append_assoc.
      + by apply emit_plain.
      + simpl length in *. lia.
      + intros x s' Hx Hp' Hs'. apply Hpr; [by right | done|].
        by destruct Hs' as (Hf' & Hd' & Hsn').
  Qed.

Lemma printSlice_join (print : value -> state string -> result string)
      (text : value -> string) v s :
    plain s -> KindOf v = Slice ->
    (forall e s', e ∈ elems h v -> plain s' -> sameFrame s s' ->
       print e s' = Done (emit (text e) s')) ->
    printSlice h print v s
      = Done (emit ("[]{" +:+ joinWith ", " (map text (elems h v)) +:+ "}") s).
  Proof.
    intros Hp Hk Hpr. pose proof Hp as (Hc & Hw & Hm & He & Hcol).
    unfold printSlice, sliceOpen. rewrite Hk.
    rewrite (pr_emit "[]{" s Hp) by done. rewrite fmtr_emit, Hc. cbn [negb].
    rewrite (sliceLoop_join print text); [|by apply emit_plain | unfold Len; lia|].
    - cbn [andThen]. rewrite pr_emit; [|by do 2 apply emit_plain | done].
      rewrite !emit_emit. by rewrite ?append_assoc.
    - intros e s' He' Hp' Hs'. apply Hpr; [done | done|].
      by destruct Hs' as (Hf' & Hd' & Hsn').
  Qed.

Lemma print_scalar n e s :
    plain s -> depth s + 1 <= MaxDepth (fmtr s) ->
    isScalar e = true -> LastIndex (scalarText e) nl_byte < 0 ->
    deeper (@printSameDepth string Buffer F h (S n) e) s = Done (emit (scalarText e) s).
  Proof.
    intros Hp Hd Hs Hn. apply deeper_emit; [done|].
    assert (@printSameDepth string Buffer F h (S n) e (set_depth (depth s + 1) s)
            = Done (pr (scalarText e) (set_depth (depth s + 1) s))) as ->.
    { simpl. unfold printSameDepthBody, cycleCheck, switch, scalarText, isScalar in *.
      by destruct e as [|? ?|? [] ?|? [] ?|? [] ?|? [] ? ?|? ?|? ?|? ?|? ?|? ?|? ?|? ?|? ?|? ?|? ?]. }
    by rewrite pr_emit.
  Qed.
End Join.

(** ** The compact rendering of a map *)

Section JoinEntries.
  Context {F : Fmt}.
  Variable h : Heap.
  Implicit Types (s : state string).

Lemma between_colon_emit s : plain s -> between ":" s = emit ": " s.
  Proof.
    intros (Hc & Hw & Hm & He & Hcol).
    rewrite between_token; [|done|done|done].
    assert (reachesWidth s (len ":") = false) as ->.
    { unfold reachesWidth. destruct (0 <? MaxWidth (fmtr s)) eqn:E; [lia | done]. }
    rewrite (write_emit ":" s), (write_emit " "); try done.
    by rewrite emit_emit.
  Qed.

Lemma mapLoop_join (print : value -> state string -> result string)
      (kvs : list (value * value)) :
    forall n i s,
      plain s -> n = i + Z.of_nat (length kvs) ->
      (forall kv e s', kv ∈ kvs -> e = fst kv \/ e = snd kv -> plain s' -> sameFrame s s' ->
         print e s' = Done (emit (scalarText e) s')) ->
      mapLoop print n i kvs s = Done (emit (joinWith ", " (map entryText kvs)) s).
  Proof.
    induction kvs as [|[k v] kvs IH]; intros n i s Hp Hn Hpr.
    { simpl. by rewrite emit_nothing. }
    pose proof Hp as (Hc & Hw & Hm & He & Hcol).
    cbn [mapLoop].
    assert ((0 <? MaxElements (fmtr s)) = false) as -> by lia. cbn [andb].
    rewrite (Hpr (k, v) k s); [|left | by left | done | apply sameFrame_refl].
    cbn [andThen].
    assert (plain (emit (scalarText k) s)) as Hp1 by by apply emit_plain.
    rewrite between_colon_emit by done. rewrite emit_emit.
    rewrite (Hpr (k, v) v); [|left | by right | by apply emit_plain | done].
    cbn [andThen]. rewrite emit_emit, fmtr_emit, Hc. cbn [negb orb].
    assert (plain (emit ((scalarText k +:+ ": ") +:+ scalarText v) s)) as Hp2
      by by apply emit_plain.
    rewrite append_assoc in Hp2 |- *.
    change (scalarText k +:+ ": " +:+ scalarText v) with (entryText (k, v)) in Hp2 |- *.
    destruct kvs as [|kv' kvs].
    - simpl in Hn. assert ((i =? n - 1) = true) as -> by lia. done.
    - assert ((i =? n - 1) = false) as ->.
      { simpl length in Hn. lia. }
      cbn [negb]. rewrite after_comma_emit by done. rewrite emit_emit.
      rewrite (IH n (i + 1)).
      + rewrite emit_emit. f_equal. f_equal.
        change (joinWith ", " (map entryText ((k, v) :: kv' :: kvs)))
          with (entryText (k, v) +:+ ", " +:+ joinWith ", " (map entryText (kv' :: kvs))).
        by rewrite append_assoc.
      + by apply emit_plain.
      + simpl length in *. lia.
      + intros kv e s' Hx Hor Hp' Hs'. apply (Hpr kv); [by right | done | done|].
        by destruct Hs' as (Hf' & Hd' & Hsn').
  Qed.

Lemma printMap_join (print : value -> state string -> result string) v s sorted :
    plain s -> SortFunc byKey (entries h v) = Some sorted ->
    (forall kv e s', kv ∈ sorted -> e = fst kv \/ e = snd kv -> plain s' -> sameFrame s s' ->
       print e s' = Done (emit (scalarText e) s')) ->
    printMap h print v s
      = Done (emit ("{" +:+ joinWith ", " (map entryText sorted) +:+ "}") s).
  Proof.
    intros Hp Hs Hpr. pose proof Hp as (Hc & Hw & Hm & He & Hcol).
    unfold printMap. change (fun kv1 kv2 => compareValues (fst kv1) (fst kv2)) with byKey.
    rewrite Hs. unfold mapOpen.
    rewrite (pr_emit "{" s Hp) by done. rewrite fmtr_emit, Hc. cbn [negb].
    rewrite (mapLoop_join print); [|by apply emit_plain | lia|].
    - cbn [andThen]. rewrite pr_emit; [|by do 2 apply emit_plain | done].
      rewrite !emit_emit. by rewrite ?append_assoc.
    - intros kv e s' Hkv Hor Hp' Hs'. apply (Hpr kv); [done | done | done|].
      by destruct Hs' as (Hf' & Hd' & Hsn').
  Qed.
End JoinEntries.

(** ** The compact rendering of a struct *)

Lemma Sprint_of_emit_at {F : Fmt} (h : Heap) (n : nat) (f : Formatter) (x : value)
    (text : string) :
  Compact f = true -> MaxWidth f <= 0 -> MaxElements f <= 0 ->
  (forall s, plain s -> fmtr s = withDefaults f -> depth s = 0 -> seen s = ∅ ->
     @printSameDepth string Buffer F h n x s = Done (emit text s)) ->
  @Sprint F h n f x = Some text.
Proof.
  intros Hc Hw Hm Hx. unfold Sprint, Fprint, print.
  set (s0 := @initial string f EmptyString).
  assert (plain s0) as Hp by (unfold s0, initial, withDefaults; repeat split; simpl; done).
  assert (1 <= MaxDepth (fmtr s0)) as HM.
  { unfold s0, initial, withDefaults. simpl. destruct (MaxDepth f <=? 0) eqn:E; lia. }
  assert (fmtr s0 = withDefaults f) as Hf0 by done.
  assert (depth s0 = -1) as Hd0 by done.
  assert (w s0 = EmptyString) as Hw0 by done.
  assert (seen s0 = ∅) as Hs0 by done.
  clearbody s0.
  assert (depth s0 + 1 <= MaxDepth (fmtr s0)) as Hd by lia.
  assert (@printSameDepth _ _ F h n x (set_depth (depth s0 + 1) s0)
            = Done (emit text (set_depth (depth s0 + 1) s0))) as Hr.
  { apply Hx; [done | done | simpl; lia | done]. }
  rewrite (deeper_emit _ s0 _ Hd Hr).
  destruct Hp as (Hc' & _). simpl. rewrite Hc', Hw0, andb_false_r. reflexivity.
Qed.

Section JoinFields.
  Context {F : Fmt}.
  Variable h : Heap.
  Implicit Types (s : state string).

Lemma structLoop_join (print : value -> state string -> result string)
      (ign : list string) (z : bool) (fs : list (StructField * value)) :
    forall first s,
      plain s -> ShowZero (fmtr s) = z -> depth s + 1 <= MaxDepth (fmtr s) ->
      forallb (fieldShown h ign z) fs = true ->
      (forall fv, fv ∈ fs -> LastIndex (Name (fst fv)) nl_byte < 0) ->
      (forall fv s', fv ∈ fs -> plain s' -> sameFrame s s' ->
         print (snd fv) s' = Done (emit (scalarText (snd fv)) s')) ->
      structLoop h print ign first fs s
        = Done (emit ((if first || bool_decide (fs = []) then EmptyString else ", ")
                        +:+ joinWith ", " (map fieldText fs)) s).
  Proof.
    induction fs as [|[sf x] fs IH]; intros first s Hp Hz Hd Hall Hnm Hpr.
    { cbn [structLoop map joinWith]. rewrite orb_true_r.
      change (EmptyString +:+ EmptyString) with EmptyString. by rewrite emit_nothing. }
    pose proof Hp as (Hc & Hw & Hm & He & Hcol).
    cbn [forallb] in Hall. apply andb_prop in Hall as [Hsh Hall].
    unfold fieldShown in Hsh. cbn [fst snd] in Hsh.
    apply andb_prop in Hsh as [Hsh H0]. apply andb_prop in Hsh as [Hig Hex].
    cbn [structLoop]. apply negb_true_iff in Hig. rewrite Hig, Hex, Hz. cbn [negb].
    assert (negb z && IsZero h x = false) as -> by (by destruct z, (IsZero h x)).
    rewrite Hc, andb_true_r.
    rewrite (bool_decide_eq_false_2 ((sf, x) :: fs = [])) by done. rewrite orb_false_r.
    set (pre := if first then EmptyString else ", ").
    assert ((if negb first then pr ", " s else s) = emit pre s) as ->.
    { unfold pre. destruct first; cbn [negb]; [by rewrite emit_nothing | by rewrite pr_emit]. }
    assert (plain (emit pre s)) as Hp1 by by apply emit_plain.
    rewrite (deeper_emit _ (emit pre s) (Name sf)); [|done|].
    2:{ rewrite pr_emit; [done | by apply set_depth_plain|].
        apply (Hnm (sf, x)). left. }
    cbn [andThen]. rewrite emit_emit.
    rewrite between_colon_emit by by apply emit_plain. rewrite emit_emit.
    rewrite (Hpr (sf, x)); [|left | by apply emit_plain | done]. cbn [snd andThen].
    rewrite emit_emit, fmtr_emit, Hc. cbn [negb].
    rewrite (IH false); [|by apply emit_plain | done | done | done | |].
    - rewrite emit_emit. f_equal. f_equal. cbn [orb].
      destruct fs as [|fv' fs].
      + rewrite bool_decide_eq_true_2 by done. cbn [map joinWith].
        change (EmptyString +:+ EmptyString) with EmptyString.
        unfold fieldText. cbn [fst snd]. by rewrite append_empty_r, !append_assoc.
      + rewrite bool_decide_eq_false_2 by done.
        change (joinWith ", " (map fieldText ((sf, x) :: fv' :: fs)))
          with (fieldText (sf, x) +:+ ", " +:+ joinWith ", " (map fieldText (fv' :: fs))).
        unfold fieldText at 2. cbn [fst snd]. by rewrite !append_assoc.
    - intros fv Hfv. apply Hnm. by right.
    - intros fv s' Hfv Hp' Hs'. apply Hpr; [by right | done|].
      by destruct Hs' as (Hf' & Hd' & Hsn').
  Qed.

Lemma printStruct_join (print : value -> state string -> result string) t fs s :
    let T := {| rkind := Struct; rname := t |} in
    let shown := List.filter
                   (fieldShown h (default [] (ignoreFields (fmtr s) !! T)) (ShowZero (fmtr s)))
                   fs in
    (forall e, framed (print e)) ->
    plain s -> depth s + 1 <= MaxDepth (fmtr s) ->
    LastIndex (typeName T s) nl_byte < 0 ->
    (forall fv, fv ∈ shown -> LastIndex (Name (fst fv)) nl_byte < 0) ->
    (forall fv s', fv ∈ shown -> plain s' -> sameFrame s s' ->
       print (snd fv) s' = Done (emit (scalarText (snd fv)) s')) ->
    printStruct h print (VStruct t fs) s
      = Done (emit (typeName T s +:+ "{" +:+ joinWith ", " (map fieldText shown) +:+ "}") s).
  Proof.
    intros T shown Hfr Hp Hd Ht Hnm Hpr. pose proof Hp as (Hc & Hw & Hm & He & Hcol).
    rewrite printStruct_filter by done. fold T. fold shown.
    unfold printStruct. cbn [TypeOf nameOf KindOf fields]. fold T.
    rewrite (pr_emit (typeName T s +:+ "{") s Hp).
    2:{ unfold LastIndex. rewrite lastIndexFrom_append.
        by rewrite (lastIndexFrom_absent nl_byte "{"). }
    rewrite fmtr_emit, Hc. cbn [negb].
    rewrite (structLoop_join print _ (ShowZero (fmtr s)));
      [|by apply emit_plain | done | done | apply forallb_filter | done|].
    - cbn [andThen orb]. change (EmptyString +:+ joinWith ", " (map fieldText shown))
        with (joinWith ", " (map fieldText shown)).
      rewrite pr_emit; [|by do 2 apply emit_plain | done].
      rewrite !emit_emit. by rewrite ?append_assoc.
    - intros fv s' Hfv Hp' Hs'. apply Hpr; [done | done|].
      by destruct Hs' as (Hf' & Hd' & Hsn').
  Qed.
End JoinFields.

(** ** The expanded layout *)

Lemma colAfter_nonneg (text : string) c : 0 <= c -> 0 <= colAfter c text.
Proof.
  revert c. induction text as [|x rest IH]; intros c Hc; cbn [colAfter]; [done|].
  apply IH. destruct (Ascii.eqb x nl_byte); lia.
Qed.

Lemma colAfter_nl (text : string) c : colAfter c (text +:+ nl) = 0.
Proof. by rewrite colAfter_append. Qed.

Lemma colAfter_one_line (text : string) c :
  LastIndex text nl_byte < 0 -> colAfter c text = c + len text.
Proof.
  intros Hn. unfold LastIndex in Hn.
  destruct (lastIndexFrom_colAfter text 0 (-1) c) as [[_ Hc] | [Hj _]]; [lia | done | lia].
Qed.

Section Put.
  Context {F : Fmt}.
  Variable h : Heap.
  Implicit Types (s : state string) (str : string).

Lemma write_put str s : err s = None -> write str s = put str s.
  Proof.
    intros He. pose proof (write_col_scans str s He) as Hc.
    unfold write, put in *. rewrite He in *. simpl in *. by rewrite Hc.
  Qed.

Lemma put_put a b s : put b (put a s) = put (a +:+ b) s.
  Proof. unfold put. simpl. f_equal; [apply append_assoc | by rewrite colAfter_append]. Qed.

Lemma put_nothing s : err s = None -> put EmptyString s = s.
  Proof.
    intros He. destruct s as [f0 w0 sn d c e]. simpl in *. subst e.
    unfold put. simpl. f_equal. apply append_empty_r.
  Qed.

Lemma put_expanded str s : expanded s -> expanded (put str s).
  Proof.
    intros (Hc & Hw & Hm & He & Hcol). repeat split; simpl; try done.
    by apply colAfter_nonneg.
  Qed.

Lemma fmtr_put str s : fmtr (put str s) = fmtr s.
  Proof. done. Qed.

Lemma col_put_nl str s : col (put (str +:+ nl) s) = 0.
  Proof. apply colAfter_nl. Qed.

Lemma indent_put s :
    err s = None ->
    indent s = put (indentation (Z.to_nat (depth s)) (Indent (fmtr s))) s.
  Proof.
    intros He. unfold indent, indentation.
    induction (Z.to_nat (depth s)) as [|k IH].
    - cbn. by rewrite put_nothing.
    - rewrite !Nat.iter_succ, IH. rewrite write_put by done. by rewrite put_put.
  Qed.

  (** [pr] at the start of a line, and inside one. *)
Lemma pr_put_line str s :
    expanded s -> col s = 0 ->
    pr str s = put (indentation (Z.to_nat (depth s)) (Indent (fmtr s)) +:+ str) s.
  Proof.
    intros (Hc & Hw & Hm & He & Hcol) H0. unfold pr. rewrite He.
    rewrite checkWidth_off by done. rewrite Hc, H0. cbn [negb andb Z.eqb].
    rewrite indent_put by done. rewrite write_put by done. by rewrite put_put.
  Qed.

Lemma pr_put_inline str s :
    expanded s -> col s <> 0 -> pr str s = put str s.
  Proof.
    intros (Hc & Hw & Hm & He & Hcol) H0. unfold pr. rewrite He.
    rewrite checkWidth_off by done. rewrite Hc.
    assert ((col s =? 0) = false) as -> by lia. cbn [negb andb].
    by apply write_put.
  Qed.

Lemma after_comma_put s : expanded s -> after "," s = put ("," +:+ nl) s.
  Proof.
    intros (Hc & Hw & Hm & He & Hcol). unfold after.
    rewrite write_put by done. rewrite checkWidth_off by done.
    assert (col (put "," s) = col s + 1) as Hc1 by done.
    assert ((col (put "," s) =? 0) = false) as -> by lia.
    rewrite fmtr_put, Hc. rewrite write_put by done. by rewrite put_put.
  Qed.

Lemma between_colon_put s : expanded s -> between ":" s = put ": " s.
  Proof.
    intros (Hc & Hw & Hm & He & Hcol). unfold between.
    rewrite write_put by done. rewrite checkWidth_off by done.
    assert (col (put ":" s) = col s + 1) as Hc1 by done.
    assert ((col (put ":" s) =? 0) = false) as -> by lia.
    rewrite write_put by done. by rewrite put_put.
  Qed.

Lemma deeper_put (f : state string -> result string) s text :
    depth s + 1 <= MaxDepth (fmtr s) ->
    f (set_depth (depth s + 1) s) = Done (put text (set_depth (depth s + 1) s)) ->
    deeper f s = Done (put text s).
  Proof.
    intros Hd Hf. unfold deeper. simpl.
    destruct (MaxDepth (fmtr s) <? depth s + 1) eqn:E; [lia|].
    rewrite Hf. simpl. f_equal. unfold put, set_depth. simpl. f_equal. lia.
  Qed.

Lemma printSameDepth_scalar n e s :
    isScalar e = true ->
    @printSameDepth string Buffer F h (S n) e s = Done (pr (scalarText e) s).
  Proof.
    intros Hs. simpl. unfold printSameDepthBody, cycleCheck, switch, scalarText, isScalar in *.
    by destruct e as [|? ?|? [] ?|? [] ?|? [] ?|? [] ? ?|? ?|? ?|? ?|? ?|? ?|? ?|? ?|? ?|? ?|? ?].
  Qed.

  (** A scalar at the start of a line directly under the printed value, and
      inside a line. *)
Lemma print_scalar_line n e s :
    expanded s -> col s = 0 -> depth s = 0 -> 1 <= MaxDepth (fmtr s) ->
    isScalar e = true ->
    deeper (@printSameDepth string Buffer F h (S n) e) s
      = Done (put (Indent (fmtr s) +:+ scalarText e) s).
  Proof.
    intros Hp H0 Hd HM Hs. apply deeper_put; [lia|].
    rewrite printSameDepth_scalar by done.
    rewrite pr_put_line; [|done|done]. simpl. rewrite Hd. done.
  Qed.

Lemma print_scalar_inline n e s :
    expanded s -> col s <> 0 -> depth s + 1 <= MaxDepth (fmtr s) ->
    isScalar e = true ->
    deeper (@printSameDepth string Buffer F h (S n) e) s = Done (put (scalarText e) s).
  Proof.
    intros Hp H0 Hd Hs. apply deeper_put; [done|].
    rewrite printSameDepth_scalar by done. by rewrite pr_put_inline.
  Qed.
End Put.

Lemma colAfter_lines (ts : list string) :
  Forall (fun t => colAfter 0 t = 0) ts -> colAfter 0 (concatAll ts) = 0.
Proof.
  induction 1 as [|t ts Ht _ IH]; [done|].
  cbn [concatAll fold_right]. rewrite colAfter_append, Ht. apply IH.
Qed.

Lemma concatAll_cons (t : string) (ts : list string) :
  concatAll (t :: ts) = t +:+ concatAll ts.
Proof. done. Qed.

Lemma Sprint_of_put {F : Fmt} (h : Heap) (n : nat) (f : Formatter) (x : value)
    (text : string) :
  Compact f = false -> MaxWidth f <= 0 -> MaxElements f <= 0 ->
  (forall s, expanded s -> fmtr s = withDefaults f -> depth s = 0 -> col s = 0 ->
     seen s = ∅ ->
     @printSameDepth string Buffer F h n x s = Done (put text s)) ->
  colAfter 0 text <> 0 ->
  @Sprint F h n f x = Some (text +:+ nl).
Proof.
  intros Hc Hw Hm Hx Hcol. unfold Sprint, Fprint, print.
  set (s0 := @initial string f EmptyString).
  assert (expanded s0) as Hp by (unfold s0, initial, withDefaults; repeat split; simpl; done).
  assert (1 <= MaxDepth (fmtr s0)) as HM.
  { unfold s0, initial, withDefaults. simpl. destruct (MaxDepth f <=? 0) eqn:E; lia. }
  assert (fmtr s0 = withDefaults f) as Hf0 by done.
  assert (depth s0 = -1) as Hd0 by done.
  assert (col s0 = 0) as Hc0 by done.
  assert (w s0 = EmptyString) as Hw0 by done.
  assert (seen s0 = ∅) as Hs0 by done.
  clearbody s0.
  assert (depth s0 + 1 <= MaxDepth (fmtr s0)) as Hd by lia.
  assert (@printSameDepth _ _ F h n x (set_depth (depth s0 + 1) s0)
            = Done (put text (set_depth (depth s0 + 1) s0))) as Hr.
  { apply Hx; [done | done | simpl; lia | done | done]. }
  rewrite (deeper_put _ s0 _ Hd Hr).
  destruct Hp as (Hc' & _). simpl. rewrite Hc', Hw0, Hc0.
  destruct (colAfter 0 text =? 0) eqn:E; [lia|]. reflexivity.
Qed.

Section Lines.
  Context {F : Fmt}.
  Variable h : Heap.
  Variable m : nat.
  Implicit Types (s : state string).

  (** [s.print] of the loops, with the fuel a scalar needs. *)
Let print (x : value) := deeper (@printSameDepth string Buffer F h (S m) x).

Lemma col_put_inline (a b : string) s :
    0 <= col s -> LastIndex b nl_byte < 0 -> 0 < len b -> col (put b (put a s)) <> 0.
  Proof.
    intros Hc Hb Hl. simpl. rewrite (colAfter_one_line b) by done.
    pose proof (colAfter_nonneg a (col s) Hc). lia.
  Qed.

Lemma sliceLoop_lines (unit : string) (es : list value) :
    forall n i s,
      expanded s -> Indent (fmtr s) = unit -> depth s = 0 -> 1 <= MaxDepth (fmtr s) ->
      col s = 0 -> forallb isScalar es = true ->
      sliceLoop print n i es s
        = Done (put (concatAll
                       (map (fun e => unit +:+ scalarText e +:+ "," +:+ nl) es)) s).
  Proof.
    induction es as [|e es IH]; intros n i s Hp Hu Hd HM H0 Hsc.
    { cbn [sliceLoop map concatAll fold_right]. rewrite put_nothing; [done | apply Hp]. }
    pose proof Hp as (Hc & Hw & Hm & He & Hcol).
    cbn [forallb] in Hsc. apply andb_prop in Hsc as [He1 Hsc].
    cbn [sliceLoop].
    assert ((0 <? MaxElements (fmtr s)) = false) as -> by lia. cbn [andb].
    unfold print at 1. rewrite (print_scalar_line h m e s) by done. rewrite Hu.
    cbn [andThen]. rewrite fmtr_put, Hc. cbn [negb orb].
    rewrite after_comma_put by by apply put_expanded. rewrite put_put.
    rewrite (IH n (i + 1)); [|by apply put_expanded | done | done | done | | done].
    - rewrite put_put. f_equal. f_equal. cbn [map]. rewrite concatAll_cons.
      by rewrite !append_assoc.
    - rewrite <- append_assoc. apply col_put_nl.
  Qed.

Lemma mapLoop_lines (unit : string) (kvs : list (value * value)) :
    forall n i s,
      expanded s -> Indent (fmtr s) = unit -> depth s = 0 -> 1 <= MaxDepth (fmtr s) ->
      col s = 0 ->
      forallb (fun kv => isScalar (fst kv) && isScalar (snd kv)) kvs = true ->
      mapLoop print n i kvs s
        = Done (put (concatAll
                       (map (fun kv => unit +:+ entryText kv +:+ "," +:+ nl) kvs)) s).
  Proof.
    induction kvs as [|[k v] kvs IH]; intros n i s Hp Hu Hd HM H0 Hsc.
    { cbn [mapLoop map concatAll fold_right]. rewrite put_nothing; [done | apply Hp]. }
    pose proof Hp as (Hc & Hw & Hm & He & Hcol).
    cbn [forallb fst snd] in Hsc. apply andb_prop in Hsc as [He1 Hsc].
    apply andb_prop in He1 as [Hk Hv].
    cbn [mapLoop].
    assert ((0 <? MaxElements (fmtr s)) = false) as -> by lia. cbn [andb].
    unfold print at 1. rewrite (print_scalar_line h m k s) by done. rewrite Hu.
    cbn [andThen]. rewrite between_colon_put by by apply put_expanded.
    unfold print at 1. rewrite (print_scalar_inline h m v).
    2:{ by do 2 apply put_expanded. }
    2:{ apply col_put_inline; [lia | done | done]. }
    2:{ simpl. lia. }
    2:{ done. }
    cbn [andThen]. rewrite !put_put, fmtr_put, Hc. cbn [negb orb].
    rewrite after_comma_put by by apply put_expanded. rewrite put_put.
    rewrite (IH n (i + 1)); [|by apply put_expanded | done | done | done | | done].
    - rewrite put_put. f_equal. f_equal. cbn [map]. rewrite concatAll_cons.
      unfold entryText. cbn [fst snd]. by rewrite !append_assoc.
    - rewrite <- append_assoc. apply col_put_nl.
  Qed.

Lemma structLoop_lines (unit : string) (ign : list string) (z : bool)
      (fs : list (StructField * value)) :
    forall first s,
      expanded s -> Indent (fmtr s) = unit -> ShowZero (fmtr s) = z ->
      depth s = 0 -> 1 <= MaxDepth (fmtr s) -> col s = 0 ->
      forallb (fieldShown h ign z) fs = true ->
      forallb (fun fv => oneLineScalar (snd fv)) fs = true ->
      structLoop h print ign first fs s
        = Done (put (concatAll
                       (map (fun fv => unit +:+ fieldText fv +:+ nl) fs)) s).
  Proof.
    induction fs as [|[sf x] fs IH]; intros first s Hp Hu Hz Hd HM H0 Hall Hsc.
    { cbn [structLoop map concatAll fold_right]. rewrite put_nothing; [done | apply Hp]. }
    pose proof Hp as (Hc & Hw & Hm & He & Hcol).
    cbn [forallb snd] in Hsc. apply andb_prop in Hsc as [He1 Hsc].
    apply andb_prop in He1 as [Hx1 Hx2].
    cbn [forallb] in Hall. apply andb_prop in Hall as [Hsh Hall].
    unfold fieldShown in Hsh. cbn [fst snd] in Hsh.
    apply andb_prop in Hsh as [Hsh Hnz]. apply andb_prop in Hsh as [Hig Hex].
    cbn [structLoop]. apply negb_true_iff in Hig. rewrite Hig, Hex, Hz. cbn [negb].
    assert (negb z && IsZero h x = false) as -> by (by destruct z, (IsZero h x)).
    rewrite Hc, andb_false_r.
    rewrite (deeper_put _ s (unit +:+ Name sf)); [|lia|].
    2:{ rewrite pr_put_line; [|done|done]. simpl. rewrite Hd, Hu. done. }
    cbn [andThen]. rewrite between_colon_put by by apply put_expanded.
    unfold print at 1. rewrite (print_scalar_inline h m x).
    2:{ by do 2 apply put_expanded. }
    2:{ apply col_put_inline; [lia | done | done]. }
    2:{ simpl. lia. }
    2:{ done. }
    cbn [andThen]. rewrite !put_put, fmtr_put, Hc. cbn [negb].
    rewrite pr_put_inline; [|by apply put_expanded|].
    2:{ simpl. rewrite <- append_assoc, colAfter_append.
        rewrite (colAfter_one_line (scalarText x)) by lia.
        rewrite colAfter_append.
        pose proof (colAfter_nonneg (unit +:+ Name sf) (col s) Hcol).
        pose proof (len_nonneg (scalarText x)).
        change (colAfter (colAfter (col s) (unit +:+ Name sf)) ": ")
          with (colAfter (col s) (unit +:+ Name sf) + 1 + 1). lia. }
    rewrite put_put.
    rewrite (IH false); [|by apply put_expanded | done | done | done | done | | done | done].
    - rewrite put_put. f_equal. f_equal. cbn [map]. rewrite concatAll_cons.
      unfold fieldText. cbn [fst snd]. by rewrite !append_assoc.
    - apply col_put_nl.
  Qed.
End Lines.

Lemma colAfter_brace (text : string) c : 0 <= c -> colAfter c (text +:+ "}") <> 0.
Proof.
  intros Hc. rewrite colAfter_append. pose proof (colAfter_nonneg text c Hc).
  change (colAfter (colAfter c text) "}") with (colAfter c text + 1). lia.
Qed.

Section Blocks.
  Context {F : Fmt}.
  Variable h : Heap.
  Variable m : nat.
  Implicit Types (s : state string).

Let print (x : value) := deeper (@printSameDepth string Buffer F h (S m) x).

Lemma pr_put_top str s :
    expanded s -> col s = 0 -> depth s = 0 -> pr str s = put str s.
  Proof. intros Hp H0 Hd. rewrite pr_put_line by done. by rewrite Hd. Qed.

  (** The opening of a block: the head at the start of the line, then the
      newline. *)
Lemma open_block (head : string) s :
    expanded s -> col s = 0 -> depth s = 0 -> LastIndex head nl_byte < 0 -> 0 < len head ->
    pr nl (pr head s) = put (head +:+ nl) s.
  Proof.
    intros Hp H0 Hd Hn Hl. rewrite (pr_put_top head) by done.
    rewrite pr_put_inline; [by rewrite put_put | by apply put_expanded|].
    simpl. rewrite colAfter_one_line by done. lia.
  Qed.

  (** The closing brace after the lines of a block. *)
Lemma close_block (head : string) (lines : list string) s :
    expanded s -> depth s = 0 ->
    Forall (fun t => colAfter 0 t = 0) lines ->
    pr "}" (put (concatAll lines) (put (head +:+ nl) s))
      = put (head +:+ nl +:+ concatAll lines +:+ "}") s.
  Proof.
    intros Hp Hd Hl. rewrite pr_put_top; [|by do 2 apply put_expanded | | done].
    - rewrite !put_put. by rewrite !append_assoc.
    - simpl. rewrite colAfter_nl. by apply colAfter_lines.
  Qed.

Lemma printSlice_lines t a s :
    expanded s -> depth s = 0 -> 1 <= MaxDepth (fmtr s) -> col s = 0 ->
    forallb isScalar (elems h (VSlice t a)) = true ->
    printSlice h print (VSlice t a) s
      = Done (put ("[]{" +:+ nl +:+
                   concatAll (map (fun e => Indent (fmtr s) +:+ scalarText e +:+ "," +:+ nl)
                                  (elems h (VSlice t a))) +:+ "}") s).
  Proof.
    intros Hp Hd HM H0 Hsc. pose proof Hp as (Hc & _).
    unfold printSlice, sliceOpen. cbn [KindOf]. rewrite fmtr_pr, Hc. cbn [negb].
    rewrite open_block by done.
    unfold print.
    rewrite (sliceLoop_lines h m (Indent (fmtr s)));
      try done; try (by apply put_expanded); try apply col_put_nl.
    cbn [andThen]. rewrite close_block; [done | done | done|].
    apply Forall_map, Forall_forall. intros e _.
    rewrite <- !append_assoc. apply colAfter_nl.
  Qed.

Lemma printMap_lines t a s sorted :
    expanded s -> depth s = 0 -> 1 <= MaxDepth (fmtr s) -> col s = 0 ->
    SortFunc byKey (entries h (VMap t a)) = Some sorted ->
    forallb (fun kv => isScalar (fst kv) && isScalar (snd kv)) sorted = true ->
    printMap h print (VMap t a) s
      = Done (put ("{" +:+ nl +:+
                   concatAll (map (fun kv => Indent (fmtr s) +:+ entryText kv +:+ "," +:+ nl)
                                  sorted) +:+ "}") s).
  Proof.
    intros Hp Hd HM H0 Hs Hsc. pose proof Hp as (Hc & _).
    unfold printMap. change (fun kv1 kv2 => compareValues (fst kv1) (fst kv2)) with byKey.
    rewrite Hs. unfold mapOpen. rewrite fmtr_pr, Hc. cbn [negb].
    rewrite open_block by done.
    unfold print.
    rewrite (mapLoop_lines h m (Indent (fmtr s)));
      try done; try (by apply put_expanded); try apply col_put_nl.
    cbn [andThen]. rewrite close_block; [done | done | done|].
    apply Forall_map, Forall_forall. intros e _.
    rewrite <- !append_assoc. apply colAfter_nl.
  Qed.

Lemma printStruct_lines t fs s :
    let T := {| rkind := Struct; rname := t |} in
    let shown := List.filter
                   (fieldShown h (default [] (ignoreFields (fmtr s) !! T)) (ShowZero (fmtr s)))
                   fs in
    expanded s -> depth s = 0 -> 1 <= MaxDepth (fmtr s) -> col s = 0 ->
    LastIndex (typeName T s) nl_byte < 0 ->
    forallb (fun fv => oneLineScalar (snd fv)) shown = true ->
    printStruct h print (VStruct t fs) s
      = Done (put (typeName T s +:+ "{" +:+ nl +:+
                   concatAll (map (fun fv => Indent (fmtr s) +:+ fieldText fv +:+ nl) shown)
                   +:+ "}") s).
  Proof.
    intros T shown Hp Hd HM H0 Ht Hsc. pose proof Hp as (Hc & _).
    rewrite printStruct_filter by (intros e; apply print_framed). fold T. fold shown.
    unfold printStruct. cbn [TypeOf nameOf KindOf fields]. fold T.
    rewrite fmtr_pr, Hc. cbn [negb].
    rewrite open_block; try done.
    2:{ unfold LastIndex. rewrite lastIndexFrom_append.
        by rewrite (lastIndexFrom_absent nl_byte "{"). }
    2:{ rewrite len_append. pose proof (len_nonneg (typeName T s)).
        change (len "{") with 1. lia. }
    unfold print.
    rewrite (structLoop_lines h m (Indent (fmtr s)) _ (ShowZero (fmtr s)));
      try done; try (by apply put_expanded); try apply col_put_nl;
      try apply forallb_filter.
    cbn [andThen]. rewrite close_block; [|done | done|].
    - by rewrite !append_assoc.
    - apply Forall_map, Forall_forall. intros e _.
      rewrite <- !append_assoc. apply colAfter_nl.
  Qed.
End Blocks.

(** ** Where [fmt.Sprint] returns *)

Lemma finiteWithoutPointers_mono (h : Heap) (k : nat) :
  forall v, finiteWithoutPointers h k v = true -> finiteWithoutPointers h (S k) v = true.
Proof.
  induction k as [|k IH]; intros v; [done|].
  intros Hv. change (forallb (finiteWithoutPointers h (S k)) (contained h v) = true).
  cbn [finiteWithoutPointers] in Hv. rewrite forallb_forall in Hv |- *.
  intros e He. by apply IH, Hv.
Qed.

Lemma finiteWithoutPointers_Zero (h : Heap) (k : nat) (v : value) :
  finiteWithoutPointers h k v = true -> finiteWithoutPointers h k Zero = true.
Proof. by destruct k. Qed.

Lemma unwrap_eq (v : value) :
  unwrap v = match v with VInterface _ e => e | _ => v end.
Proof.
  unfold unwrap.
  destruct v as [|? ?|? k ?|? k ?|? k ?|? k ? ?|? ?|? ?|? ?|? ?|? ?|? ?|? ?|? ?|? ?|? ?];
    try done; by destruct k.
Qed.

Lemma finiteWithoutPointers_unwrap (h : Heap) (k : nat) (v : value) :
  finiteWithoutPointers h k v = true -> finiteWithoutPointers h k (unwrap v) = true.
Proof.
  intros Hv. rewrite unwrap_eq. destruct v; try done.
  destruct k as [|k]; [done|]. apply finiteWithoutPointers_mono.
  cbn [finiteWithoutPointers contained forallb] in Hv. by rewrite andb_true_r in Hv.
Qed.

(** Where every value contains itself through pointers only, [fmt.Sprint]
    returns on every key. *)
Lemma pointerCyclesOnly_keysPrintable (h : Heap) (x : value) :
  pointerCyclesOnly h x -> keysPrintable h.
Proof.
  intros [k Hk] a kvs Ha. apply andb_prop in Hk as [_ Hk]. exists k.
  rewrite forallb_forall in Hk |- *. intros kv Hkv. apply list_elem_of_In in Hkv.
  destruct (map_in_heap h a kvs kv Ha Hkv) as [Hin _].
  assert (finiteWithoutPointers h k (fst kv) = true) as Hf.
  { apply Hk. by apply list_elem_of_In. }
  apply finiteWithoutPointers_unwrap in Hf.
  destruct (unwrap (fst kv)) as [|? ?|? ? ?|? ? ?|? ? ?|? ? ? ?|? ?|? ?|? c|? ?|? ?|? ?|? ?|? ?|? ?|? ?] eqn:Eu;
    try done.
  all: cbn [sprintOperand Elem].
  all: try (destruct (cells h !! _) as [c0|] eqn:Ec; cbn [default];
            [apply Hk, list_elem_of_In; by eapply cell_in_heap
            |by eapply finiteWithoutPointers_Zero]).
Qed.

(** The keys of [heapSelfKeys] are not among them. *)
Lemma heapSelfKeys_not_printable : ~ keysPrintable heapSelfKeys.
Proof.
  intros Hp. destruct (Hp 5%N _ eq_refl) as [k Hk].
  cbn [forallb fst unwrap KindOf sprintOperand Elem] in Hk.
  apply andb_prop in Hk as [Hk _].
  change (default Zero (cells heapSelfKeys !! 3%N)) with (VSlice (builtin "[]interface {}") 1%N) in Hk.
  revert Hk. induction k as [|k IH]; [done|].
  change (finiteWithoutPointers heapSelfKeys (S k) (VSlice (builtin "[]interface {}") 1%N))
    with (finiteWithoutPointers heapSelfKeys k (any (VSlice (builtin "[]interface {}") 1%N)) && true).
  rewrite andb_true_r. destruct k as [|k]; [done|].
  change (finiteWithoutPointers heapSelfKeys (S k) (any (VSlice (builtin "[]interface {}") 1%N)))
    with (finiteWithoutPointers heapSelfKeys k (VSlice (builtin "[]interface {}") 1%N) && true).
  rewrite andb_true_r. intros Hk. apply IH. by apply finiteWithoutPointers_mono.
Qed.

(** ** Counting the placeholders written *)

Lemma itoa_not_placeholder (n : Z) : itoa n <> "<cycle>".
Proof. unfold itoa. by destruct (Z.to_int n) as [[]|[]]. Qed.

Lemma builtin_textsAvoid : @textsAvoid builtinFmt "<cycle>".
Proof.
  split; intros v; destruct v as [|? b| | | | | | | | | | | | | |]; simpl; try done;
    intros _; try apply itoa_not_placeholder.
  by destruct b.
Qed.

Lemma concatAll_snoc (ts : list string) (t : string) :
  concatAll (ts ++ [t]) = concatAll ts +:+ t.
Proof.
  induction ts as [|x ts IH]; cbn [app concatAll fold_right].
  - by rewrite append_empty_r.
  - change (concatAll (ts ++ [t])) with (fold_right String.append EmptyString (ts ++ [t])) in IH.
    rewrite IH. by rewrite append_assoc.
Qed.

Lemma last_is (a : string) (x y : ascii) (b : string) :
  a +:+ String x EmptyString = b +:+ String y EmptyString -> x = y.
Proof.
  revert b. induction a as [|c a IH]; intros [|d b].
  - by intros [= ->].
  - change (String d b +:+ String y EmptyString) with (String d (b +:+ String y EmptyString)).
    change (EmptyString +:+ String x EmptyString) with (String x EmptyString).
    intros [= _ E]. by destruct b.
  - change (String c a +:+ String x EmptyString) with (String c (a +:+ String x EmptyString)).
    change (EmptyString +:+ String y EmptyString) with (String y EmptyString).
    intros [= _ E]. by destruct a.
  - change (String c a +:+ String x EmptyString) with (String c (a +:+ String x EmptyString)).
    change (String d b +:+ String y EmptyString) with (String d (b +:+ String y EmptyString)).
    intros [= _ E]. by apply (IH b).
Qed.

Lemma brace_not_placeholder (a : string) : a +:+ "{" <> "<cycle>".
Proof.
  intros E. change "<cycle>" with ("<cycle" +:+ ">") in E. by apply last_is in E.
Qed.

Lemma paren_not_placeholder (a b : string) : a +:+ "(" +:+ b +:+ ")" <> "<cycle>".
Proof.
  intros E. rewrite <- !append_assoc in E.
  change "<cycle>" with ("<cycle" +:+ ">") in E. by apply last_is in E.
Qed.

Section Tally.
  Context {F : Fmt}.
  Variable h : Heap.
  Implicit Types (s : state (Monitored (Logged string))).

Lemma placeholderWrites_snoc cs str e :
    placeholderWrites (cs ++ [(str, e)])
      = (placeholderWrites cs + if String.eqb str "<cycle>" then 1 else 0)%nat.
  Proof.
    unfold placeholderWrites. rewrite List.filter_app, length_app. simpl.
    by destruct (String.eqb str "<cycle>").
  Qed.

Lemma talliedBy_write k str s : str <> "<cycle>" -> talliedBy k s -> talliedBy k (write str s).
  Proof.
    intros Hne (He & Hi & Hc & Hn). unfold write. rewrite He.
    destruct s as [f0 [[buf cs] tr] sn d c e]. simpl in *.
    unfold talliedBy. simpl. split; [done|]. split; [done|]. split.
    - rewrite map_app. cbn [map fst]. rewrite concatAll_snoc. by rewrite Hc.
    - rewrite placeholderWrites_snoc. apply String.eqb_neq in Hne. rewrite Hne. lia.
  Qed.

Lemma talliedBy_placeholder k s : talliedBy (S k) s -> talliedBy k (write "<cycle>" s).
  Proof.
    intros (He & Hi & Hc & Hn). unfold write. rewrite He.
    destruct s as [f0 [[buf cs] tr] sn d c e]. simpl in *.
    unfold talliedBy. simpl. split; [done|]. split; [done|]. split.
    - rewrite map_app. cbn [map fst]. rewrite concatAll_snoc. by rewrite Hc.
    - rewrite placeholderWrites_snoc. simpl. lia.
  Qed.

Lemma talliedBy_depth k d s : talliedBy k s -> talliedBy k (set_depth d s).
  Proof. done. Qed.

Lemma talliedBy_seen k g s : talliedBy k s -> talliedBy k (set_seen g s).
  Proof. done. Qed.

Lemma talliedBy_checkWidth k str s : talliedBy k s -> talliedBy k (checkWidth str s).
  Proof. intros Hs. unfold checkWidth. case_match; [|done]. by apply talliedBy_write. Qed.

Lemma talliedBy_indent k s : talliedBy k s -> talliedBy k (indent s).
  Proof.
    intros Hs. unfold indent. pose proof Hs as (_ & Hi & _).
    induction (Z.to_nat (depth s)) as [|j IH]; [done|].
    rewrite Nat.iter_succ. apply talliedBy_write; [|done].
    clear -Hi. by destruct s.
  Qed.

Lemma tallied_pr str s : str <> "<cycle>" -> tallied s -> tallied (pr str s).
  Proof.
    intros Hne Hs. unfold pr. pose proof Hs as (-> & _).
    apply talliedBy_write; [done|].
    case_match; [apply talliedBy_indent|]; by apply talliedBy_checkWidth.
  Qed.

  (** The placeholder, written at an entry that the monitor has just
      reported. *)
Lemma tallied_report s : talliedBy 1 s -> tallied (pr "<cycle>" s).
  Proof.
    intros Hs. unfold pr. pose proof Hs as (-> & _).
    apply talliedBy_placeholder.
    case_match; [apply talliedBy_indent|]; by apply talliedBy_checkWidth.
  Qed.

Lemma tallied_after str s : str <> "<cycle>" -> tallied s -> tallied (after str s).
  Proof.
    intros Hne Hs. unfold after.
    assert (tallied (checkWidth EmptyString (write str s))) as H1.
    { by apply talliedBy_checkWidth, talliedBy_write. }
    repeat case_match; try done; by apply talliedBy_write.
  Qed.

Lemma tallied_between str s : str <> "<cycle>" -> tallied s -> tallied (between str s).
  Proof.
    intros Hne Hs. unfold between.
    assert (tallied (checkWidth EmptyString (write str s))) as H1.
    { by apply talliedBy_checkWidth, talliedBy_write. }
    case_match; try done; by apply talliedBy_write.
  Qed.

Lemma tallied_andThen (r : result (Monitored (Logged string))) k :
    tallied (stateOf r) -> (forall s, r = Done s -> tallied (stateOf (k s))) ->
    tallied (stateOf (andThen r k)).
  Proof. intros Hr Hk. destruct r; simpl; [by apply Hk | done | done]. Qed.

Lemma tallied_deferred (r : result (Monitored (Logged string))) g :
    (forall s, tallied s -> tallied (g s)) -> tallied (stateOf r) ->
    tallied (stateOf (deferred r g)).
  Proof. intros Hg Hr. destruct r; simpl; [by apply Hg | by apply Hg | done]. Qed.

Lemma tallied_deeper f s :
    tallied s -> (forall s', tallied s' -> tallied (stateOf (f s'))) ->
    tallied (stateOf (deeper f s)).
  Proof.
    intros Hs Hf. unfold deeper. simpl. case_match.
    - simpl. by apply talliedBy_depth, tallied_pr.
    - apply tallied_deferred; [intros; by apply talliedBy_depth|]. by apply Hf.
  Qed.
Lemma tallied_sliceEllipsis s : tallied s -> tallied (sliceEllipsis s).
  Proof.
    intros Hs. unfold sliceEllipsis. case_match; [by apply tallied_pr|].
    apply talliedBy_depth, tallied_pr; [|by apply talliedBy_depth].
    intros E. vm_compute in E. discriminate E.
  Qed.

  Section TallyLoops.
    Variable print :
      value -> state (Monitored (Logged string)) -> result (Monitored (Logged string)).

Lemma sliceLoop_tallied n es :
      (forall e s, e ∈ es -> tallied s -> tallied (stateOf (print e s))) ->
      forall i s, tallied s -> tallied (stateOf (sliceLoop print n i es s)).
    Proof.
      induction es as [|e es IH]; intros Hp i s Hs; simpl; [done|].
      case_match; [by apply tallied_sliceEllipsis|].
      assert (tallied (stateOf (print e s))) as Hg by (apply Hp; [left | done]).
      apply tallied_andThen; [done|].
      intros s1 E. rewrite E in Hg. simpl in Hg. apply IH.
      - intros e' s' He'. apply Hp. by right.
      - case_match; [by apply tallied_after | done].
    Qed.

Lemma mapLoop_tallied n kvs :
      (forall kv s, kv ∈ kvs -> tallied s ->
         tallied (stateOf (print (fst kv) s)) /\ tallied (stateOf (print (snd kv) s))) ->
      forall i s, tallied s -> tallied (stateOf (mapLoop print n i kvs s)).
    Proof.
      induction kvs as [|[k x] kvs IH]; intros Hp i s Hs; simpl; [done|].
      case_match; [by apply tallied_pr|].
      assert (tallied (stateOf (print k s))) as Hg1 by (apply (Hp (k, x)); [left | done]).
      apply tallied_andThen; [done|].
      intros s1 E1. rewrite E1 in Hg1. simpl in Hg1.
      assert (tallied (stateOf (print x (between ":" s1)))) as Hg2.
      { apply (Hp (k, x)); [left | by apply tallied_between]. }
      apply tallied_andThen; [done|].
      intros s2 E2. rewrite E2 in Hg2. simpl in Hg2. apply IH.
      - intros kv s' Hkv. apply Hp. by right.
      - case_match; [by apply tallied_after | done].
    Qed.

Lemma structLoop_tallied ign fs :
      (forall fv, fv ∈ fs -> Name (fst fv) <> "<cycle>") ->
      (forall fv s, fv ∈ fs -> tallied s -> tallied (stateOf (print (snd fv) s))) ->
      forall first s, tallied s -> tallied (stateOf (structLoop h print ign first fs s)).
    Proof.
      induction fs as [|[sf x] fs IH]; intros Hn Hp first s Hs; simpl; [done|].
      assert (forall first' s', tallied s' ->
                tallied (stateOf (structLoop h print ign first' fs s'))) as IH'.
      { apply IH; [intros fv Hfv; apply Hn; by right|].
        intros fv s' Hfv. apply Hp. by right. }
      destruct (existsb (String.eqb (Name sf)) ign); [by apply IH'|].
      destruct (negb (IsExported sf)); [by apply IH'|].
      destruct (negb (ShowZero (fmtr s)) && IsZero h x); [by apply IH'|].
      set (s1 := if negb first && Compact (fmtr s) then pr ", " s else s).
      assert (tallied s1) as Hs1.
      { unfold s1. case_match; [by apply tallied_pr | done]. }
      assert (tallied (stateOf (deeper (fun s' => Done (pr (Name sf) s')) s1))) as Hg1.
      { apply tallied_deeper; [done|]. intros s' Hs'. simpl. apply tallied_pr; [|done].
        apply (Hn (sf, x)). left. }
      apply tallied_andThen; [done|].
      intros s2 E1. rewrite E1 in Hg1. simpl in Hg1.
      assert (tallied (stateOf (print x (between ":" s2)))) as Hg2.
      { apply (Hp (sf, x)); [left | by apply tallied_between]. }
      apply tallied_andThen; [done|].
      intros s3 E2. rewrite E2 in Hg2. simpl in Hg2. apply IH'.
      case_match; [apply tallied_pr; [|done] | done].
      intros E. vm_compute in E. discriminate E.
    Qed.

Lemma printSlice_tallied v s :
      tallied s ->
      (forall e s', e ∈ elems h v -> tallied s' -> tallied (stateOf (print e s'))) ->
      tallied (stateOf (printSlice h print v s)).
    Proof.
      intros Hs Hp. unfold printSlice.
      assert (tallied (sliceOpen h v s)) as Ho.
      { unfold sliceOpen. cbv zeta.
        set (s1 := match KindOf v with
                   | Array => pr ("[" +:+ itoa (Len h v) +:+ "]{") s
                   | _ => pr "[]{" s
                   end).
        assert (tallied s1) as H1 by (unfold s1; case_match; by apply tallied_pr).
        clearbody s1. case_match; [apply tallied_pr; [|done] | done].
        intros E. vm_compute in E. discriminate E. }
      assert (tallied (stateOf (sliceLoop print (Len h v) 0 (elems h v) (sliceOpen h v s))))
        as Hg by (by apply sliceLoop_tallied).
      apply tallied_andThen; [done|]. intros s1 E. rewrite E in Hg. simpl in *.
      by apply tallied_pr.
    Qed.

Lemma printMap_tallied v s :
      tallied s ->
      (forall kv s', kv ∈ entries h v -> tallied s' ->
         tallied (stateOf (print (fst kv) s')) /\ tallied (stateOf (print (snd kv) s'))) ->
      tallied (stateOf (printMap h print v s)).
    Proof.
      intros Hs Hp. unfold printMap.
      destruct (SortFunc _ (entries h v)) as [keys|] eqn:E; [|done].
      assert (tallied (mapOpen s)) as Ho.
      { unfold mapOpen. cbv zeta. set (s1 := pr "{" s).
        assert (tallied s1) as H1 by (by apply tallied_pr).
        clearbody s1. case_match; [apply tallied_pr; [|done] | done].
        intros E'. vm_compute in E'. discriminate E'. }
      assert (tallied (stateOf (mapLoop print (Z.of_nat (length keys)) 0 keys (mapOpen s))))
        as Hg.
      { apply mapLoop_tallied; [|done].
        intros kv s' Hkv. apply Hp. apply SortFunc_perm in E. by rewrite <- E. }
      apply tallied_andThen; [done|]. intros s1 E'. rewrite E' in Hg. simpl in *.
      by apply tallied_pr.
    Qed.

Lemma printStruct_tallied v s :
      tallied s -> IsValid v = true ->
      (forall fv, fv ∈ fields v -> Name (fst fv) <> "<cycle>") ->
      (forall fv s', fv ∈ fields v -> tallied s' -> tallied (stateOf (print (snd fv) s'))) ->
      tallied (stateOf (printStruct h print v s)).
    Proof.
      intros Hs Hv Hn Hp. unfold printStruct. destruct (valid_has_type v Hv) as [t ->].
      match goal with |- tallied (stateOf (andThen ?l _)) =>
        assert (tallied (stateOf l)) as Hg end.
      { apply structLoop_tallied; [done | done|].
        cbv zeta. set (s1 := pr (typeName t s +:+ "{") s).
        assert (tallied s1) as H1.
        { apply tallied_pr; [apply brace_not_placeholder | done]. }
        clearbody s1. case_match; [apply tallied_pr; [|done] | done].
        intros E. vm_compute in E. discriminate E. }
      apply tallied_andThen; [done|]. intros s1 E. rewrite E in Hg. simpl in *.
      by apply tallied_pr.
    Qed.
  End TallyLoops.

Lemma namesAvoid_spec t v : namesAvoid t v = true <-> forall n, n ∈ namesOf v -> n <> t.
  Proof.
    unfold namesAvoid. rewrite forallb_forall. split.
    - intros Hf n Hn. apply list_elem_of_In, Hf in Hn. apply negb_true_iff in Hn.
      by apply String.eqb_neq.
    - intros Hf n Hn. apply negb_true_iff, String.eqb_neq, Hf. by apply list_elem_of_In.
  Qed.

Lemma namesAvoid_heap t v :
    forallb (namesAvoid t) (heapValues h) = true -> v ∈ heapValues h -> namesAvoid t v = true.
  Proof. rewrite forallb_forall. intros Hh Hv. by apply Hh, list_elem_of_In. Qed.

Lemma namesAvoid_fields t v fv :
    namesAvoid t v = true -> fv ∈ fields v ->
    Name (fst fv) <> t /\ namesAvoid t (snd fv) = true.
  Proof.
    rewrite !namesAvoid_spec. intros Hv Hfv.
    destruct v; simpl in *; try (by apply elem_of_nil in Hfv).
    assert (forall n, n ∈ Name (fst fv) :: namesOf (snd fv) -> n <> t) as Hn.
    { intros n Hn. apply Hv. apply list_elem_of_In, in_concat.
      exists (Name (fst fv) :: namesOf (snd fv)). split; [|by apply list_elem_of_In].
      apply in_map_iff. exists fv. split; [done | by apply list_elem_of_In]. }
    split; [apply Hn; left | intros n Hin; apply Hn; by right].
  Qed.

Lemma namesAvoid_children t v e :
    forallb (namesAvoid t) (heapValues h) = true ->
    namesAvoid t v = true -> e ∈ children h v -> namesAvoid t e = true.
  Proof.
    intros Hh Hv He. unfold children in He.
    rewrite elem_of_cons, !elem_of_app, !list_elem_of_fmap in He.
    destruct He as [->|[He|[(kv & -> & Hkv)|[(kv & -> & Hkv)|(fv & -> & Hfv)]]]].
    - destruct v; try done; simpl.
      destruct (cells h !! a) as [c|] eqn:E; simpl; [|done].
      eapply namesAvoid_heap; [done|]. by eapply cell_in_heap.
    - destruct v; simpl in He; try (by apply elem_of_nil in He).
      + apply namesAvoid_spec. intros n Hn.
        apply (proj1 (namesAvoid_spec _ _) Hv). simpl. apply list_elem_of_In, in_concat.
        exists (namesOf e). split; [|by apply list_elem_of_In].
        apply in_map_iff. exists e. split; [done | by apply list_elem_of_In].
      + destruct (arrays h !! a) as [es|] eqn:E; simpl in He; [|by apply elem_of_nil in He].
        eapply namesAvoid_heap; [done|]. by eapply array_in_heap.
    - destruct v; simpl in Hkv; try (by apply elem_of_nil in Hkv).
      destruct (maps h !! a) as [kvs|] eqn:E; simpl in Hkv; [|by apply elem_of_nil in Hkv].
      eapply namesAvoid_heap; [done|]. by eapply map_in_heap.
    - destruct v; simpl in Hkv; try (by apply elem_of_nil in Hkv).
      destruct (maps h !! a) as [kvs|] eqn:E; simpl in Hkv; [|by apply elem_of_nil in Hkv].
      eapply namesAvoid_heap; [done|]. by eapply map_in_heap.
    - by eapply namesAvoid_fields.
  Qed.

Lemma observe_unreported k path v s :
    isCycleReport {| onPath := path; visited := seen s; entered := v |} = false ->
    talliedBy k s -> talliedBy k (observe path v s).
  Proof.
    intros Hr (He & Hi & Hc & Hn). repeat split; try done. simpl.
    rewrite filter_cons_False; [done|]. by rewrite Hr.
  Qed.

Lemma observe_reported path v s :
    isCycleReport {| onPath := path; visited := seen s; entered := v |} = true ->
    tallied s -> talliedBy 1 (observe path v s).
  Proof.
    intros Hr (He & Hi & Hc & Hn). repeat split; try done. simpl.
    rewrite filter_cons_True by done. simpl. lia.
  Qed.

Lemma switch_tallied self v s :
    textsAvoid "<cycle>" -> IsValid v = true ->
    (forall fv, fv ∈ fields v -> Name (fst fv) <> "<cycle>") ->
    tallied s ->
    (forall e s', e ∈ children h v -> tallied s' -> tallied (stateOf (self e s'))) ->
    tallied (stateOf (switch h self v s)).
  Proof.
    intros [Hv Hq] Hval Hn Hs Hself.
    assert (forall e s', e ∈ nested h v -> tallied s' ->
              tallied (stateOf (deeper (self e) s'))) as Hel.
    { intros e s' He Hs'. apply tallied_deeper; [done|]. intros s'' Hs''.
      apply Hself; [|done]. unfold children. right. exact He. }
    unfold switch. destruct (KindOf v) eqn:Ek;
      try (simpl; apply tallied_pr; [apply Hv; by rewrite Ek | done]).
    - simpl. by apply tallied_pr.
    - apply printSlice_tallied; [done|]. intros e s' He. apply Hel.
      unfold nested. apply elem_of_app. by left.
    - destruct (valid_has_type v Hval) as [t ->]. simpl.
      apply tallied_pr; [apply paren_not_placeholder | done].
    - destruct (valid_has_type v Hval) as [t ->]. simpl.
      apply tallied_pr; [apply paren_not_placeholder | done].
    - apply Hself; [by left | done].
    - apply printMap_tallied; [done|]. intros kv s' Hkv Hs'. unfold nested. split.
      + apply Hel; [|done]. apply elem_of_app. right. apply elem_of_app. left.
        apply list_elem_of_fmap. by exists kv.
      + apply Hel; [|done]. apply elem_of_app. right. apply elem_of_app. right.
        apply elem_of_app. left. apply list_elem_of_fmap. by exists kv.
    - apply Hself; [by left | by apply tallied_pr].
    - apply printSlice_tallied; [done|]. intros e s' He. apply Hel.
      unfold nested. apply elem_of_app. by left.
    - simpl. by apply tallied_pr.
    - apply printStruct_tallied; [done | done | done|]. intros fv s' Hfv. apply Hel.
      unfold nested. apply elem_of_app. right. apply elem_of_app. right.
      apply elem_of_app. right. apply list_elem_of_fmap. by exists fv.
  Qed.

  (** An entry of the monitored traversal: the monitor reports it exactly
      when the body writes the placeholder. *)
Lemma entry_tallied self path v s :
    textsAvoid "<cycle>" ->
    (forall fv, fv ∈ fields v -> Name (fst fv) <> "<cycle>") ->
    tallied s ->
    (forall e s', e ∈ children h v -> tallied s' -> tallied (stateOf (self e s'))) ->
    tallied (stateOf (printSameDepthBody h self v (observe path v s))).
  Proof.
    intros Ht Hn Hs Hself. unfold printSameDepthBody.
    destruct (IsValid v) eqn:Ev; cbn [negb].
    2:{ simpl. apply tallied_pr; [done|]. apply observe_unreported; [|done].
        unfold isCycleReport. simpl. by rewrite Ev. }
    unfold cycleCheck. destruct (isPointerKind (KindOf v)) eqn:Ep.
    - change (seen (observe path v s)) with (seen s).
      case_bool_decide as Hin.
      + simpl. apply tallied_report, observe_reported; [|done].
        unfold isCycleReport. simpl. rewrite Ev, Ep. simpl. by apply bool_decide_eq_true.
      + apply tallied_deferred; [intros; by apply talliedBy_seen|].
        apply switch_tallied; try done.
        apply talliedBy_seen, observe_unreported; [|done].
        unfold isCycleReport. simpl. rewrite Ev, Ep. simpl. by apply bool_decide_eq_false.
    - apply switch_tallied; try done.
      apply observe_unreported; [|done].
      unfold isCycleReport. simpl. by rewrite Ev, Ep.
  Qed.

Lemma printSameDepthM_tallied n :
    textsAvoid "<cycle>" ->
    forallb (namesAvoid "<cycle>") (heapValues h) = true ->
    forall path v s,
      namesAvoid "<cycle>" v = true -> tallied s ->
      tallied (stateOf (printSameDepthM h n path v s)).
  Proof.
    intros Ht Hh. induction n as [|n IH]; intros path v s Hv Hs; [done|].
    cbn [printSameDepthM]. apply entry_tallied; [done| |done|].
    - intros fv Hfv. by eapply namesAvoid_fields.
    - intros e s' He Hs'. apply IH; [|done]. by eapply namesAvoid_children.
  Qed.

  (** The traversal of [Fprint] on a buffer: the placeholder is written as
      many times as an entry is reported as a cycle, and the buffer holds
      what was written, in the order of the writes. *)
Lemma printM_tallied n f x :
    textsAvoid "<cycle>" -> Indent (withDefaults f) <> "<cycle>" ->
    forallb (namesAvoid "<cycle>") (x :: heapValues h) = true ->
    tallied (stateOf (printM h n x
                        (initial f {| sink := {| inner := EmptyString; calls := [] |};
                                      trace := [] |}))).
  Proof.
    intros Ht Hi Hn. cbn [forallb] in Hn. apply andb_prop in Hn as [Hx Hh].
    unfold printM. apply tallied_deeper; [by repeat split|].
    intros s' Hs'. by apply printSameDepthM_tallied.
  Qed.
End Tally.

(** * The claims *)

(** C2 (amended). The ordering is antisymmetric and reflexively equal: on
    every pair of values, [compareValues b a] is the negation of
    [compareValues a b] (and panics exactly when it does), and
    [compareValues a a] is 0 for every value it accepts; the only value it
    does not accept against itself is an interface that wraps nil.  Sorting
    before is irreflexive and asymmetric; it is transitive, and so is sorting
    together, once the types of [a] and [b] are told apart by the text
    [String()] gives for them: then the ordering is a strict weak order. *)
Theorem compareValues_strict_weak_order (F : Fmt) (a b c : value) :
  compareValues b a = Z.opp <$> compareValues a b /\
  compareValues a a = (if isNilInterface a then None else Some 0) /\
  ~ less a a /\
  (less a b -> ~ less b a) /\
  (typeNamesDistinct a b = true -> less a b -> less b c -> less a c) /\
  (typeNamesDistinct a b = true -> equivalent a b -> equivalent b c -> equivalent a c).
Proof.
  split; [apply compareValues_swap|]. split; [apply compareValues_self|].
  split; [apply less_irreflexive|]. split; [apply less_asymmetric|].
  split; [apply less_transitive | apply equivalent_transitive].
Qed.

Lemma compareValues_strict_weak_order_witness :
  typeNamesDistinct (int 1) (str "b") = true /\
  @less builtinFmt (int 1) (str "b") /\
  @less builtinFmt (str "b") (str "c") /\
  @less builtinFmt (int 1) (str "c").
Proof.
  assert (@less builtinFmt (int 1) (str "b")) as H1.
  { exists (-1). split; [vm_compute; reflexivity | lia]. }
  assert (@less builtinFmt (str "b") (str "c")) as H2.
  { exists (-1). split; [vm_compute; reflexivity | lia]. }
  split; [reflexivity|]. split; [exact H1|]. split; [exact H2|].
  exact (proj1 (proj2 (proj2 (proj2 (proj2
    (compareValues_strict_weak_order builtinFmt (int 1) (str "b") (str "c"))))))
    eq_refl H1 H2).
Defined.

(** C2, the claim as stated fails.  [type T int] declared in two packages
    named [x] gives two types that both print as [x.T]: [ax.T(1)] and
    [ax.T(9)] each sort together with [bx.T(5)], yet [ax.T(1)] sorts before
    [ax.T(9)].  Sorting together is not transitive, so the ordering is not a
    strict weak order: the keys [9, 5, 1] are left as they stand, the keys
    [1, 9, 5] as well, and one map prints in two ways.  And an interface
    that wraps nil is not equal to itself: the call panics. *)
Lemma same_name_types_not_weakly_ordered :
  typeNamesDistinct ax1 bx5 = false /\
  @compareValues builtinFmt ax1 bx5 = Some 0 /\
  @compareValues builtinFmt bx5 ax9 = Some 0 /\
  @compareValues builtinFmt ax1 ax9 = Some (-1) /\
  SortFunc (@compareValues builtinFmt) [ax9; bx5; ax1] = Some [ax9; bx5; ax1] /\
  SortFunc (@compareValues builtinFmt) [ax1; ax9; bx5] = Some [ax1; ax9; bx5] /\
  @Sprint builtinFmt heapKeys951 10 compact mapAnyInt = Some "{9: 0, 5: 0, 1: 0}" /\
  @Sprint builtinFmt heapKeys195 10 compact mapAnyInt = Some "{1: 0, 9: 0, 5: 0}" /\
  @compareValues builtinFmt (any Zero) (any Zero) = None.
Proof. repeat split; vm_compute; reflexivity. Qed.

(** C10. [compareValues] is not total: when one argument is an interface
    that wraps nil and the other is any valid value, the call panics, in
    either order; the zero Value itself is accepted and sorts first, because
    validity is tested before the interface is unwrapped and not after. *)
Theorem compareValues_panics_on_nil_interface (F : Fmt) (t : TypeName) (v : value) :
  IsValid v = true ->
  compareValues (VInterface t Zero) v = None /\
  compareValues v (VInterface t Zero) = None /\
  compareValues Zero v = Some (-1) /\
  compareValues v Zero = Some 1.
Proof.
  intros Hv. split; [by apply compareValues_nil_left|].
  split; [by apply compareValues_nil_right|].
  unfold compareValues. simpl. by rewrite Hv.
Qed.

Lemma compareValues_panics_on_nil_interface_witness :
  IsValid (int 1) = true /\
  @compareValues builtinFmt (any Zero) (int 1) = None /\
  @compareValues builtinFmt (int 1) (any Zero) = None /\
  @compareValues builtinFmt Zero (int 1) = Some (-1) /\
  @compareValues builtinFmt (int 1) Zero = Some 1.
Proof.
  split; [reflexivity|].
  apply (compareValues_panics_on_nil_interface builtinFmt (builtin "interface {}") (int 1)).
  reflexivity.
Defined.

(** C6 (amended). The separator between a key and its value, or a field name
    and its value, is written by [between] in both modes: the token, then
    exactly one space, unless the width limit is set and the column reaches
    it once the token is written; then the token is followed by a newline
    and no space. *)
Theorem between_separator {W : Type} `{Writer W} (s : state W) :
  0 <= col s ->
  between ":" s = write (if reachesWidth s 1 then nl else " ") (write ":" s).
Proof. intros Hc. by apply (between_token ":" s). Qed.

Lemma between_separator_witness :
  0 <= col (bufferState compact "{1" 2 0) /\
  between ":" (bufferState compact "{1" 2 0) =
    write (if reachesWidth (bufferState compact "{1" 2 0) 1 then nl else " ")
          (write ":" (bufferState compact "{1" 2 0)).
Proof.
  split; [vm_compute; discriminate|].
  apply (between_separator (bufferState compact "{1" 2 0)). vm_compute; discriminate.
Defined.

(** C6, the claim as stated fails: with MaxWidth 3 in compact mode the map
    [{1: 2}] is written with a newline, not a space, after the colon. *)
Lemma separator_followed_by_newline :
  @Sprint builtinFmt heap12 10 (withMaxWidth 3 compact) map12
    = Some ("{1:" +:+ nl +:+ "2}") /\
  w (between ":" (bufferState (withMaxWidth 3 compact) "{1" 2 0)) = "{1:" +:+ nl /\
  w (between ":" (bufferState (withMaxWidth 3 compact) "{1" 2 0)) <> "{1: ".
Proof. split; [|split]; [vm_compute; reflexivity | vm_compute; reflexivity | vm_compute; discriminate]. Qed.

(** C7 (amended). A fragment emitted by [pr] (a value, a bracket, a field
    name, a placeholder) is preceded by a newline when MaxWidth is positive
    and the column plus the length of the fragment reaches it, in both
    modes; with MaxWidth 0 (or negative) the width check never writes.  The
    separators written by [after] and [between] are checked after they are
    written: there the forced newline follows the token. *)
Theorem width_limit_forces_break {W : Type} `{Writer W} (s : state W) (str : string) :
  (err s = None -> reachesWidth s (len str) = true ->
     pr str s = write str (observeIndent (write nl s))) /\
  (MaxWidth (fmtr s) <= 0 ->
     checkWidth str s = s /\ pr str s = write str (observeIndent s)) /\
  (0 <= col s -> 0 < len str -> LastIndex str nl_byte < 0 ->
   reachesWidth s (len str) = true ->
     after str s = write nl (write str s) /\ between str s = write nl (write str s)).
Proof.
  split; [apply pr_breaks|]. split.
  - intros Hw. split; [by apply checkWidth_off|]. apply pr_no_break.
    unfold reachesWidth. destruct (0 <? MaxWidth (fmtr s)) eqn:E; [lia | done].
  - intros Hc Hl Hn Hr. by rewrite after_token, between_token, Hr.
Qed.

Lemma width_limit_forces_break_witness :
  pr "2" (bufferState (withMaxWidth 3 compact) "{1" 2 0)
    = write "2" (observeIndent (write nl (bufferState (withMaxWidth 3 compact) "{1" 2 0))) /\
  checkWidth "2" (bufferState compact "{1" 2 0) = bufferState compact "{1" 2 0 /\
  after "," (bufferState (withMaxWidth 3 compact) "{1" 2 0)
    = write nl (write "," (bufferState (withMaxWidth 3 compact) "{1" 2 0)).
Proof.
  split; [|split].
  - apply (width_limit_forces_break (bufferState (withMaxWidth 3 compact) "{1" 2 0) "2");
      reflexivity.
  - apply (width_limit_forces_break (bufferState compact "{1" 2 0) "2"). vm_compute; discriminate.
  - apply (width_limit_forces_break (bufferState (withMaxWidth 3 compact) "{1" 2 0) ",");
      [vm_compute; discriminate | reflexivity | reflexivity | reflexivity].
Defined.

(** C7, the claim as stated fails: with MaxWidth 5 in compact mode the comma
    after the first element of [[1, 2]] is emitted at column 4, where
    column plus length reaches the limit, and no newline is written before
    it; the newline follows it. *)
Lemma separator_not_preceded_by_break :
  @Sprint builtinFmt heap12 10 (withMaxWidth 5 compact) slice12
    = Some ("[]{1," +:+ nl +:+ "2}") /\
  reachesWidth (bufferState (withMaxWidth 5 compact) "[]{1" 4 0) (len ",") = true /\
  w (after "," (bufferState (withMaxWidth 5 compact) "[]{1" 4 0)) = "[]{1," +:+ nl.
Proof. split; [|split]; vm_compute; reflexivity. Qed.

(** C5 (amended). For every pointer that is not cycle-detected, the output
    is the marker [&] followed by the rendering of the referent at the same
    depth as the pointer: [printSameDepth] calls itself on the referent, not
    [print], so the depth counter is not incremented between the pointer and
    its referent; it is incremented once, by [print], for the pointer value
    as a whole. *)
Theorem pointer_marker_then_referent_same_depth {W : Type} `{Writer W} `{Fmt}
    (h : Heap) (fuel : nat) (t : TypeName) (a : addr) (s : state W) :
  key (VPointer t a) ∉ seen s ->
  printSameDepth h (S fuel) (VPointer t a) s =
    deferred (printSameDepth h fuel (Elem h (VPointer t a))
                (pr "&" (set_seen (fun m => {[key (VPointer t a)]} ∪ m) s)))
             (set_seen (fun m => m ∖ {[key (VPointer t a)]})) /\
  depth (pr "&" (set_seen (fun m => {[key (VPointer t a)]} ∪ m) s)) = depth s /\
  print h (S fuel) (VPointer t a) s = deeper (printSameDepth h (S fuel) (VPointer t a)) s.
Proof.
  intros Hk. split; [|split; [|done]].
  - simpl. unfold printSameDepthBody, cycleCheck. simpl.
    by rewrite bool_decide_eq_false_2.
  - by destruct (pr_frame "&" (set_seen (fun m => {[key (VPointer t a)]} ∪ m) s))
      as (_ & -> & _).
Qed.

Lemma pointer_marker_then_referent_same_depth_witness :
  (key ptr5 ∉ seen (bufferState (withMaxDepth 1 compact) EmptyString 0 1)) /\
  w (stateOf (@printSameDepth _ _ builtinFmt heapPtr 5 ptr5
                (bufferState (withMaxDepth 1 compact) EmptyString 0 1))) = "&5".
Proof.
  split; [apply not_elem_of_empty|].
  rewrite (proj1 (@pointer_marker_then_referent_same_depth _ _ builtinFmt heapPtr 4
                    (builtin "*int") 1%N
                    (bufferState (withMaxDepth 1 compact) EmptyString 0 1)
                    (not_elem_of_empty _))).
  vm_compute. reflexivity.
Defined.

(** C5, the claim as stated fails: at MaxDepth 1 the slice [[]*int{p}] with
    [*p = 5] prints the referent, which stands at the depth of the pointer;
    were the depth incremented for the referent it would be pruned.  In
    expanded mode the elements of a slice behind a pointer are indented by
    one unit, not two. *)
Lemma referent_not_one_deeper :
  @Sprint builtinFmt heapPtr 10 (withMaxDepth 1 compact) slicePtr5 = Some "[]{&5}" /\
  w (stateOf (@printSameDepth _ _ builtinFmt heapPtr 5 ptr5
                (bufferState (withMaxDepth 1 compact) EmptyString 0 1))) = "&5" /\
  w (stateOf (@pointerOneDeeper _ _ builtinFmt heapPtr 5 ptr5
                (bufferState (withMaxDepth 1 compact) EmptyString 0 1))) = "&<maxdepth>" /\
  @Sprint builtinFmt heapPtr 10 zeroFormatter ptrSlice
    = Some ("&[]{" +:+ nl +:+ "    2," +:+ nl +:+ "    3," +:+ nl +:+ "    4," +:+ nl
            +:+ "}" +:+ nl).
Proof. repeat split; vm_compute; reflexivity. Qed.

(** C3 (amended). When MaxElements is positive and a slice, array or map has
    more entries, [printSlice] and [printMap] run their loop over exactly
    the first MaxElements entries, then write one ellipsis marker, then the
    closing brace.  Expanded mode is the default: there each entry, and the
    ellipsis of a slice, stands on a line of its own.  With Compact set,
    [[2,3,4]] prints as [[]{2, 3, ...}] for MaxElements 2 and as
    [[]{2, 3, 4}] without a cap. *)
Theorem truncation_at_MaxElements {W : Type} `{Writer W} `{Fmt}
    (h : Heap) (fuel : nat) (v : value) (s : state W) :
  0 < MaxElements (fmtr s) ->
  (MaxElements (fmtr s) < Len h v ->
     printSlice h (print h fuel) v s =
       andThen (sliceLoop (print h fuel) (Len h v) 0
                  (take (Z.to_nat (MaxElements (fmtr s))) (elems h v)) (sliceOpen h v s))
               (fun s' => Done (pr "}" (sliceEllipsis s'))) /\
     Z.of_nat (length (take (Z.to_nat (MaxElements (fmtr s))) (elems h v)))
       = MaxElements (fmtr s)) /\
  (forall keys,
     SortFunc (fun kv1 kv2 => compareValues (fst kv1) (fst kv2)) (entries h v) = Some keys ->
     MaxElements (fmtr s) < Z.of_nat (length keys) ->
     printMap h (print h fuel) v s =
       andThen (mapLoop (print h fuel) (Z.of_nat (length keys)) 0
                  (take (Z.to_nat (MaxElements (fmtr s))) keys) (mapOpen s))
               (fun s' => Done (pr "}" (pr "..." s'))) /\
     Z.of_nat (length (take (Z.to_nat (MaxElements (fmtr s))) keys))
       = MaxElements (fmtr s)) /\
  @Sprint builtinFmt heap234 10 (withMaxElements 2 compact) slice234 = Some "[]{2, 3, ...}" /\
  @Sprint builtinFmt heap234 10 compact slice234 = Some "[]{2, 3, 4}" /\
  @Sprint builtinFmt heap234 10 (withMaxElements 2 zeroFormatter) slice234
    = Some ("[]{" +:+ nl +:+ "    2," +:+ nl +:+ "    3," +:+ nl +:+ "    ..." +:+ nl
            +:+ "}" +:+ nl).
Proof.
  intros Hpos. split; [|split].
  - intros Hlt. split.
    + apply printSlice_truncated; [apply print_framed | done | done].
    + rewrite length_take. unfold Len in Hlt. lia.
  - intros keys Hsort Hlt. split.
    + apply printMap_truncated; [apply print_framed | done | done | done].
    + rewrite length_take. lia.
  - repeat split; vm_compute; reflexivity.
Qed.

Lemma truncation_at_MaxElements_witness :
  0 < MaxElements (fmtr (bufferState (withDefaults (withMaxElements 2 compact)) EmptyString 0 0)) /\
  MaxElements (fmtr (bufferState (withDefaults (withMaxElements 2 compact)) EmptyString 0 0))
    < Len heap234 slice234 /\
  w (stateOf (@printSlice _ _ heap234 (@print _ _ builtinFmt heap234 5) slice234
                (bufferState (withDefaults (withMaxElements 2 compact)) EmptyString 0 0)))
    = "[]{2, 3, ...}".
Proof.
  split; [reflexivity|]. split; [reflexivity|].
  rewrite (proj1 (proj1 (@truncation_at_MaxElements _ _ builtinFmt heap234 5 slice234
                           (bufferState (withDefaults (withMaxElements 2 compact)) EmptyString 0 0)
                           eq_refl) eq_refl)).
  vm_compute. reflexivity.
Defined.

(** C3, the claim as stated fails: with MaxElements 2 and the other options
    at their defaults (Compact is false), and with all options at their
    defaults, [[2,3,4]] is printed in expanded form, over several lines. *)
Lemma default_options_are_expanded :
  @Sprint builtinFmt heap234 10 (withMaxElements 2 zeroFormatter) slice234
    = Some ("[]{" +:+ nl +:+ "    2," +:+ nl +:+ "    3," +:+ nl +:+ "    ..." +:+ nl
            +:+ "}" +:+ nl) /\
  @Sprint builtinFmt heap234 10 (withMaxElements 2 zeroFormatter) slice234
    <> Some "[]{2, 3, ...}" /\
  @Sprint builtinFmt heap234 10 zeroFormatter slice234
    = Some ("[]{" +:+ nl +:+ "    2," +:+ nl +:+ "    3," +:+ nl +:+ "    4," +:+ nl
            +:+ "}" +:+ nl) /\
  @Sprint builtinFmt heap234 10 zeroFormatter slice234 <> Some "[]{2, 3, 4}".
Proof.
  split; [|split; [|split]]; vm_compute; try reflexivity; discriminate.
Qed.



(** C4. The visited set is a path set.  The traversal is run with a monitor
    that records, at every entry of [printSameDepth], the pointers whose
    referent the enclosing calls are rendering, the visited set and the
    value entered; the monitor does not read the visited set, and forgetting
    it gives back the traversal of [Fprint].  At every entry the visited set
    holds exactly the keys of the pointers on the path, each pointer once,
    and two pointers have the same key only when they are the same pointer
    (the same type and address).  So an entry is reported as a cycle exactly
    when the value entered is a pointer that is itself on the path: a
    pointer reached again that is not on the path, below another pointer or
    beside it, is never reported.  Every call that returns, and every call
    that panics, has removed what it added: the visited set and the depth
    are as the call found them.  A pointer shared by two elements, and a
    pointer reached once below another pointer and once beside it, are
    rendered each time, with no placeholder. *)
Theorem visited_set_is_path_set {W : Type} {Wr : Writer W} {F : Fmt}
    (h : Heap) (n : nat) (f : Formatter) (w0 : W) (x : value) :
  let run := printM h n x (initial f {| sink := w0; trace := [] |}) in
  eraseR sink run = print h n x (initial f w0) /\
  Forall onPathOnly (trace (w (stateOf run))) /\
  (forall v1 v2,
     isPointerKind (KindOf v1) = true -> isPointerKind (KindOf v2) = true ->
     key v1 = key v2 -> v1 = v2) /\
  Forall (fun ev => isCycleReport ev = true <-> reentered ev) (trace (w (stateOf run))) /\
  (forall m v, framed (@printSameDepth W Wr F h m v) /\
               unwound (@printSameDepth W Wr F h m v)) /\
  @Sprint builtinFmt heapShared 10 compact sliceShared = Some "[]{&5, &5}" /\
  cycleReports
    (@printM string Buffer builtinFmt heapShared 10 sliceShared
       (initial compact {| sink := EmptyString; trace := [] |})) = 0%nat /\
  @Sprint builtinFmt heapNestedShared 10 compact sliceNestedShared = Some "[]{&&5, &5}" /\
  cycleReports
    (@printM string Buffer builtinFmt heapNestedShared 10 sliceNestedShared
       (initial compact {| sink := EmptyString; trace := [] |})) = 0%nat.
Proof.
  intros run. split; [|split; [|split; [|split; [|split; [|split; [|split; [|split]]]]]]].
  - unfold run. by rewrite erase_printM.
  - apply printM_onPathOnly.
  - apply key_inj.
  - eapply Forall_impl; [|apply printM_onPathOnly].
    intros ev Hev. by apply report_reentered.
  - intros m v. split; [apply printSameDepth_framed | apply printSameDepth_unwound].
  - vm_compute. reflexivity.
  - vm_compute. reflexivity.
  - vm_compute. reflexivity.
  - vm_compute. reflexivity.
Qed.

Lemma visited_set_is_path_set_witness :
  let run := @printM string Buffer builtinFmt heapCycle 10 sliceCycle
               (initial compact {| sink := EmptyString; trace := [] |}) in
  Forall (fun ev => isCycleReport ev = true <-> reentered ev) (trace (w (stateOf run))) /\
  cycleReports run = 1%nat /\
  (key backPointer = key (VPointer (builtin "*[]interface {}") 2%N) ->
   backPointer = VPointer (builtin "*[]interface {}") 2%N).
Proof.
  pose proof (@visited_set_is_path_set string Buffer builtinFmt heapCycle 10 compact
                EmptyString sliceCycle) as (_ & _ & Hk & Hr & _).
  split; [exact Hr|]. split; [vm_compute; reflexivity|].
  apply Hk; reflexivity.
Defined.

(** C1 (amended).  For a value that contains itself only through pointers,
    as every value on the heap does, [fmt.Sprint] returns on every key that
    [compareValues] hands to it and formatting terminates: with enough fuel
    the traversal returns or panics, and it returns when the keys of every
    map can be sorted.  A pointer is replaced by the placeholder exactly when
    it is entered while an enclosing call is rendering its referent: its
    key is then in the visited set, the call writes [<cycle>] and nothing
    else, and the pointer is not followed; a pointer whose key is not in the
    visited set is followed, its key in the set until the call ends.  The
    placeholder is thus written once for each such entry the traversal
    reaches, which need not be once in all: on a buffer, where no scalar
    text, field name or indent unit is itself the text [<cycle>], the writes
    of [<cycle>] are as many as the entries reported, and the buffer holds
    the writes one after the other.  For [s = []any{1, &s}] and every
    compact Formatter without width and element limits whose depth limit,
    default included, is at least 2, the output is [[]{1, &[]{1, <cycle>}}],
    with exactly one placeholder. *)
Theorem cycle_placeholder_at_reentry {W : Type} {Wr : Writer W} {F : Fmt}
    (h : Heap) (n : nat) (f : Formatter) (w0 : W) (x : value) :
  let run := printM h n x (initial f {| sink := w0; trace := [] |}) in
  let counted :=
    printM h n x
      (initial f {| sink := {| inner := EmptyString; calls := [] |}; trace := [] |}) in
  (pointerCyclesOnly h x ->
     keysPrintable h /\
     ((enoughFuel h f x <= n)%nat ->
        Fprint h n f w0 x <> NoFuel /\
        (sortable h -> exists e w', Fprint h n f w0 x = Returned e w'))) /\
  (forall m v (s : state W),
     IsValid v = true -> isPointerKind (KindOf v) = true ->
     (key v ∈ seen s -> printSameDepth h (S m) v s = Done (pr "<cycle>" s)) /\
     (key v ∉ seen s ->
        printSameDepth h (S m) v s
          = deferred (switch h (printSameDepth h m) v (set_seen (fun S => {[key v]} ∪ S) s))
                     (set_seen (fun S => S ∖ {[key v]})))) /\
  eraseR sink run = print h n x (initial f w0) /\
  Forall (fun ev => onPathOnly ev /\ (isCycleReport ev = true <-> reentered ev))
         (trace (w (stateOf run))) /\
  (textsAvoid "<cycle>" -> Indent (withDefaults f) <> "<cycle>" ->
   forallb (namesAvoid "<cycle>") (x :: heapValues h) = true ->
     placeholderWrites (calls (sink (w (stateOf counted)))) = cycleReports counted /\
     inner (sink (w (stateOf counted)))
       = concatAll (map fst (calls (sink (w (stateOf counted)))))) /\
  (forall g k,
     Compact g = true -> MaxWidth g <= 0 -> MaxElements g <= 0 ->
     2 <= MaxDepth (withDefaults g) -> (6 <= k)%nat ->
     @Sprint builtinFmt heapCycle k g sliceCycle = Some "[]{1, &[]{1, <cycle>}}") /\
  occurrences "<cycle>" "[]{1, &[]{1, <cycle>}}" = 1%nat.
Proof.
  intros run counted. split; [|split; [|split; [|split; [|split; [|split]]]]].
  - intros Hc. split; [by eapply pointerCyclesOnly_keysPrintable|].
    intros Hn. split; [by apply Fprint_terminates | intros Hs; by apply Fprint_returns].
  - intros m v s Hv Hp. split.
    + by apply printSameDepth_reentry.
    + by apply printSameDepth_first_entry.
  - unfold run. by rewrite erase_printM.
  - eapply Forall_impl; [|apply printM_onPathOnly].
    intros ev Hev. split; [done | by apply report_reentered].
  - intros Ht Hi Hn.
    destruct (printM_tallied h n f x Ht Hi Hn) as (_ & _ & Hc & Hw).
    split; [|exact Hc]. unfold cycleReports. fold counted in Hw. lia.
  - intros g k. apply Sprint_cycle.
  - vm_compute. reflexivity.
Qed.

Lemma cycle_placeholder_at_reentry_witness :
  pointerCyclesOnly heapCycle sliceCycle /\
  (exists e w', @Fprint string Buffer builtinFmt heapCycle 203 compact EmptyString sliceCycle
                  = Returned e w') /\
  placeholderWrites
    (calls (sink (w (stateOf
       (@printM (Logged string) LoggedWriter builtinFmt heapCycle 203 sliceCycle
          (initial compact {| sink := {| inner := EmptyString; calls := [] |};
                              trace := [] |})))))) = 1%nat /\
  @Sprint builtinFmt heapCycle 6 compact sliceCycle = Some "[]{1, &[]{1, <cycle>}}".
Proof.
  assert (pointerCyclesOnly heapCycle sliceCycle) as Hc.
  { exists 4%nat. vm_compute. reflexivity. }
  pose proof (@cycle_placeholder_at_reentry string Buffer builtinFmt heapCycle 203 compact
                EmptyString sliceCycle) as (Ht & _ & _ & _ & Hn & Hout & _).
  split; [exact Hc|]. split; [|split].
  - apply (proj2 (Ht Hc)); [apply Nat.leb_le; vm_compute; reflexivity|].
    apply sortable_no_maps. reflexivity.
  - rewrite (proj1 (Hn builtin_textsAvoid ltac:(by vm_compute) ltac:(vm_compute; reflexivity))).
    vm_compute. reflexivity.
  - apply Hout; [reflexivity | by vm_compute | by vm_compute | by vm_compute | lia].
Defined.

(** C1, the claim as stated fails.  A slice that holds two pointers to
    itself, [s := []any{nil, nil}; s[0] = &s; s[1] = &s], contains itself
    only through pointers and is printed with four placeholders; and the
    slice [s = []any{1, &s}] under a Formatter with MaxDepth 1 is printed
    with none, the depth guard cutting the referent before the pointer is
    entered again. *)
Lemma cycle_placeholder_count_varies :
  pointerCyclesOnly heapTwoBack sliceCycle /\
  @Sprint builtinFmt heapTwoBack 10 compact sliceCycle
    = Some "[]{&[]{<cycle>, <cycle>}, &[]{<cycle>, <cycle>}}" /\
  occurrences "<cycle>" "[]{&[]{<cycle>, <cycle>}, &[]{<cycle>, <cycle>}}" = 4%nat /\
  pointerCyclesOnly heapCycle sliceCycle /\
  @Sprint builtinFmt heapCycle 10 (withMaxDepth 1 compact) sliceCycle
    = Some "[]{1, &[]{<maxdepth>, <maxdepth>}}" /\
  occurrences "<cycle>" "[]{1, &[]{<maxdepth>, <maxdepth>}}" = 0%nat.
Proof.
  split; [|split; [|split; [|split; [|split]]]];
    try (exists 4%nat); vm_compute; reflexivity.
Qed.



(** * Further properties of the code *)

(** X1. [printMap] prints the keys of the map, each once, in ascending
    order of [compareValues]: for a map of at most 12 keys (where
    [slices.SortFunc] is the insertion sort) whose key types are told apart
    by their names, the sort returns a permutation of the entries in which no
    entry sorts after a later one, and the loop of [printMap] runs over it. *)
Theorem map_keys_printed_in_order {W : Type} `{Writer W} `{Fmt}
    (h : Heap) (print : value -> state W -> result W) (v : value) (s : state W)
    (keys : list (value * value)) :
  (length (entries h v) <= 12)%nat ->
  namesTellApart (entries h v) = true ->
  SortFunc byKey (entries h v) = Some keys ->
  keys ≡ₚ entries h v /\
  Sorted.StronglySorted (notAfter byKey) keys /\
  printMap h print v s
    = andThen (mapLoop print (Z.of_nat (length keys)) 0 keys (mapOpen s))
              (fun s3 => Done (pr "}" s3)).
Proof.
  intros _ Hn Hs. split; [by apply (SortFunc_perm byKey)|]. split.
  - apply (SortFunc_sorted byKey byKey_swap (entries h v)); [|done].
    intros a b c. by apply sorted_keys_trans.
  - unfold printMap. change (fun kv1 kv2 => compareValues (fst kv1) (fst kv2)) with byKey.
    by rewrite Hs.
Qed.

Lemma map_keys_printed_in_order_witness :
  [(str "a", int 1); (str "b", int 2)] ≡ₚ entries heapMap mapBA /\
  Sorted.StronglySorted (@notAfter (value * value) (@byKey builtinFmt))
    [(str "a", int 1); (str "b", int 2)].
Proof.
  pose proof (@map_keys_printed_in_order string Buffer builtinFmt heapMap
                (fun x => @print string Buffer builtinFmt heapMap 5 x) mapBA (initial compact EmptyString)
                [(str "a", int 1); (str "b", int 2)]) as Hw.
  destruct Hw as (Hp & Hs & _); [apply Nat.leb_le; reflexivity | reflexivity | reflexivity|].
  by split.
Defined.

(** X2. The sort of the keys panics exactly when the map has at least two
    keys and one of them is an interface that wraps nil; [printMap] then
    panics before it has written anything.  A map with a single key is
    printed whatever the key. *)
Theorem map_with_nil_key_panics {W : Type} `{Writer W} `{Fmt}
    (h : Heap) (print : value -> state W -> result W) (v : value) (s : state W) :
  keysValid (entries h v) = true ->
  (SortFunc byKey (entries h v) = None <->
     (2 <= length (entries h v))%nat /\ hasNilKey (entries h v) = true) /\
  ((2 <= length (entries h v))%nat -> hasNilKey (entries h v) = true ->
     printMap h print v s = Panic s).
Proof.
  intros Hv. split; [by apply SortFunc_byKey_None|].
  intros Hl Hn. unfold printMap.
  change (fun kv1 kv2 => compareValues (fst kv1) (fst kv2)) with byKey.
  by rewrite (proj2 (SortFunc_byKey_None _ Hv) (conj Hl Hn)).
Qed.

Lemma map_with_nil_key_panics_witness :
  keysValid (entries heapNilKey mapNilKey) = true /\
  @printMap string Buffer builtinFmt heapNilKey (fun x => @print string Buffer builtinFmt heapNilKey 5 x) mapNilKey
    (initial compact EmptyString) = Panic (initial compact EmptyString).
Proof.
  split; [reflexivity|].
  apply (@map_with_nil_key_panics string Buffer builtinFmt heapNilKey
           (fun x => @print string Buffer builtinFmt heapNilKey 5 x) mapNilKey (initial compact EmptyString));
    [reflexivity | apply Nat.leb_le; reflexivity | reflexivity].
Defined.

(** X3. Writing to a [bytes.Buffer] never fails: whatever is formatted, the
    error [Fprint] returns is nil, which is the error [Sprint] discards, and
    what the buffer held before the call is kept in front of the output. *)
Theorem Sprint_discards_no_error {F : Fmt}
    (h : Heap) (n : nat) (f : Formatter) (buf : string) (x : value) :
  match @Fprint string Buffer F h n f buf x with
  | Returned e out => e = None /\ exists t, out = buf +:+ t
  | _ => True
  end.
Proof.
  unfold Fprint.
  assert (exists t, w (initial f buf) = buf +:+ t) as H0.
  { exists EmptyString. simpl. by rewrite append_empty_r. }
  destruct (buffer_inv buf h n x (initial f buf) eq_refl H0) as (He & t & Hw).
  destruct (print h n x (initial f buf)) as [s|s|s]; try done.
  simpl in He, Hw. rewrite He.
  destruct (negb (col s =? 0) && negb (Compact (fmtr s))); simpl.
  - split; [done|]. exists (t +:+ nl). by rewrite Hw, append_assoc.
  - split; [done|]. by exists t.
Qed.

(** X4. The column counter counts the bytes written since the last newline:
    [write] moves it exactly as a scan of the written text does, and
    throughout a call of [Sprint] it is the column at which the text in the
    buffer ends. *)
Theorem col_is_bytes_since_newline {F : Fmt}
    (h : Heap) (n : nat) (f : Formatter) (x : value) (str : string) (s : state string) :
  (err s = None -> col (write str s) = colAfter (col s) str) /\
  (let s' := stateOf (@print string Buffer F h n x (initial f EmptyString)) in
   col s' = colAfter 0 (w s')).
Proof.
  split; [apply write_col_scans|].
  by apply (buffer_col_inv h n x (initial f EmptyString)).
Qed.

Lemma col_is_bytes_since_newline_witness :
  col (write ("ab" +:+ nl +:+ "cde") (bufferState compact "xy" 2 0)) = 3.
Proof.
  rewrite (proj1 (@col_is_bytes_since_newline builtinFmt emptyHeap 0 compact Zero
                    ("ab" +:+ nl +:+ "cde") (bufferState compact "xy" 2 0)) eq_refl).
  reflexivity.
Defined.

(** X5. In expanded mode (Compact false) the text [Sprint] returns ends with
    a newline, or is empty: [Fprint] adds the newline when the traversal
    stops in the middle of a line. *)
Theorem expanded_output_ends_with_newline {F : Fmt}
    (h : Heap) (n : nat) (f : Formatter) (x : value) (out : string) :
  Compact f = false ->
  @Sprint F h n f x = Some out ->
  out = EmptyString \/ exists t, out = t +:+ nl.
Proof.
  intros Hc. unfold Sprint, Fprint.
  pose proof (buffer_col_inv h n x (initial f EmptyString) eq_refl eq_refl) as (He & Hcol).
  destruct (print h n x (initial f EmptyString)) as [s|s|s] eqn:E; simpl in *; try done.
  apply print_framed in E as (Hf & _). rewrite He, Hf. simpl. rewrite Hc. simpl.
  destruct (col s =? 0) eqn:E0; simpl.
  - intros [= <-]. apply Z.eqb_eq in E0.
    destruct (colAfter_zero (w s) 0) as [[_ ->] | Ht]; [lia | congruence | by left | by right].
  - intros [= <-]. right. by exists (w s).
Qed.

Lemma expanded_output_ends_with_newline_witness :
  exists t, ("[]{" +:+ nl +:+ "    2," +:+ nl +:+ "    3," +:+ nl +:+ "    4," +:+ nl
             +:+ "}" +:+ nl) = t +:+ nl.
Proof.
  destruct (@expanded_output_ends_with_newline builtinFmt heap234 10 zeroFormatter slice234
              ("[]{" +:+ nl +:+ "    2," +:+ nl +:+ "    3," +:+ nl +:+ "    4," +:+ nl
               +:+ "}" +:+ nl) eq_refl) as [E|Ht].
  - vm_compute. reflexivity.
  - discriminate E.
  - exact Ht.
Defined.

(** X6. A struct field that is named in the ignore list of the struct's
    type, is unexported, or holds its zero value while ShowZero is off leaves
    no trace in the output, neither text nor separator: the struct is
    printed exactly as the struct without these fields is. *)
Theorem hidden_fields_leave_no_trace {W : Type} `{Writer W} `{Fmt}
    (h : Heap) (fuel : nat) (t : TypeName) (fs : list (StructField * value))
    (s : state W) :
  let ignore := default [] (ignoreFields (fmtr s) !! {| rkind := Struct; rname := t |}) in
  printSameDepth h (S fuel) (VStruct t fs) s
    = printSameDepth h (S fuel)
        (VStruct t (List.filter (fieldShown h ignore (ShowZero (fmtr s))) fs)) s.
Proof.
  intros ignore.
  change (printStruct h (print h fuel) (VStruct t fs) s
          = printStruct h (print h fuel)
              (VStruct t (List.filter (fieldShown h ignore (ShowZero (fmtr s))) fs)) s).
  apply printStruct_filter. intros e. apply print_framed.
Qed.

(** X7. With OmitPackage set, a type name is cut after its last dot:
    [pkg.Base] is printed as [Base], and so is [map[string]pkg.Base]; a name
    without a dot, and a name whose only dot is its first byte, are printed
    whole.  Without OmitPackage the name is printed whole. *)
Theorem typeName_cuts_after_last_dot {W : Type} (t : rtype) (s : state W)
    (pkg base : string) :
  (OmitPackage (fmtr s) = false -> typeName t s = String_of t) /\
  (OmitPackage (fmtr s) = true -> absent "." base = true ->
     (String_of t = pkg +:+ "." +:+ base -> pkg <> EmptyString -> typeName t s = base) /\
     (String_of t = base -> typeName t s = base) /\
     (String_of t = "." +:+ base -> typeName t s = "." +:+ base)).
Proof.
  unfold typeName. split; [by intros ->|]. intros -> Hb. cbn [negb].
  split; [|split].
  - intros -> Hp. rewrite LastIndex_qualified by done.
    assert (0 < len pkg) as Hl.
    { destruct pkg; [done|]. unfold len. simpl String.length. lia. }
    destruct (0 <? len pkg) eqn:E; [|lia].
    assert (Z.to_nat (len pkg + 1) = String.length (pkg +:+ ".")) as ->.
    { rewrite length_append. unfold len. simpl. lia. }
    rewrite <- append_assoc.
    assert (String.length ((pkg +:+ ".") +:+ base) - String.length (pkg +:+ ".")
            = String.length base)%nat as ->.
    { rewrite (length_append (pkg +:+ ".") base). lia. }
    apply substring_after.
  - intros ->. unfold LastIndex. by rewrite lastIndexFrom_absent.
  - intros ->. change ("." +:+ base) with (EmptyString +:+ "." +:+ base).
    rewrite (LastIndex_qualified EmptyString base Hb). done.
Qed.

Lemma typeName_cuts_after_last_dot_witness :
  typeName {| rkind := Struct; rname := builtin "map[string]format.Player" |}
           (bufferState (withDefaults
              {| ShowZero := false; MaxWidth := 0; Compact := true; Indent := EmptyString;
                 MaxDepth := 0; MaxElements := 0; OmitPackage := true;
                 ignoreFields := ∅ |}) EmptyString 0 0)
    = "Player".
Proof.
  apply (proj1 (proj2 (@typeName_cuts_after_last_dot string
                  {| rkind := Struct; rname := builtin "map[string]format.Player" |}
                  (bufferState (withDefaults
                     {| ShowZero := false; MaxWidth := 0; Compact := true;
                        Indent := EmptyString; MaxDepth := 0; MaxElements := 0;
                        OmitPackage := true; ignoreFields := ∅ |}) EmptyString 0 0)
                  "map[string]format" "Player") eq_refl eq_refl));
    [reflexivity | discriminate].
Defined.

(** X8. [IgnoreFields] and [printStruct] compose: once [IgnoreFields] has
    been called with a struct of type [T] and some names, no field of a
    struct of type [T] that bears one of these names is printed, whatever it
    holds and whether or not ShowZero is set; the names ignored before stay
    ignored, and the lists of the other types are as they were.  The call
    panics on nil and on a value that is neither a struct nor a pointer. *)
Theorem IgnoreFields_hides_named_fields (elemOf : rtype -> rtype) (h : Heap)
    (f f' : Formatter) (tn : TypeName) (fs0 : list (StructField * value))
    (names : list string) :
  IgnoreFields elemOf f (VStruct tn fs0) names = Some f' ->
  let t := {| rkind := Struct; rname := tn |} in
  let ignore := default [] (ignoreFields (withDefaults f') !! t) in
  (forall z fv, Name (fst fv) ∈ names -> fieldShown h ignore z fv = false) /\
  (forall z fv, Name (fst fv) ∈ default [] (ignoreFields f !! t) ->
     fieldShown h ignore z fv = false) /\
  (forall t', t' <> t -> ignoreFields f' !! t' = ignoreFields f !! t') /\
  IgnoreFields elemOf f Zero names = None /\
  (forall v t0, TypeOf v = Some t0 -> rkind t0 <> Pointer -> rkind t0 <> Struct ->
     IgnoreFields elemOf f v names = None).
Proof.
  unfold IgnoreFields. cbn [TypeOf nameOf KindOf rkind].
  change (bool_decide (Struct = Pointer)) with false. cbn [rkind].
  rewrite (bool_decide_eq_false_2 (Struct <> Struct)) by (intros Hc; by apply Hc).
  intros [= <-]. cbn zeta. cbn [withDefaults withIgnoreFields ignoreFields].
  rewrite lookup_insert_eq. cbn [default].
  split; [|split; [|split; [|split]]].
  - intros z fv Hin. apply ignored_not_shown. apply elem_of_app. by right.
  - intros z fv Hin. apply ignored_not_shown. apply elem_of_app. by left.
  - intros t' Hne. by rewrite lookup_insert_ne.
  - done.
  - intros v t0 -> Hp Hs.
    rewrite !(bool_decide_eq_false_2 (rkind t0 = Pointer)) by done.
    by rewrite (bool_decide_eq_true_2 (rkind t0 <> Struct)).
Qed.

Lemma IgnoreFields_hides_named_fields_witness :
  fieldShown emptyHeap ["Score"] true ({| Name := "Score"; IsExported := true |}, int 11)
    = false.
Proof.
  refine (proj1 (IgnoreFields_hides_named_fields (fun t => t) emptyHeap zeroFormatter
                  (withIgnoreFields
                     {[ {| rkind := Struct; rname := builtin "format.Player" |} := ["Score"] ]}
                     zeroFormatter)
                  (builtin "format.Player") [] ["Score"] eq_refl) true
               ({| Name := "Score"; IsExported := true |}, int 11) _).
  apply list_elem_of_singleton. reflexivity.
Defined.

(** X9. A map whose keys are integers of one type, such as [map[int]T], or
    [map[any]T] holding [int] keys only, is printed with its keys in
    increasing numeric order: for at most 12 keys the sort never panics and
    returns the entries of the map ordered by the integer in the key. *)
Theorem int_keys_printed_in_increasing_order `{Fmt}
    (tn : TypeName) (k : IntKind) (kvs : list (value * value)) :
  (length kvs <= 12)%nat ->
  intKeys tn k kvs = true ->
  exists keys,
    SortFunc byKey kvs = Some keys /\
    keys ≡ₚ kvs /\
    Sorted.StronglySorted (fun kv1 kv2 => keyInt kv1 <= keyInt kv2) keys.
Proof.
  intros _ Hi. destruct (intKeys_sortable tn k kvs Hi) as [keys Es].
  exists keys. split; [done|].
  assert (keys ≡ₚ kvs) as Hp by by apply (SortFunc_perm byKey).
  split; [done|].
  apply (StronglySorted_weaken (notAfter byKey)).
  - intros a b Ha Hb (z & Ez & Hz). rewrite Hp in Ha, Hb.
    destruct (intKeys_spec tn k kvs a Hi Ha) as [n1 E1].
    destruct (intKeys_spec tn k kvs b Hi Hb) as [n2 E2].
    rewrite (byKey_ints tn k a b n1 n2 E1 E2) in Ez. injection Ez as <-.
    unfold keyInt. rewrite E1, E2. simpl.
    unfold Compare_int, Compare in Hz. simpl in Hz.
    destruct (n1 <? n2) eqn:E12; [lia|]. destruct (n2 <? n1) eqn:E21; lia.
  - apply (SortFunc_sorted byKey byKey_swap kvs); [|done].
    intros a b c. apply sorted_keys_trans. by apply (intKeys_namesTellApart tn k).
Qed.

Lemma int_keys_printed_in_increasing_order_witness :
  exists keys,
    SortFunc (@byKey builtinFmt) [(any (int 3), int 0); (any (int 1), int 0); (any (int 2), int 0)]
      = Some keys /\
    map keyInt keys = [1; 2; 3].
Proof.
  destruct (@int_keys_printed_in_increasing_order builtinFmt (builtin "int") I0
              [(any (int 3), int 0); (any (int 1), int 0); (any (int 2), int 0)])
    as (keys & Es & _ & _); [simpl; lia | reflexivity|].
  exists keys. split; [exact Es|].
  vm_compute in Es. injection Es as <-. reflexivity.
Defined.

(** X10. The output does not depend on the order in which [MapKeys] returns
    the keys: two heaps that differ only in the order of the entries of
    their maps give the same result of [Fprint] (the same text, the same
    error, or a panic in both), provided every map has at most 12 keys,
    whose types are told apart by their names and no two of which sort
    together. *)
Theorem output_independent_of_key_order {W : Type} {Wr : Writer W} {F : Fmt}
    (h1 h2 : Heap) (n : nat) (f : Formatter) (w0 : W) (x : value) :
  sameUpToKeyOrder h1 h2 -> keysSeparated h1 ->
  Fprint h1 n f w0 x = Fprint h2 n f w0 x.
Proof. intros Hs Hk. by apply Fprint_heaps. Qed.

Lemma output_independent_of_key_order_witness :
  @Fprint string Buffer builtinFmt heapMap 10 compact EmptyString mapBA
    = @Fprint string Buffer builtinFmt heapMapAB 10 compact EmptyString mapBA.
Proof.
  apply (@output_independent_of_key_order string Buffer builtinFmt heapMap heapMapAB).
  - split; [reflexivity|]. split; [reflexivity|]. intros a. simpl.
    destruct (decide (a = 1%N)) as [->|Hne].
    + rewrite !lookup_singleton_eq. apply Permutation_swap.
    + by rewrite !lookup_singleton_ne.
  - intros a kvs. simpl. destruct (decide (a = 1%N)) as [->|Hne].
    + rewrite lookup_singleton_eq. intros [= <-].
      split; [simpl; lia|]. split; [reflexivity|]. split; [reflexivity|].
      intros kv1 kv2 H1 H2.
      apply elem_of_cons in H1 as [->|H1]; [|apply list_elem_of_singleton in H1 as ->];
        (apply elem_of_cons in H2 as [->|H2]; [|apply list_elem_of_singleton in H2 as ->]);
        vm_compute; congruence.
    + by rewrite lookup_singleton_ne.
Defined.

(** X11. In compact mode without a width limit and without an element cap,
    a slice of numbers, booleans and strings is printed as the texts of its
    elements ([%q] for a string, [%v] for the others) joined by a comma and
    a space between [[]{] and [}], with no separator after the last element;
    an empty slice, and a nil one, is printed as [[]{}]. *)
Theorem compact_slice_joins_elements {F : Fmt}
    (h : Heap) (n : nat) (f : Formatter) (t : TypeName) (a : addr) :
  Compact f = true -> MaxWidth f <= 0 -> MaxElements f <= 0 ->
  forallb isScalar (elems h (VSlice t a)) = true ->
  forallb (fun e => LastIndex (scalarText e) nl_byte <? 0) (elems h (VSlice t a)) = true ->
  @Sprint F h (S (S n)) f (VSlice t a)
    = Some ("[]{" +:+ joinWith ", " (map scalarText (elems h (VSlice t a))) +:+ "}").
Proof.
  intros Hc Hw Hm Hsc Hnl. apply Sprint_of_emit; try done.
  intros s Hp Hd HM Hs.
  change (@printSameDepth string Buffer F h (S (S n)) (VSlice t a) s)
    with (printSlice h (fun x => deeper (@printSameDepth string Buffer F h (S n) x))
            (VSlice t a) s).
  apply (printSlice_join h _ scalarText); [done | done|].
  intros e s' He Hp' (Hf' & Hd' & _).
  rewrite forallb_forall in Hsc, Hnl. apply list_elem_of_In in He.
  apply print_scalar; [done | rewrite Hf', Hd'; lia | by apply Hsc|].
  specialize (Hnl e He). lia.
Qed.

Lemma compact_slice_joins_elements_witness :
  @Sprint builtinFmt heap234 2 compact slice234 = Some "[]{2, 3, 4}".
Proof.
  apply (@compact_slice_joins_elements builtinFmt heap234 0 compact (builtin "[]int") 1%N);
    (reflexivity || (vm_compute; discriminate)).
Defined.

(** X12. The indent unit is ignored in compact mode, as the declaration of
    [Formatter] says: with Compact set, [Fprint] gives the same result
    whatever [Indent] holds. *)
Theorem Indent_ignored_if_Compact {W : Type} {Wr : Writer W} {F : Fmt}
    (h : Heap) (ind : string) (n : nat) (f : Formatter) (w0 : W) (x : value) :
  Compact f = true ->
  Fprint h n (withIndent ind f) w0 x = Fprint h n f w0 x.
Proof. apply Fprint_withIndent. Qed.

Lemma Indent_ignored_if_Compact_witness :
  @Fprint string Buffer builtinFmt heap234 10 (withIndent "--" compact) EmptyString slice234
    = Returned None "[]{2, 3, 4}".
Proof.
  rewrite (@Indent_ignored_if_Compact string Buffer builtinFmt heap234 "--" 10 compact
             EmptyString slice234 eq_refl).
  vm_compute. reflexivity.
Defined.

(** X13. [Fprint] returns, with the error of the sink or nil, for every
    value, every Formatter and every writer, provided that no map holds two
    keys or more one of which is an interface that wraps nil (the sort would
    panic) and that no key of a map contains itself without passing a
    pointer, directly or in its referent ([fmt.Sprint], which compares such
    keys, would not return).  The keys of
    [map[*[]any]int{&s: 1, &t: 2}] with [s[0] = s] are of the second
    kind. *)
Theorem Fprint_returns_unless_nil_key {W : Type} {Wr : Writer W} {F : Fmt}
    (h : Heap) (n : nat) (f : Formatter) (w0 : W) (x : value) :
  (forall a kvs, maps h !! a = Some kvs -> keysAccepted kvs = true) ->
  keysPrintable h ->
  (enoughFuel h f x <= n)%nat ->
  (exists e w', Fprint h n f w0 x = Returned e w') /\ ~ keysPrintable heapSelfKeys.
Proof.
  intros Hk _ Hn. split; [|apply heapSelfKeys_not_printable].
  apply Fprint_returns; [|done].
  intros a kvs Ha. specialize (Hk a kvs Ha). unfold keysAccepted in Hk.
  apply andb_prop in Hk as [Hv Hk].
  change (fun kv1 kv2 : value * value => compareValues (fst kv1) (fst kv2)) with byKey.
  destruct (SortFunc byKey kvs) as [r|] eqn:E; [done|]. exfalso.
  apply (SortFunc_byKey_None kvs Hv) in E as [Hl Hnil].
  rewrite Hnil in Hk. simpl in Hk. rewrite orb_false_r in Hk.
  apply Nat.ltb_lt in Hk. lia.
Qed.

Lemma Fprint_returns_unless_nil_key_witness :
  keysPrintable heapMap /\
  exists e w', @Fprint string Buffer builtinFmt heapMap 203 compact EmptyString mapBA
                 = Returned e w'.
Proof.
  assert (keysPrintable heapMap) as Hp.
  { intros a kvs. simpl. destruct (decide (a = 1%N)) as [->|Hne].
    - rewrite lookup_singleton_eq. intros [= <-]. by exists 1%nat.
    - by rewrite lookup_singleton_ne. }
  split; [exact Hp|].
  apply (@Fprint_returns_unless_nil_key string Buffer builtinFmt heapMap 203 compact
           EmptyString mapBA).
  - intros a kvs. simpl. destruct (decide (a = 1%N)) as [->|Hne].
    + rewrite lookup_singleton_eq. by intros [= <-].
    + by rewrite lookup_singleton_ne.
  - exact Hp.
  - apply Nat.leb_le. vm_compute. reflexivity.
Defined.

(** X14. What is printed for nil, in compact mode without a width limit: a
    nil interface (and [Fprint] of nil itself) is [nil], a nil pointer is
    [&nil], the referent never being read, and a nil map is [{}], as an
    empty map is. *)
Theorem nil_values_in_compact_mode {F : Fmt}
    (h : Heap) (n : nat) (f : Formatter) (t : TypeName) (a : addr) :
  Compact f = true -> MaxWidth f <= 0 -> MaxElements f <= 0 ->
  @Sprint F h (S n) f Zero = Some "nil" /\
  @Sprint F h (S (S n)) f (VInterface t Zero) = Some "nil" /\
  (cells h !! a = None -> @Sprint F h (S (S n)) f (VPointer t a) = Some "&nil") /\
  (default [] (maps h !! a) = [] -> @Sprint F h (S n) f (VMap t a) = Some "{}").
Proof.
  intros Hc Hw Hm. split; [|split; [|split]].
  - apply Sprint_of_emit; try done. intros s Hp _ _ _.
    change (@printSameDepth string Buffer F h (S n) Zero s) with (Done (pr "nil" s)).
    by rewrite pr_emit.
  - apply Sprint_of_emit; try done. intros s Hp _ _ _.
    change (@printSameDepth string Buffer F h (S (S n)) (VInterface t Zero) s)
      with (Done (pr "nil" s)).
    by rewrite pr_emit.
  - intros Ha. apply Sprint_of_emit; try done. intros s Hp _ _ Hs.
    rewrite printSameDepth_first_entry; [|done|done|rewrite Hs; apply not_elem_of_empty].
    unfold switch. cbn [KindOf Elem]. rewrite Ha. cbn [default].
    set (s1 := set_seen _ s).
    assert (plain s1) as Hp1 by done.
    change (@printSameDepth string Buffer F h (S n) Zero (pr "&" s1))
      with (Done (pr "nil" (pr "&" s1))).
    rewrite (pr_emit "&" s1) by done.
    rewrite pr_emit; [|by apply emit_plain | done]. rewrite emit_emit.
    cbn [deferred]. f_equal. subst s1. destruct s as [f0 w0 sn d c e].
    unfold emit, set_seen. simpl in *. subst sn. f_equal. set_solver.
  - intros Ha. apply Sprint_of_emit; try done. intros s Hp _ _ Hs.
    rewrite printSameDepth_not_pointer by done.
    unfold switch. cbn [KindOf]. unfold printMap. cbn [entries]. rewrite Ha.
    pose proof Hp as (Hc1 & _).
    cbn [SortFunc insertionSort length mapLoop andThen]. unfold mapOpen.
    rewrite (pr_emit "{" s) by done. rewrite fmtr_emit, Hc1.
    cbn [negb rev length mapLoop andThen].
    rewrite pr_emit; [|by apply emit_plain | done]. by rewrite emit_emit.
Qed.

Lemma nil_values_in_compact_mode_witness :
  @Sprint builtinFmt emptyHeap 2 compact (VPointer (builtin "*int") 1%N) = Some "&nil".
Proof.
  apply (proj1 (proj2 (proj2
           (@nil_values_in_compact_mode builtinFmt emptyHeap 0 compact (builtin "*int") 1%N
              eq_refl ltac:(vm_compute; discriminate) ltac:(vm_compute; discriminate))))).
  reflexivity.
Defined.

(** X15. In compact mode without a width limit and without an element cap,
    a map whose keys and values are numbers, booleans and strings is printed
    as [{k1: v1, k2: v2}]: the entries in the order the sort of the keys
    gives, each as key, colon, space, value, joined by a comma and a space,
    with no type name before the brace and no separator after the last
    entry. *)
Theorem compact_map_joins_sorted_entries {F : Fmt}
    (h : Heap) (n : nat) (f : Formatter) (t : TypeName) (a : addr)
    (sorted : list (value * value)) :
  Compact f = true -> MaxWidth f <= 0 -> MaxElements f <= 0 ->
  SortFunc byKey (entries h (VMap t a)) = Some sorted ->
  forallb (fun kv => oneLineScalar (fst kv) && oneLineScalar (snd kv))
          (entries h (VMap t a)) = true ->
  @Sprint F h (S (S n)) f (VMap t a)
    = Some ("{" +:+ joinWith ", " (map entryText sorted) +:+ "}").
Proof.
  intros Hc Hw Hm Hsort Hsc. apply Sprint_of_emit; try done.
  intros s Hp Hd HM Hs.
  change (@printSameDepth string Buffer F h (S (S n)) (VMap t a) s)
    with (printMap h (fun x => deeper (@printSameDepth string Buffer F h (S n) x))
            (VMap t a) s).
  apply (printMap_join h _ (VMap t a) s sorted); [done | done|].
  intros kv e s' Hkv Hor Hp' (Hf' & Hd' & _).
  rewrite forallb_forall in Hsc.
  rewrite (SortFunc_perm byKey _ _ Hsort) in Hkv. apply list_elem_of_In in Hkv.
  specialize (Hsc kv Hkv). apply andb_prop in Hsc as [Hk Hv].
  assert (oneLineScalar e = true) as He by (by destruct Hor as [-> | ->]).
  apply andb_prop in He as [He1 He2].
  apply print_scalar; [done | rewrite Hf', Hd'; lia | done | lia].
Qed.

Lemma compact_map_joins_sorted_entries_witness :
  @Sprint builtinFmt heapMap 2 compact mapBA
    = Some ("{" +:+ dquote +:+ "a" +:+ dquote +:+ ": 1, " +:+ dquote +:+ "b" +:+ dquote
              +:+ ": 2}").
Proof.
  apply (@compact_map_joins_sorted_entries builtinFmt heapMap 0 compact
           (builtin "map[string]int") 1%N [(str "a", int 1); (str "b", int 2)]);
    (reflexivity || (vm_compute; discriminate)).
Defined.

(** X16. In compact mode without a width limit and without an element cap,
    a struct whose printed fields hold numbers, booleans and strings is
    printed as [T{Name1: v1, Name2: v2}]: the type name as [typeName] gives
    it, then the fields that are exported, not ignored and (unless ShowZero)
    not zero, in the order of declaration, each as name, colon, space, value,
    joined by a comma and a space; a struct none of whose fields is printed
    gives [T{}]. *)
Theorem compact_struct_joins_shown_fields {F : Fmt}
    (h : Heap) (n : nat) (f : Formatter) (t : TypeName) (fs : list (StructField * value)) :
  let T := {| rkind := Struct; rname := t |} in
  let shown := List.filter (fieldShown h (default [] (ignoreFields f !! T)) (ShowZero f)) fs in
  let name := typeName T (@initial string f EmptyString) in
  Compact f = true -> MaxWidth f <= 0 -> MaxElements f <= 0 ->
  LastIndex name nl_byte < 0 ->
  forallb (fun fv => (LastIndex (Name (fst fv)) nl_byte <? 0) && oneLineScalar (snd fv))
          shown = true ->
  @Sprint F h (S (S n)) f (VStruct t fs)
    = Some (name +:+ "{" +:+ joinWith ", " (map fieldText shown) +:+ "}").
Proof.
  intros T shown name Hc Hw Hm Hname Hsh. apply Sprint_of_emit_at; try done.
  intros s Hp Hf Hd Hs.
  change (@printSameDepth string Buffer F h (S (S n)) (VStruct t fs) s)
    with (printStruct h (fun x => deeper (@printSameDepth string Buffer F h (S n) x))
            (VStruct t fs) s).
  assert (typeName T s = name) as Hn.
  { unfold name, typeName. by rewrite Hf. }
  assert (1 <= MaxDepth (fmtr s)) as HM.
  { rewrite Hf. unfold withDefaults. simpl. destruct (MaxDepth f <=? 0) eqn:E; lia. }
  rewrite forallb_forall in Hsh.
  rewrite (printStruct_join h _ t fs s); fold T; rewrite ?Hn, ?Hf; try done.
  - intros e. apply print_framed.
  - rewrite <- Hf. lia.
  - intros fv Hfv. apply list_elem_of_In in Hfv. specialize (Hsh fv Hfv).
    apply andb_prop in Hsh as [Hsh _]. lia.
  - intros fv s' Hfv Hp' (Hf' & Hd' & _).
    apply list_elem_of_In in Hfv. specialize (Hsh fv Hfv).
    apply andb_prop in Hsh as [_ Hsh]. apply andb_prop in Hsh as [Hs1 Hs2].
    apply print_scalar; [done | rewrite Hf', Hd'; lia | done | lia].
Qed.

Lemma compact_struct_joins_shown_fields_witness :
  @Sprint builtinFmt emptyHeap 2 compact player = Some "format.Player{Score: 11, Level: 2}".
Proof.
  apply (@compact_struct_joins_shown_fields builtinFmt emptyHeap 0 compact
           (builtin "format.Player")
           [ ({| Name := "Score"; IsExported := true |}, int 11);
             ({| Name := "secret"; IsExported := false |}, int 3);
             ({| Name := "Rank"; IsExported := true |}, int 0);
             ({| Name := "Level"; IsExported := true |}, int 2) ]);
    (reflexivity || (vm_compute; discriminate)).
Defined.

(** X17. In expanded mode (the default) without a width limit and without
    an element cap, a slice of numbers, booleans and strings is printed one
    element per line: [[]{], a newline, then for each element the indent
    unit (four spaces when Indent is empty), its text, a comma and a newline,
    the last element included, then [}] and the newline that [Fprint] adds. *)
Theorem expanded_slice_one_element_per_line {F : Fmt}
    (h : Heap) (n : nat) (f : Formatter) (t : TypeName) (a : addr) :
  Compact f = false -> MaxWidth f <= 0 -> MaxElements f <= 0 ->
  forallb isScalar (elems h (VSlice t a)) = true ->
  @Sprint F h (S (S n)) f (VSlice t a)
    = Some ("[]{" +:+ nl +:+ concatAll (map (elementLine f) (elems h (VSlice t a)))
              +:+ "}" +:+ nl).
Proof.
  intros Hc Hw Hm Hsc.
  pose proof (Sprint_of_put h (S (S n)) f (VSlice t a)
                ("[]{" +:+ nl +:+ concatAll (map (elementLine f) (elems h (VSlice t a)))
                   +:+ "}") Hc Hw Hm) as HS.
  rewrite !append_assoc in HS. apply HS.
  - intros s Hp Hf Hd H0 Hs.
    change (@printSameDepth string Buffer F h (S (S n)) (VSlice t a) s)
      with (printSlice h (fun x => deeper (@printSameDepth string Buffer F h (S n) x))
              (VSlice t a) s).
    rewrite printSlice_lines; try done.
    + by rewrite Hf.
    + rewrite Hf. unfold withDefaults. simpl. destruct (MaxDepth f <=? 0) eqn:E; lia.
  - rewrite <- !append_assoc. by apply colAfter_brace.
Qed.

Lemma expanded_slice_one_element_per_line_witness :
  @Sprint builtinFmt heap234 2 zeroFormatter slice234
    = Some ("[]{" +:+ nl +:+ "    2," +:+ nl +:+ "    3," +:+ nl +:+ "    4," +:+ nl
              +:+ "}" +:+ nl).
Proof.
  apply (@expanded_slice_one_element_per_line builtinFmt heap234 0 zeroFormatter
           (builtin "[]int") 1%N);
    (reflexivity || (vm_compute; discriminate)).
Defined.

(** X18. In expanded mode without a width limit and without an element cap,
    a map whose keys and values are numbers, booleans and strings is printed
    one entry per line, in the order the sort of the keys gives: [{], a
    newline, then for each entry the indent unit, the key, a colon and a
    space, the value, a comma and a newline, then [}] and the final
    newline. *)
Theorem expanded_map_one_entry_per_line {F : Fmt}
    (h : Heap) (n : nat) (f : Formatter) (t : TypeName) (a : addr)
    (sorted : list (value * value)) :
  Compact f = false -> MaxWidth f <= 0 -> MaxElements f <= 0 ->
  SortFunc byKey (entries h (VMap t a)) = Some sorted ->
  forallb (fun kv => isScalar (fst kv) && isScalar (snd kv)) (entries h (VMap t a)) = true ->
  @Sprint F h (S (S n)) f (VMap t a)
    = Some ("{" +:+ nl +:+ concatAll (map (entryLine f) sorted) +:+ "}" +:+ nl).
Proof.
  intros Hc Hw Hm Hsort Hsc.
  pose proof (Sprint_of_put h (S (S n)) f (VMap t a)
                ("{" +:+ nl +:+ concatAll (map (entryLine f) sorted) +:+ "}") Hc Hw Hm) as HS.
  rewrite !append_assoc in HS. apply HS.
  - intros s Hp Hf Hd H0 Hs.
    change (@printSameDepth string Buffer F h (S (S n)) (VMap t a) s)
      with (printMap h (fun x => deeper (@printSameDepth string Buffer F h (S n) x))
              (VMap t a) s).
    rewrite (printMap_lines h n t a s sorted); try done.
    + by rewrite Hf.
    + rewrite Hf. unfold withDefaults. simpl. destruct (MaxDepth f <=? 0) eqn:E; lia.
    + rewrite forallb_forall in Hsc |- *. intros kv Hkv. apply Hsc.
      apply list_elem_of_In. apply list_elem_of_In in Hkv.
      by rewrite <- (SortFunc_perm byKey _ _ Hsort).
  - rewrite <- !append_assoc. by apply colAfter_brace.
Qed.

Lemma expanded_map_one_entry_per_line_witness :
  @Sprint builtinFmt heapMap 2 zeroFormatter mapBA
    = Some ("{" +:+ nl +:+ "    " +:+ dquote +:+ "a" +:+ dquote +:+ ": 1," +:+ nl
              +:+ "    " +:+ dquote +:+ "b" +:+ dquote +:+ ": 2," +:+ nl +:+ "}" +:+ nl).
Proof.
  apply (@expanded_map_one_entry_per_line builtinFmt heapMap 0 zeroFormatter
           (builtin "map[string]int") 1%N [(str "a", int 1); (str "b", int 2)]);
    (reflexivity || (vm_compute; discriminate)).
Defined.

(** X19. In expanded mode without a width limit and without an element cap,
    a struct whose printed fields hold numbers, booleans and strings is
    printed one field per line: the type name and [{], a newline, then for
    each field that is exported, not ignored and (unless ShowZero) not zero
    the indent unit, the name, a colon and a space, the value and a newline,
    with no comma, then [}] and the final newline. *)
Theorem expanded_struct_one_field_per_line {F : Fmt}
    (h : Heap) (n : nat) (f : Formatter) (t : TypeName) (fs : list (StructField * value)) :
  let T := {| rkind := Struct; rname := t |} in
  let shown := List.filter (fieldShown h (default [] (ignoreFields f !! T)) (ShowZero f)) fs in
  let name := typeName T (@initial string f EmptyString) in
  Compact f = false -> MaxWidth f <= 0 -> MaxElements f <= 0 ->
  LastIndex name nl_byte < 0 ->
  forallb (fun fv => oneLineScalar (snd fv)) shown = true ->
  @Sprint F h (S (S n)) f (VStruct t fs)
    = Some (name +:+ "{" +:+ nl +:+ concatAll (map (fieldLine f) shown) +:+ "}" +:+ nl).
Proof.
  intros T shown name Hc Hw Hm Hname Hsh.
  pose proof (Sprint_of_put h (S (S n)) f (VStruct t fs)
                (name +:+ "{" +:+ nl +:+ concatAll (map (fieldLine f) shown) +:+ "}")
                Hc Hw Hm) as HS.
  rewrite !append_assoc in HS. apply HS.
  - intros s Hp Hf Hd H0 Hs.
    change (@printSameDepth string Buffer F h (S (S n)) (VStruct t fs) s)
      with (printStruct h (fun x => deeper (@printSameDepth string Buffer F h (S n) x))
              (VStruct t fs) s).
    assert (typeName T s = name) as Hn.
    { unfold name, typeName. by rewrite Hf. }
    rewrite (printStruct_lines h n t fs s); fold T; rewrite ?Hn, ?Hf; try done.
    rewrite <- Hf. rewrite Hf at 1. unfold withDefaults at 1. simpl.
    destruct (MaxDepth f <=? 0) eqn:E; lia.
  - rewrite <- !append_assoc. by apply colAfter_brace.
Qed.

Lemma expanded_struct_one_field_per_line_witness :
  @Sprint builtinFmt emptyHeap 2 zeroFormatter player
    = Some ("format.Player{" +:+ nl +:+ "    Score: 11" +:+ nl +:+ "    Level: 2" +:+ nl
              +:+ "}" +:+ nl).
Proof.
  apply (@expanded_struct_one_field_per_line builtinFmt emptyHeap 0 zeroFormatter
           (builtin "format.Player")
           [ ({| Name := "Score"; IsExported := true |}, int 11);
             ({| Name := "secret"; IsExported := false |}, int 3);
             ({| Name := "Rank"; IsExported := true |}, int 0);
             ({| Name := "Level"; IsExported := true |}, int 2) ]);
    (reflexivity || (vm_compute; discriminate)).
Defined.
